(** * Transcript resolution and stream reconciliation of [summarize]

    A shallow embedding of three parts of the program:

    - [src/run/streaming.ts]: [mergeStreamingChunk], the reconciler of
      streamed LLM output chunks;
    - [src/content/link-preview/transcript/providers/youtube.ts]:
      [fetchTranscript], the ordered fallback chain of the YouTube resolver;
    - [src/transcription/whisper.ts]: [transcribeMediaWithWhisper] and
      [transcribeMediaFileWithWhisper], the Whisper transcription engine.

    JavaScript strings are sequences of UTF-16 code units; the reconciler
    only compares, measures and slices them, so they are lists of code
    units here.  The two asynchronous functions are written in explicit
    state-passing style over an abstract world. *)

From stdpp Require Import list strings pretty sorting.
From Stdlib Require Import ZArith Ascii QArith Qminmax.

Local Open Scope Z_scope.

(** ** Stream reconciler ([src/run/streaming.ts]) *)

Module Streaming.

(** A UTF-16 code unit, and a JavaScript string. *)
Definition codeunit : Type := N.
Definition jsstring : Type := list codeunit.

Definition CR : codeunit := 13%N.
Definition LF : codeunit := 10%N.

(** Code units of an ASCII literal, for examples. *)
Fixpoint lit (s : string) : jsstring :=
  match s with
  | EmptyString => []
  | String a s' => N_of_ascii a :: lit s'
  end.

(** [input.replace(/\r\n?/g, '\n')]: every CR, together with an LF that
    directly follows it, becomes one LF. *)
Fixpoint normalizeStreamText (input : jsstring) : jsstring :=
  match input with
  | [] => []
  | c :: rest =>
      if (c =? CR)%N then
        LF :: match rest with
              | c' :: rest' =>
                  if (c' =? LF)%N then normalizeStreamText rest'
                  else normalizeStreamText rest
              | [] => []
              end
      else c :: normalizeStreamText rest
  end.

(** The [for] loop of [commonPrefixLength]: [i] is the loop variable and
    [fuel] bounds the remaining iterations ([max - i] at every entry). *)
Fixpoint commonPrefixScan (a b : jsstring) (max i : nat) (fuel : nat) : nat :=
  match fuel with
  | O => i
  | S fuel' =>
      if bool_decide (i < max)%nat then
        if bool_decide (a !! i = b !! i) then commonPrefixScan a b max (S i) fuel'
        else i
      else i
  end.

Definition commonPrefixLength (a b : jsstring) (limit : nat) : nat :=
  let max := Nat.min (Nat.min (length a) (length b)) limit in
  commonPrefixScan a b max 0 max.

(** [s.startsWith(p)]. *)
Definition startsWith (s p : jsstring) : bool :=
  bool_decide (take (length p) s = p).

(** [s.slice(-len)] for [0 < len]: the last [len] code units, the whole
    string when it is shorter. *)
Definition sliceLast (len : nat) (s : jsstring) : jsstring :=
  drop (length s - len)%nat s.

Record MergeResult : Type := { next : jsstring; appended : jsstring }.

(** [Math.max(prev.length - 64, Math.floor(prev.length * 0.9))].  The
    product is a double; for every string length its floor is the integer
    quotient of [9 * length] by [10] (the error of the factor 0.9 is far
    below one tenth at such magnitudes, and exact multiples of ten round
    back to the integer), which is what is written here. *)
Definition minPrefix (prevLength : nat) : Z :=
  Z.max (Z.of_nat prevLength - 64) (9 * Z.of_nat prevLength / 10).

(** The overlap loop, [for (let len = maxOverlap; len > 0; len -= 1)],
    followed by the final [return] of the function. *)
Fixpoint overlapLoop (prev nextChunk : jsstring) (len : nat) : MergeResult :=
  match len with
  | O => {| next := prev ++ nextChunk; appended := nextChunk |}
  | S len' =>
      if bool_decide (sliceLast len prev = take len nextChunk) then
        {| next := prev ++ drop len nextChunk; appended := drop len nextChunk |}
      else overlapLoop prev nextChunk len'
  end.

Definition mergeStreamingChunk (previous chunk : jsstring) : MergeResult :=
  if bool_decide (chunk = []) then {| next := previous; appended := [] |}
  else
    let prev := normalizeStreamText previous in
    let nextChunk := normalizeStreamText chunk in
    if bool_decide (prev = []) then {| next := nextChunk; appended := nextChunk |}
    else if startsWith nextChunk prev then
      {| next := nextChunk; appended := drop (length prev) nextChunk |}
    else if startsWith prev nextChunk then
      {| next := prev; appended := [] |}
    else
      let overlap :=
        overlapLoop prev nextChunk (Nat.min (Nat.min (length prev) (length nextChunk)) 2048) in
      if bool_decide (length prev ≤ length nextChunk)%nat then
        let prefixLen := commonPrefixLength prev nextChunk 4096 in
        if bool_decide (0 < prefixLen)%nat then
          if bool_decide (minPrefix (length prev) ≤ Z.of_nat prefixLen) then
            {| next := nextChunk; appended := drop prefixLen nextChunk |}
          else overlap
        else overlap
      else overlap.

(** Sequential merging of a stream of chunks, the caller's loop:
    [acc = mergeStreamingChunk(acc, chunk).next] for each chunk in turn. *)
Definition mergeAll (start : jsstring) (chunks : list jsstring) : jsstring :=
  foldl (fun acc chunk => next (mergeStreamingChunk acc chunk)) start chunks.

(** What is left of [s] once a CR at the end of [p] has absorbed an LF
    at the start of [s]. *)
Definition afterJoin (p s : jsstring) : jsstring :=
  match last p, s with
  | Some c, c' :: s' => if (c =? CR)%N && (c' =? LF)%N then s' else s
  | _, _ => s
  end.

(** *** Chunk relations used to state the properties

    [lcpLength a b limit] is the length of the longest common prefix of
    [a] and [b], cut off at [limit]. *)
Definition lcpLength (a b : jsstring) (limit : nat) : nat :=
  Nat.min (length (max_prefix a b).2) limit.

(** [chunk] is a near-resend of [prev]: at least as long, and sharing a
    non-empty common prefix that reaches [minPrefix]. *)
Definition nearPrefix (prev chunk : jsstring) : Prop :=
  (length prev ≤ length chunk)%nat
  ∧ (0 < lcpLength prev chunk 4096)%nat
  ∧ minPrefix (length prev) ≤ Z.of_nat (lcpLength prev chunk 4096).

(** Some non-empty suffix of [prev], of at most 2048 code units, is a
    prefix of [chunk]. *)
Definition overlaps (prev chunk : jsstring) : Prop :=
  Exists (λ k, sliceLast k prev = take k chunk)
         (seq 1 (Nat.min (Nat.min (length prev) (length chunk)) 2048)).

(** [chunk] bears none of the relations to [prev] that the reconciler
    looks for. *)
Definition independent (prev chunk : jsstring) : Prop :=
  ¬ prev `prefix_of` chunk ∧ ¬ chunk `prefix_of` prev
  ∧ ¬ nearPrefix prev chunk ∧ ¬ overlaps prev chunk.

(** A stream of deltas, none containing a CR, each of which is empty,
    the first text, or independent of the text accumulated before it. *)
Fixpoint pureDeltaStream (acc : jsstring) (deltas : list jsstring) : Prop :=
  match deltas with
  | [] => True
  | d :: deltas' =>
      (CR ∉ d) ∧ (d = [] ∨ acc = [] ∨ independent acc d)
      ∧ pureDeltaStream (acc ++ d) deltas'
  end.

#[global] Instance nearPrefix_dec prev chunk : Decision (nearPrefix prev chunk).
Proof. unfold nearPrefix. apply _. Defined.

#[global] Instance overlaps_dec prev chunk : Decision (overlaps prev chunk).
Proof. unfold overlaps. apply _. Defined.

#[global] Instance independent_dec prev chunk : Decision (independent prev chunk).
Proof. unfold independent. apply _. Defined.

#[global] Instance pureDeltaStream_dec acc deltas : Decision (pureDeltaStream acc deltas).
Proof. revert acc. induction deltas as [|d deltas IH]; intros acc; simpl; apply _. Defined.

(** The chunks of a cumulative stream: after the text [acc], each chunk
    repeats everything so far and adds the next of [suffixes]. *)
Fixpoint snapshots (acc : jsstring) (suffixes : list jsstring) : list jsstring :=
  match suffixes with
  | [] => []
  | suffix :: suffixes' => (acc ++ suffix) :: snapshots (acc ++ suffix) suffixes'
  end.

End Streaming.

(** ** JavaScript values and effects shared by the two resolvers *)

Module Js.

(** An [Error] object, as far as the program looks at it: its message.
    (The [cause] that [wrapError] attaches is never read back.) *)
Record Error : Type := { message : string }.

(** A thrown value: an [Error], or anything else, kept as [String(value)]. *)
Inductive thrown : Type :=
  | ThrownError (e : Error)
  | ThrownOther (rendering : string).

(** How an awaited promise of an external collaborator settles. *)
Inductive reply (A : Type) : Type :=
  | Resolves (a : A)
  | Rejects (t : thrown).
Arguments Resolves {A} a.
Arguments Rejects {A} t.

(** How a call of a modelled function ends.  [OutOfFuel] belongs to the
    model only: the recursion of the Whisper engine is bounded by fuel. *)
Inductive outcome (A : Type) : Type :=
  | Returned (a : A)
  | Threw (t : thrown)
  | OutOfFuel.
Arguments Returned {A} a.
Arguments Threw {A} t.
Arguments OutOfFuel {A}.

(** Truthiness of a [string | null]: neither [null] nor empty. *)
Definition truthy (s : option string) : bool :=
  match s with
  | Some s => negb (String.eqb s "")
  | None => false
  end.

(** [if (s) { then_(s) } else { else_ }] on a [string | null]. *)
Definition ifTruthy {A} (s : option string) (then_ : string → A) (else_ : A) : A :=
  match s with
  | Some v => if String.eqb v "" then else_ else then_ v
  | None => else_
  end.

Section Monad.
Context {S : Type}.

(** A computation over the state [S]. *)
Definition M (A : Type) : Type := S → outcome A * S.

Definition ret {A} (a : A) : M A := λ s, (Returned a, s).

Definition throw {A} (t : thrown) : M A := λ s, (Threw t, s).

Definition bind {A B} (m : M A) (k : A → M B) : M B :=
  λ s, match m s with
       | (Returned a, s') => k a s'
       | (Threw t, s') => (Threw t, s')
       | (OutOfFuel, s') => (OutOfFuel, s')
       end.

(** [try { m } catch (error) { handler(error) }]. *)
Definition tryCatch {A} (m : M A) (handler : thrown → M A) : M A :=
  λ s, match m s with
       | (Threw t, s') => handler t s'
       | other => other
       end.

(** [try { m } finally { cleanup }], for a cleanup that cannot throw
    (every cleanup of the program ends in [.catch(() => {})]). *)
Definition tryFinally {A} (m : M A) (cleanup : S → S) : M A :=
  λ s, let '(o, s') := m s in (o, cleanup s').

(** A step that only changes the state. *)
Definition effect (f : S → S) : M unit := λ s, (Returned tt, f s).

(** [spec oof m P]: whenever [m] returns, its value satisfies [P]; it may
    run out of fuel only if [oof] holds. *)
Definition spec (oof : Prop) {A} (m : M A) (P : A → Prop) : Prop :=
  ∀ s, match (m s).1 with
       | Returned a => P a
       | Threw _ => True
       | OutOfFuel => oof
       end.
End Monad.

Declare Scope js_scope.
Delimit Scope js_scope with js.
Notation "'let*' x := m 'in' k" := (bind m (λ x, k))
  (at level 10, x name, m at level 100, k at level 200) : js_scope.

(** [error instanceof Error ? error.message : String(error)]. *)
Definition thrownMessage (t : thrown) : string :=
  match t with
  | ThrownError e => message e
  | ThrownOther rendering => rendering
  end.

(** [wrapError(prefix, error)]. *)
Definition wrapError (prefix : string) (t : thrown) : Error :=
  {| message := prefix +:+ ": " +:+ thrownMessage t |}.

End Js.

(** ** Whisper transcription engine ([src/transcription/whisper.ts]) *)

Module Whisper.
Import Js.
Local Open Scope js_scope.

Definition MAX_OPENAI_UPLOAD_BYTES : N := 24 * 1024 * 1024.
Definition DEFAULT_SEGMENT_SECONDS : N := 600.

Inductive TranscriptionProvider : Type := OpenAi | Fal | WhisperCpp.

Record WhisperTranscriptionResult : Type := {
  text : option string;
  provider : option TranscriptionProvider;
  error : option Error;
  notes : list string;
}.

(** Exactly one of [text] and [error] is set, and a text is never empty. *)
Definition wellFormed (r : WhisperTranscriptionResult) : Prop :=
  match text r with
  | Some t => t ≠ "" ∧ error r = None
  | None => is_Some (error r)
  end.

Record WhisperProgressEvent : Type := {
  partIndex : option nat;
  parts : option nat;
  processedDurationSeconds : option Q;
  totalDurationSeconds : option Q;
}.

(** The contents of a [Uint8Array]. *)
Definition Bytes : Type := list Byte.byte.

Definition byteLength (b : Bytes) : N := N.of_nat (length b).

(** [bytes.slice(0, n)]. *)
Fixpoint sliceTo (n : N) (b : Bytes) : Bytes :=
  match b with
  | [] => []
  | x :: b' => if (n =? 0)%N then [] else x :: sliceTo (N.pred n) b'
  end.

(** The world outside the engine, taken at its interface: the built-in
    string and path operations; [process.env], [os] and [crypto]; the
    probes of the local tools ([isWhisperCppEnabled], lines 43-45,
    [isWhisperCliAvailable], 47-54, [resolveWhisperCppBinary], 56-59,
    [resolveWhisperCppModelPath], 61-86, [isFfmpegAvailable], 814-820);
    the subprocesses (the [spawn] of [whisper-cli], lines 202-243, and of
    [ffmpeg], 831-869 and 949-970); the file system; the two HTTP clients
    ([transcribeWithOpenAi], lines 682-712, [transcribeWithFal], 744-763);
    and the helpers that only shape names and messages
    ([resolveWhisperCppModelLabelFromPath], [ensureWhisperFilenameExtension],
    [formatBytes]).  An operation whose promise can reject returns a
    [reply]; the others cannot fail (they resolve on every path, or their
    rejection is caught where they are called). *)
Record Env : Type := {
  World : Type;
  trim : string → string;
  toLowerCase : string → string;
  pathJoin : string → string → string;
  formatBytes : N → string;
  ensureWhisperFilenameExtension : string → string → string;
  resolveWhisperCppModelLabelFromPath : string → string;
  sortByLocaleCompare : list string → list string;
  tmpdir : World → string;
  randomUUID : World → string * World;
  isWhisperCppEnabled : World → bool;
  isWhisperCliAvailable : World → bool * World;
  resolveWhisperCppModelPath : World → option string * World;
  resolveWhisperCppBinary : World → string;
  isFfmpegAvailable : World → bool * World;
  spawnFfmpeg : list string → World → reply unit * World;
  spawnWhisperCli :
    string → list string → option Q → option (WhisperProgressEvent → World → World) →
    World → reply unit * World;
  fsWriteFile : string → Bytes → World → reply unit * World;
  fsReadFile : string → World → reply Bytes * World;
  fsReadFileUtf8 : string → World → reply string * World;
  fsReadHead : string → N → World → reply Bytes * World;
  fsStatSize : string → World → reply N * World;
  fsMkdtemp : string → World → reply string * World;
  fsReaddir : string → World → reply (list string) * World;
  fsUnlink : string → World → World;
  fsRm : string → World → World;
  transcribeWithOpenAi :
    Bytes → string → option string → string → World → reply (option string) * World;
  transcribeWithFal : Bytes → string → string → World → reply (option string) * World;
}.

(** [await] of an operation that may reject, of one that cannot, and a
    read of the world. *)
Definition await {E : Env} {A} (f : World E → reply A * World E) : M (S := World E) A :=
  λ w, match f w with
       | (Resolves a, w') => (Returned a, w')
       | (Rejects t, w') => (Threw t, w')
       end.

Definition perform {E : Env} {A} (f : World E → A * World E) : M (S := World E) A :=
  λ w, let '(a, w') := f w in (Returned a, w').

Definition ask {E : Env} {A} (f : World E → A) : M (S := World E) A :=
  λ w, (Returned (f w), w).

(** [onProgress?.(event)]. *)
Definition report {E : Env} (onProgress : option (WhisperProgressEvent → World E → World E))
    (event : WhisperProgressEvent) : M (S := World E) unit :=
  match onProgress with
  | Some sink => effect (sink event)
  | None => ret tt
  end.

(** [s.split(';')[0]]. *)
Fixpoint beforeSemicolon (s : string) : string :=
  match s with
  | EmptyString => EmptyString
  | String c s' => if Ascii.eqb c ";" then EmptyString else String c (beforeSemicolon s')
  end.

(** [s.includes(sub)]. *)
Definition includes (s sub : string) : bool :=
  match String.index 0 sub s with Some _ => true | None => false end.

(** Either the function returns here, or it goes on with the value. *)
Inductive step (A : Type) : Type :=
  | Return (result : WhisperTranscriptionResult)
  | Continue (a : A).
Arguments Return {A} result.
Arguments Continue {A} a.

Section Engine.
Context {E : Env}.

Abbreviation Sink := (option (WhisperProgressEvent → World E → World E)).

(** Lines 36-41. *)
Definition isWhisperCppReady : M (S := World E) bool :=
  let* enabled := ask (isWhisperCppEnabled E) in
  if negb enabled then ret false
  else
    let* available := perform (isWhisperCliAvailable E) in
    if negb available then ret false
    else
      let* model := perform (resolveWhisperCppModelPath E) in
      ret (truthy model).

(** Lines 103-116. *)
Definition isWhisperCppSupportedMediaType (mediaType : string) : bool :=
  let type := trim E (beforeSemicolon (toLowerCase E mediaType)) in
  String.eqb type "audio/mpeg" || String.eqb type "audio/mp3"
  || String.eqb type "audio/mpga" || String.eqb type "audio/ogg"
  || String.eqb type "audio/oga" || String.eqb type "application/ogg"
  || String.eqb type "audio/flac" || String.eqb type "audio/x-wav"
  || String.eqb type "audio/wav".

(** Lines 451-458. *)
Definition shouldRetryOpenAiViaFfmpeg (error : Error) : bool :=
  let msg := toLowerCase E (message error) in
  includes msg "unrecognized file format"
  || includes msg "could not be decoded"
  || includes msg "format is not supported".

(** Lines 872-936: the two ffmpeg command lines. *)
Definition runFfmpegTranscodeToMp3 (inputPath outputPath : string) : M (S := World E) unit :=
  await (spawnFfmpeg E
           ["-hide_banner"; "-loglevel"; "error"; "-i"; inputPath; "-vn"; "-ac"; "1";
            "-ar"; "16000"; "-b:a"; "64k"; outputPath]).

Definition runFfmpegTranscodeToMp3Lenient (inputPath outputPath : string)
    : M (S := World E) unit :=
  await (spawnFfmpeg E
           ["-hide_banner"; "-loglevel"; "error"; "-err_detect"; "ignore_err";
            "-fflags"; "+genpts"; "-i"; inputPath; "-vn"; "-sn"; "-dn"; "-map"; "0:a:0?";
            "-ac"; "1"; "-ar"; "16000"; "-b:a"; "64k"; outputPath]).

(** Lines 822-870. *)
Definition runFfmpegSegment (inputPath outputPattern : string) (segmentSeconds : N)
    : M (S := World E) unit :=
  await (spawnFfmpeg E
           ["-hide_banner"; "-loglevel"; "error"; "-i"; inputPath; "-vn"; "-ac"; "1";
            "-ar"; "16000"; "-b:a"; "32k"; "-f"; "segment"; "-segment_time";
            pretty segmentSeconds; "-reset_timestamps"; "1"; outputPattern]).

(** [join(tmpdir(), prefix + randomUUID() + suffix)]. *)
Definition tempPath (prefix suffix : string) : M (S := World E) string :=
  let* dir := ask (tmpdir E) in
  let* uuid := perform (randomUUID E) in
  ret (pathJoin E dir (prefix +:+ uuid +:+ suffix)).

Definition noProgress (total : option Q) : WhisperProgressEvent :=
  {| partIndex := None; parts := None;
     processedDurationSeconds := None; totalDurationSeconds := total |}.

(** Lines 164-182 of [transcribeWithWhisperCppFile]: the strict, then
    lenient, transcode to MP3; the notes it leaves. *)
Definition transcodeForWhisperCpp (filePath mp3Path : string) (total : option Q)
    (onProgress : Sink) : M (S := World E) (list string) :=
  let* notes :=
    tryCatch
      (let* _ := runFfmpegTranscodeToMp3 filePath mp3Path in
       ret ["whisper.cpp: transcoded media to MP3 via ffmpeg"])
      (λ error,
         let* _ := runFfmpegTranscodeToMp3Lenient filePath mp3Path in
         ret ["whisper.cpp: transcoded media to MP3 via ffmpeg (lenient)";
              "whisper.cpp: strict transcode failed: "
              +:+ message (wrapError "ffmpeg" error)]) in
  let* _ := report onProgress (noProgress total) in
  ret notes.

(** Lines 184-265: run [whisper-cli] on [path] and read its output. *)
Definition runWhisperCpp (modelPath path : string) (notes : list string)
    (total : option Q) (onProgress : Sink) : M (S := World E) WhisperTranscriptionResult :=
  let* outputBase := tempPath "summarize-whisper-cpp-out-" "" in
  let outputTxt := outputBase +:+ ".txt" in
  let args :=
    ["--model"; modelPath; "--language"; "auto"; "--no-timestamps"; "--no-prints";
     "--print-progress"; "--output-txt"; "--output-file"; outputBase; path] in
  let* binary := ask (resolveWhisperCppBinary E) in
  let* failure :=
    tryCatch
      (let* _ := await (spawnWhisperCli E binary args total onProgress) in ret None)
      (λ error, ret (Some error)) in
  match failure with
  | Some error =>
      ret {| text := None; provider := Some WhisperCpp;
             error := Some (wrapError "whisper.cpp failed" error);
             notes := notes |}
  | None =>
      let* raw := tryCatch (await (fsReadFileUtf8 E outputTxt)) (λ _, ret "") in
      let* _ := effect (fsUnlink E outputTxt) in
      let text := trim E raw in
      if String.eqb text "" then
        ret {| text := None; provider := Some WhisperCpp;
               error := Some {| message := "whisper.cpp returned empty text" |};
               notes := notes |}
      else
        ret {| text := Some text; provider := Some WhisperCpp; error := None;
               notes := notes ++ ["whisper.cpp: model="
                                  +:+ resolveWhisperCppModelLabelFromPath E modelPath] |}
  end.

(** Lines 118-269. *)
Definition transcribeWithWhisperCppFile (filePath mediaType : string) (total : option Q)
    (onProgress : Sink) : M (S := World E) WhisperTranscriptionResult :=
  let* model := perform (resolveWhisperCppModelPath E) in
  ifTruthy model
    (λ modelPath,
       let canUseDirectly := isWhisperCppSupportedMediaType mediaType in
       let* canTranscode :=
         if canUseDirectly then ret false else perform (isFfmpegAvailable E) in
       if negb canUseDirectly && negb canTranscode then
         ret {| text := None; provider := Some WhisperCpp;
                error := Some {| message :=
                  "whisper.cpp supports only flac/mp3/ogg/wav (mediaType=" +:+ mediaType
                  +:+ "); install ffmpeg to transcode" |};
                notes := [] |}
       else if canUseDirectly then
         runWhisperCpp modelPath filePath [] total onProgress
       else
         let* mp3Path := tempPath "summarize-whisper-cpp-" ".mp3" in
         tryFinally
           (let* notes := transcodeForWhisperCpp filePath mp3Path total onProgress in
            runWhisperCpp modelPath mp3Path notes total onProgress)
           (fsUnlink E mp3Path))
    (ret {| text := None; provider := None;
            error := Some {| message :=
              "whisper.cpp model not found (set SUMMARIZE_WHISPER_CPP_MODEL_PATH)" |};
            notes := [] |}).

(** Lines 460-475. *)
Definition transcodeBytesToMp3 (bytes : Bytes) : M (S := World E) Bytes :=
  let* inputPath := tempPath "summarize-whisper-input-" ".bin" in
  let* outputPath := tempPath "summarize-whisper-output-" ".mp3" in
  tryFinally
    (let* _ := await (fsWriteFile E inputPath bytes) in
     let* _ :=
       tryCatch (runFfmpegTranscodeToMp3 inputPath outputPath)
         (λ _, runFfmpegTranscodeToMp3Lenient inputPath outputPath) in
     await (fsReadFile E outputPath))
    (λ w, fsUnlink E outputPath (fsUnlink E inputPath w)).

(** Lines 973-982: at most [maxBytes] bytes are kept of what was read. *)
Definition readFirstBytes (filePath : string) (maxBytes : N) : M (S := World E) Bytes :=
  let* read := await (fsReadHead E filePath maxBytes) in
  ret (sliceTo maxBytes read).

(** [try { local = await transcribeWithWhisperCppFile(..) } catch ..],
    lines 301-315 and 507-521. *)
Definition tryWhisperCpp (filePath mediaType : string) (total : option Q)
    (onProgress : Sink) : M (S := World E) WhisperTranscriptionResult :=
  tryCatch (transcribeWithWhisperCppFile filePath mediaType total onProgress)
    (λ error,
       ret {| text := None; provider := Some WhisperCpp;
              error := Some (wrapError "whisper.cpp failed" error); notes := [] |}).

(** Lines 316-323 and 522-529: return the local transcript, or go on
    with the notes of the failed attempt. *)
Definition afterWhisperCpp (local : WhisperTranscriptionResult)
    : step (list string) :=
  if truthy (text local) then
    Return {| text := text local; provider := provider local;
              error := error local; notes := notes local |}
  else
    Continue
      (notes local ++
       match error local with
       | Some e =>
           ["whisper.cpp failed; falling back to remote Whisper: " +:+ message e]
       | None => []
       end).

Definition noProviders (notes : list string) : WhisperTranscriptionResult :=
  {| text := None; provider := None;
     error := Some {| message :=
       "No transcription providers available (install whisper-cpp or set OPENAI_API_KEY or FAL_KEY)" |};
     notes := notes |}.
(** **** The remote providers, lines 367-448 of [transcribeMediaWithWhisper] *)

(** The variables the remote part reassigns. *)
Record RemoteState : Type := {
  rsBytes : Bytes;
  rsMediaType : string;
  rsFilename : option string;
  rsOpenaiError : option Error;
  rsNotes : list string;
}.

(** Lines 367-378. *)
Definition firstOpenAiAttempt (bytes : Bytes) (mediaType : string) (filename : option string)
    (openaiApiKey : option string) (notes : list string)
    : M (S := World E) (step (option Error)) :=
  ifTruthy openaiApiKey
    (λ key,
       tryCatch
         (let* text := await (transcribeWithOpenAi E bytes mediaType filename key) in
          ifTruthy text
            (λ t, ret (Return {| text := Some t; provider := Some OpenAi;
                                 error := None; notes := notes |}))
            (ret (Continue
                    (Some {| message := "OpenAI transcription returned empty text" |}))))
         (λ error, ret (Continue (Some (wrapError "OpenAI transcription failed" error)))))
    (ret (Continue None)).

(** Lines 381-410, entered when the first attempt failed on the format. *)
Definition retryOpenAiViaFfmpeg (key : string) (st : RemoteState)
    : M (S := World E) (step RemoteState) :=
  let* canTranscode := perform (isFfmpegAvailable E) in
  if canTranscode then
    let notes :=
      rsNotes st ++ ["OpenAI could not decode media; transcoding via ffmpeg and retrying"] in
    tryCatch
      (let* mp3Bytes := transcodeBytesToMp3 (rsBytes st) in
       let* retried :=
         await (transcribeWithOpenAi E mp3Bytes "audio/mpeg" (Some "audio.mp3") key) in
       ifTruthy retried
         (λ t, ret (Return {| text := Some t; provider := Some OpenAi;
                              error := None; notes := notes |}))
         (ret (Continue
                 {| rsBytes := mp3Bytes; rsMediaType := "audio/mpeg";
                    rsFilename := Some "audio.mp3";
                    rsOpenaiError := Some {| message :=
                      "OpenAI transcription returned empty text after ffmpeg transcode" |};
                    rsNotes := notes |})))
      (λ error,
         ret (Continue
                {| rsBytes := rsBytes st; rsMediaType := rsMediaType st;
                   rsFilename := rsFilename st; rsOpenaiError := rsOpenaiError st;
                   rsNotes := notes ++ ["ffmpeg transcode failed; cannot retry OpenAI decode error: "
                                        +:+ thrownMessage error] |}))
  else
    ret (Continue
           {| rsBytes := rsBytes st; rsMediaType := rsMediaType st;
              rsFilename := rsFilename st; rsOpenaiError := rsOpenaiError st;
              rsNotes := rsNotes st ++
                ["OpenAI could not decode media; install ffmpeg to enable transcoding retry"] |}).

(** Lines 413-448. *)
Definition falStage (openaiApiKey falApiKey : option string) (st : RemoteState)
    : M (S := World E) WhisperTranscriptionResult :=
  let mediaType := rsMediaType st in
  let canUseFal := truthy falApiKey && String.prefix "audio/" (toLowerCase E mediaType) in
  let notes :=
    rsNotes st ++
    match rsOpenaiError st with
    | Some openaiError =>
        if canUseFal then
          ["OpenAI transcription failed; falling back to FAL: " +:+ message openaiError]
        else []
    | None => []
    end in
  let notes :=
    notes ++
    if truthy falApiKey && negb canUseFal then
      ["Skipping FAL transcription: unsupported mediaType " +:+ mediaType]
    else [] in
  let exhausted :=
    {| text := None;
       provider := if truthy openaiApiKey then Some OpenAi else None;
       error := Some (default {| message := "No transcription providers available" |}
                        (rsOpenaiError st));
       notes := notes |} in
  ifTruthy falApiKey
    (λ key,
       if canUseFal then
         tryCatch
           (let* text := await (transcribeWithFal E (rsBytes st) mediaType key) in
            ifTruthy text
              (λ t, ret {| text := Some t; provider := Some Fal;
                           error := None; notes := notes |})
              (ret {| text := None; provider := Some Fal;
                      error := Some {| message := "FAL transcription returned empty text" |};
                      notes := notes |}))
           (λ error,
              ret {| text := None; provider := Some Fal;
                     error := Some (wrapError "FAL transcription failed" error);
                     notes := notes |})
       else ret exhausted)
    (ret exhausted).

(** **** [transcribeMediaWithWhisper] and [transcribeMediaFileWithWhisper] *)

Record MediaArgs : Type := {
  bytes : Bytes;
  mediaType : string;
  filename : option string;
  openaiApiKey : option string;
  falApiKey : option string;
  mediaTotalDurationSeconds : option Q;
  onProgress : Sink;
}.

Record FileArgs : Type := {
  filePath : string;
  fileMediaType : string;
  fileFilename : option string;
  fileOpenaiApiKey : option string;
  fileFalApiKey : option string;
  segmentSeconds : N;
  fileTotalDurationSeconds : option Q;
  fileOnProgress : Sink;
}.

(** Lines 290-327: the local attempt on a temporary copy of the bytes. *)
Definition localStage (args : MediaArgs) : M (S := World E) (step (list string)) :=
  let* localReady := isWhisperCppReady in
  if localReady then
    let nameHint :=
      match filename args with
      | Some f => if String.eqb (trim E f) "" then "media" else trim E f
      | None => "media"
      end in
    let* tempFile :=
      tempPath "summarize-whisper-local-"
        ("-" +:+ ensureWhisperFilenameExtension E nameHint (mediaType args)) in
    tryFinally
      (let* _ := await (fsWriteFile E tempFile (bytes args)) in
       let* local :=
         tryWhisperCpp tempFile (mediaType args) (mediaTotalDurationSeconds args)
           (onProgress args) in
       ret (afterWhisperCpp local))
      (fsUnlink E tempFile)
  else ret (Continue []).

(** Lines 340-365: an upload over the cap is handed to the chunked
    transcription of a temporary file, or cut to the cap. *)
Definition sizeStage (transcribeMediaFile : FileArgs → M (S := World E) WhisperTranscriptionResult)
    (args : MediaArgs) (notes : list string)
    : M (S := World E) (step (Bytes * list string)) :=
  if truthy (openaiApiKey args) && (MAX_OPENAI_UPLOAD_BYTES <? byteLength (bytes args))%N then
    let* canChunk := perform (isFfmpegAvailable E) in
    if canChunk then
      let* tempFile := tempPath "summarize-whisper-" "" in
      tryFinally
        (let* _ := await (fsWriteFile E tempFile (bytes args)) in
         let* chunked :=
           transcribeMediaFile
             {| filePath := tempFile; fileMediaType := mediaType args;
                fileFilename := filename args; fileOpenaiApiKey := openaiApiKey args;
                fileFalApiKey := falApiKey args; segmentSeconds := DEFAULT_SEGMENT_SECONDS;
                fileTotalDurationSeconds := None; fileOnProgress := onProgress args |} in
         ret (Return chunked))
        (fsUnlink E tempFile)
    else
      ret (Continue
             (sliceTo MAX_OPENAI_UPLOAD_BYTES (bytes args),
              notes ++ ["Media too large for Whisper upload ("
                        +:+ formatBytes E (byteLength (bytes args))
                        +:+ "); transcribing first " +:+ formatBytes E MAX_OPENAI_UPLOAD_BYTES
                        +:+ " only (install ffmpeg for full transcription)"]))
  else ret (Continue (bytes args, notes)).

(** Lines 271-449, with the function it calls for an oversized upload
    as a parameter. *)
Definition transcribeMediaWithWhisperBody
    (transcribeMediaFile : FileArgs → M (S := World E) WhisperTranscriptionResult)
    (args : MediaArgs) : M (S := World E) WhisperTranscriptionResult :=
  let* local := localStage args in
  match local with
  | Return result => ret result
  | Continue notes =>
      if negb (truthy (openaiApiKey args)) && negb (truthy (falApiKey args)) then
        ret (noProviders notes)
      else
        let* sized := sizeStage transcribeMediaFile args notes in
        match sized with
        | Return result => ret result
        | Continue (bytes, notes) =>
            let* first :=
              firstOpenAiAttempt bytes (mediaType args) (filename args)
                (openaiApiKey args) notes in
            match first with
            | Return result => ret result
            | Continue openaiError =>
                let st :=
                  {| rsBytes := bytes; rsMediaType := mediaType args;
                     rsFilename := filename args; rsOpenaiError := openaiError;
                     rsNotes := notes |} in
                let* retried :=
                  ifTruthy (openaiApiKey args)
                    (λ key,
                       match openaiError with
                       | Some failure =>
                           if shouldRetryOpenAiViaFfmpeg failure then
                             retryOpenAiViaFfmpeg key st
                           else ret (Continue st)
                       | None => ret (Continue st)
                       end)
                    (ret (Continue st)) in
                match retried with
                | Return result => ret result
                | Continue st => falStage (openaiApiKey args) (falApiKey args) st
                end
            end
        end
  end.

Definition newline : string := String (ascii_of_nat 10) "".

(** [name.endsWith(suffix)]. *)
Definition endsWith (name suffix : string) : bool :=
  (String.length suffix <=? String.length name)%nat
  && String.eqb
       (String.substring (String.length name - String.length suffix) (String.length suffix) name)
       suffix.

(** The progress event after segment [index] (0-based), lines 611-620. *)
Definition segmentProgress (args : FileArgs) (count index : nat) : WhisperProgressEvent :=
  let processedSeconds := Z.max 0 ((Z.of_nat index + 1) * Z.of_N (segmentSeconds args)) in
  {| partIndex := Some (index + 1)%nat;
     parts := Some count;
     processedDurationSeconds :=
       match fileTotalDurationSeconds args with
       | Some total =>
           if Qlt_le_dec 0 total then Some (Qmin (inject_Z processedSeconds) total)
           else None
       | None => None
       end;
     totalDurationSeconds := fileTotalDurationSeconds args |}.

(** The arguments of the call for one segment, lines 595-602. *)
Definition segmentArgs (args : FileArgs) (name : string) (segmentBytes : Bytes) : MediaArgs :=
  {| bytes := segmentBytes; mediaType := "audio/mpeg"; filename := Some name;
     openaiApiKey := fileOpenaiApiKey args; falApiKey := fileFalApiKey args;
     mediaTotalDurationSeconds := None; onProgress := None |}.

(** Lines 590-623: the loop over the segment files, in order, and the
    [return] that follows it.  [count] is [files.length], [index] the
    position of the next file, [parts] and [usedProvider] the two
    variables of the loop. *)
Fixpoint transcribeSegments
    (transcribeMedia : MediaArgs → M (S := World E) WhisperTranscriptionResult)
    (args : FileArgs) (dir : string) (notes : list string) (count : nat)
    (files : list string) (index : nat) (parts : list string)
    (usedProvider : option TranscriptionProvider)
    : M (S := World E) WhisperTranscriptionResult :=
  match files with
  | [] =>
      ret {| text := Some (String.concat (newline +:+ newline) parts);
             provider := usedProvider; error := None; notes := notes |}
  | name :: rest =>
      let segmentPath := pathJoin E dir name in
      let* segmentBytes := await (fsReadFile E segmentPath) in
      let* result := transcribeMedia (segmentArgs args name segmentBytes) in
      let usedProvider :=
        match usedProvider with
        | Some p => Some p
        | None => provider result
        end in
      if bool_decide (is_Some (error result)) && negb (truthy (text result)) then
        ret {| text := None; provider := usedProvider; error := error result;
               notes := notes |}
      else
        let parts := ifTruthy (text result) (λ t, parts ++ [t]) parts in
        let* _ := report (fileOnProgress args) (segmentProgress args count index) in
        transcribeSegments transcribeMedia args dir notes count rest (S index) parts
          usedProvider
  end.

(** Lines 570-572: the segment files among the names in the directory. *)
Definition segmentFiles (names : list string) : list string :=
  sortByLocaleCompare E
    (List.filter (λ name, String.prefix "part-" name && endsWith name ".mp3") names).

(** The note of line 582. *)
Definition chunkedNote (args : FileArgs) (files : list string) : string :=
  "ffmpeg chunked media into " +:+ pretty (length files) +:+ " parts ("
  +:+ pretty (segmentSeconds args) +:+ "s each)".

(** The progress event of lines 583-588. *)
Definition chunkedProgress (args : FileArgs) (files : list string) : WhisperProgressEvent :=
  {| partIndex := None; parts := Some (length files);
     processedDurationSeconds := None;
     totalDurationSeconds := fileTotalDurationSeconds args |}.

(** Lines 562-626: the chunked transcription of an oversized file. *)
Definition transcribeChunked
    (transcribeMedia : MediaArgs → M (S := World E) WhisperTranscriptionResult)
    (args : FileArgs) (notes : list string) : M (S := World E) WhisperTranscriptionResult :=
  let* tmp := ask (tmpdir E) in
  let* dir := await (fsMkdtemp E (pathJoin E tmp "summarize-whisper-segments-")) in
  tryFinally
    (let pattern := pathJoin E dir "part-%03d.mp3" in
     let* _ := runFfmpegSegment (filePath args) pattern (segmentSeconds args) in
     let* names := await (fsReaddir E dir) in
     let files := segmentFiles names in
     if bool_decide (length files = 0%nat) then
       ret {| text := None; provider := None;
              error := Some {| message := "ffmpeg produced no audio segments" |};
              notes := notes |}
     else
       let notes := notes ++ [chunkedNote args files] in
       let* _ := report (fileOnProgress args) (chunkedProgress args files) in
       transcribeSegments transcribeMedia args dir notes (length files) files 0 [] None)
    (fsRm E dir).

(** Lines 477-645, with [transcribeMediaWithWhisper] as a parameter. *)
Definition transcribeMediaFileWithWhisperBody
    (transcribeMedia : MediaArgs → M (S := World E) WhisperTranscriptionResult)
    (args : FileArgs) : M (S := World E) WhisperTranscriptionResult :=
  let* localReady := isWhisperCppReady in
  let* local :=
    if localReady then
      let* _ := report (fileOnProgress args) (noProgress (fileTotalDurationSeconds args)) in
      let* local :=
        tryWhisperCpp (filePath args) (fileMediaType args) (fileTotalDurationSeconds args)
          (fileOnProgress args) in
      ret (afterWhisperCpp local)
    else ret (Continue []) in
  match local with
  | Return result => ret result
  | Continue notes =>
      if negb (truthy (fileOpenaiApiKey args)) && negb (truthy (fileFalApiKey args)) then
        ret (noProviders notes)
      else
        let* size := await (fsStatSize E (filePath args)) in
        if truthy (fileOpenaiApiKey args) && (MAX_OPENAI_UPLOAD_BYTES <? size)%N then
          let* canChunk := perform (isFfmpegAvailable E) in
          if negb canChunk then
            let notes :=
              notes ++ ["Media too large for Whisper upload (" +:+ formatBytes E size
                        +:+ "); install ffmpeg to enable chunked transcription"] in
            let* head := readFirstBytes (filePath args) MAX_OPENAI_UPLOAD_BYTES in
            let* partial :=
              transcribeMedia
                {| bytes := head; mediaType := fileMediaType args;
                   filename := fileFilename args; openaiApiKey := fileOpenaiApiKey args;
                   falApiKey := fileFalApiKey args; mediaTotalDurationSeconds := None;
                   onProgress := None |} in
            ret {| text := text partial; provider := provider partial;
                   error := error partial; notes := notes ++ Whisper.notes partial |}
          else transcribeChunked transcribeMedia args notes
        else
          let* bytes := await (fsReadFile E (filePath args)) in
          let* _ :=
            report (fileOnProgress args) (noProgress (fileTotalDurationSeconds args)) in
          let* result :=
            transcribeMedia
              {| bytes := bytes; mediaType := fileMediaType args;
                 filename := fileFilename args; openaiApiKey := fileOpenaiApiKey args;
                 falApiKey := fileFalApiKey args; mediaTotalDurationSeconds := None;
                 onProgress := None |} in
          ret {| text := text result; provider := provider result;
                 error := error result; notes := notes ++ Whisper.notes result |}
  end.

(** The two functions call each other; [fuel] bounds how deeply an
    oversized upload can be chunked into uploads that are oversized
    again.  One level is all that segments within the cap need. *)
Fixpoint transcribeMediaWithWhisper (fuel : nat) (args : MediaArgs)
    : M (S := World E) WhisperTranscriptionResult :=
  transcribeMediaWithWhisperBody
    (match fuel with
     | O => λ _ w, (OutOfFuel, w)
     | S fuel' => transcribeMediaFileWithWhisperBody (transcribeMediaWithWhisper fuel')
     end)
    args.

Definition transcribeMediaFileWithWhisper (fuel : nat) (args : FileArgs)
    : M (S := World E) WhisperTranscriptionResult :=
  transcribeMediaFileWithWhisperBody (transcribeMediaWithWhisper fuel) args.

End Engine.

Arguments MediaArgs : clear implicits.
Arguments FileArgs : clear implicits.

(** **** Notions used to state the properties of the engine *)

(** What a [step] promises when it is a [Return]. *)
Definition returnsWellFormed {A} (st : step A) : Prop :=
  match st with
  | Return result => wellFormed result
  | Continue _ => True
  end.

(** Bytes within the upload cap. *)
Definition withinCap (b : Bytes) : Prop :=
  (byteLength b ≤ MAX_OPENAI_UPLOAD_BYTES)%N.

(** The iterations of the loop of [transcribeSegments] over [files], as
    long as none of them fails: the variables of the loop and the world
    after the last of these files, or [None] when a segment failed or
    something was thrown. *)
Fixpoint segmentsTranscribed {E : Env}
    (transcribeMedia : MediaArgs E → M (S := World E) WhisperTranscriptionResult)
    (args : FileArgs E) (dir : string) (count : nat) (files : list string) (index : nat)
    (parts : list string) (usedProvider : option TranscriptionProvider) (w : World E)
    : option (nat * list string * option TranscriptionProvider * World E) :=
  match files with
  | [] => Some (index, parts, usedProvider, w)
  | name :: rest =>
      match fsReadFile E (pathJoin E dir name) w with
      | (Resolves segmentBytes, w1) =>
          match transcribeMedia (segmentArgs args name segmentBytes) w1 with
          | (Returned result, w2) =>
              if bool_decide (is_Some (error result)) && negb (truthy (text result)) then None
              else
                segmentsTranscribed transcribeMedia args dir count rest (S index)
                  (ifTruthy (text result) (λ t, parts ++ [t]) parts)
                  (match usedProvider with Some p => Some p | None => provider result end)
                  (report (fileOnProgress args) (segmentProgress args count index) w2).2
          | _ => None
          end
      | _ => None
      end
  end.

(** A scripted world for examples.  No local whisper.cpp; ffmpeg is
    installed; the file to transcribe has [fileSize] bytes; the segment
    directory lists [segmentNames]; every file read back is empty; the
    n-th call of the OpenAI client gets the n-th of [openAiReplies]; the
    world counts these calls. *)
Definition scriptedEnv (fileSize : N) (segmentNames : list string)
    (openAiReplies : list (reply (option string))) : Env :=
  {| World := nat;
     trim := λ s, s;
     toLowerCase := λ s, s;
     pathJoin := λ dir name, dir +:+ "/" +:+ name;
     formatBytes := λ n, pretty n +:+ "B";
     ensureWhisperFilenameExtension := λ name _, name;
     resolveWhisperCppModelLabelFromPath := λ path, path;
     sortByLocaleCompare := λ names, names;
     tmpdir := λ _, "/tmp";
     randomUUID := λ w, ("00000000-0000-4000-8000-000000000000", w);
     isWhisperCppEnabled := λ _, false;
     isWhisperCliAvailable := λ w, (false, w);
     resolveWhisperCppModelPath := λ w, (None, w);
     resolveWhisperCppBinary := λ _, "whisper-cli";
     isFfmpegAvailable := λ w, (true, w);
     spawnFfmpeg := λ _ w, (Resolves tt, w);
     spawnWhisperCli := λ _ _ _ _ w, (Rejects (ThrownOther "spawn whisper-cli ENOENT"), w);
     fsWriteFile := λ _ _ w, (Resolves tt, w);
     fsReadFile := λ _ w, (Resolves [], w);
     fsReadFileUtf8 := λ _ w, (Resolves "", w);
     fsReadHead := λ _ _ w, (Resolves [], w);
     fsStatSize := λ _ w, (Resolves fileSize, w);
     fsMkdtemp := λ prefix w, (Resolves (prefix +:+ "XXXXXX"), w);
     fsReaddir := λ _ w, (Resolves segmentNames, w);
     fsUnlink := λ _ w, w;
     fsRm := λ _ w, w;
     transcribeWithOpenAi := λ _ _ _ _ w,
       (nth w openAiReplies (Rejects (ThrownOther "no reply scripted")), S w);
     transcribeWithFal := λ _ _ _ w, (Rejects (ThrownOther "FAL is not scripted"), w) |}.

(** Arguments for examples: an empty MP3, without keys and with an
    OpenAI key; an oversized file with an OpenAI key. *)
Definition quiet : MediaArgs (scriptedEnv 0 [] []) :=
  {| bytes := []; mediaType := "audio/mpeg"; filename := Some "talk.mp3";
     openaiApiKey := None; falApiKey := None;
     mediaTotalDurationSeconds := None; onProgress := None |}.

Definition withOpenAi (E : Env) : MediaArgs E :=
  {| bytes := []; mediaType := "audio/mpeg"; filename := Some "talk.mp3";
     openaiApiKey := Some "sk-test"; falApiKey := None;
     mediaTotalDurationSeconds := None; onProgress := None |}.

Definition longFile (E : Env) : FileArgs E :=
  {| filePath := "/media/talk.mp3"; fileMediaType := "audio/mpeg";
     fileFilename := Some "talk.mp3"; fileOpenaiApiKey := Some "sk-test";
     fileFalApiKey := None; segmentSeconds := DEFAULT_SEGMENT_SECONDS;
     fileTotalDurationSeconds := None; fileOnProgress := None |}.

(** The recursive call returns well-formed results on bytes that
    satisfy [okBytes]. *)
Definition mediaOk {E : Env} (oof : Prop) (okBytes : Bytes → Prop)
    (transcribeMedia : MediaArgs E → M (S := World E) WhisperTranscriptionResult) : Prop :=
  ∀ args, okBytes (bytes args) → spec oof (transcribeMedia args) wellFormed.

(** Whatever is read back from a file satisfies [okBytes], and so does
    the head of a file cut at the upload cap. *)
Definition readsOk (E : Env) (okBytes : Bytes → Prop) : Prop :=
  (∀ path w b w', fsReadFile E path w = (Resolves b, w') → okBytes b)
  ∧ ∀ b, okBytes (sliceTo MAX_OPENAI_UPLOAD_BYTES b).

(** What a [step] promises, for a property [P] of results, when it is a
    [Return]. *)
Definition returning {A} (P : WhisperTranscriptionResult → Prop) (st : step A) : Prop :=
  match st with
  | Return result => P result
  | Continue _ => True
  end.

(** The provider a result names is one that could run: a text always
    names its provider, and a remote provider is named only when its key
    is set. *)
Definition attributed (openaiApiKey falApiKey : option string)
    (r : WhisperTranscriptionResult) : Prop :=
  (is_Some (text r) → is_Some (provider r))
  ∧ (provider r = Some OpenAi → truthy openaiApiKey = true)
  ∧ (provider r = Some Fal → truthy falApiKey = true).

(** The recursive call returns well-formed results that name a provider
    that could run. *)
Definition mediaAttributed {E : Env} (oof : Prop)
    (transcribeMedia : MediaArgs E → M (S := World E) WhisperTranscriptionResult) : Prop :=
  ∀ args,
    spec oof (transcribeMedia args)
      (λ r, wellFormed r ∧ attributed (openaiApiKey args) (falApiKey args) r).

(** A second scripted world: whisper.cpp is enabled and installed with
    the model [localModel], if any, and writes "local text"; ffmpeg is
    installed or not; the two remote clients give fixed replies; the
    world counts the remote calls. *)
Definition stagedEnv (localModel : option string) (ffmpeg : bool)
    (openAiReply falReply : reply (option string)) : Env :=
  {| World := nat;
     trim := λ s, s;
     toLowerCase := λ s, s;
     pathJoin := λ dir name, dir +:+ "/" +:+ name;
     formatBytes := λ n, pretty n +:+ "B";
     ensureWhisperFilenameExtension := λ name _, name;
     resolveWhisperCppModelLabelFromPath := λ path, path;
     sortByLocaleCompare := λ names, names;
     tmpdir := λ _, "/tmp";
     randomUUID := λ w, ("00000000-0000-4000-8000-000000000000", w);
     isWhisperCppEnabled := λ _, true;
     isWhisperCliAvailable := λ w, (true, w);
     resolveWhisperCppModelPath := λ w, (localModel, w);
     resolveWhisperCppBinary := λ _, "whisper-cli";
     isFfmpegAvailable := λ w, (ffmpeg, w);
     spawnFfmpeg := λ _ w, (Resolves tt, w);
     spawnWhisperCli := λ _ _ _ _ w, (Resolves tt, w);
     fsWriteFile := λ _ _ w, (Resolves tt, w);
     fsReadFile := λ _ w, (Resolves [], w);
     fsReadFileUtf8 := λ _ w, (Resolves "local text", w);
     fsReadHead := λ _ _ w, (Resolves [], w);
     fsStatSize := λ _ w, (Resolves 0%N, w);
     fsMkdtemp := λ prefix w, (Resolves (prefix +:+ "XXXXXX"), w);
     fsReaddir := λ _ w, (Resolves [], w);
     fsUnlink := λ _ w, w;
     fsRm := λ _ w, w;
     transcribeWithOpenAi := λ _ _ _ _ w, (openAiReply, S w);
     transcribeWithFal := λ _ _ _ w, (falReply, S w) |}.

(** Arguments for examples: an empty upload of type [mediaType] with the
    given keys. *)
Definition upload (E : Env) (mediaType : string) (openaiApiKey falApiKey : option string)
    : MediaArgs E :=
  {| bytes := []; mediaType := mediaType; filename := Some "talk";
     openaiApiKey := openaiApiKey; falApiKey := falApiKey;
     mediaTotalDurationSeconds := None; onProgress := None |}.

(** What a [step] promises in each of its two forms. *)
Definition stepping {A} (P : WhisperTranscriptionResult → Prop) (Q : A → Prop)
    (st : step A) : Prop :=
  match st with
  | Return result => P result
  | Continue a => Q a
  end.

(** The test of line 340 and the note of lines 361-363. *)
Definition oversized {E : Env} (args : MediaArgs E) : bool :=
  truthy (openaiApiKey args) && (MAX_OPENAI_UPLOAD_BYTES <? byteLength (bytes args))%N.

Definition tooLargeNote {E : Env} (args : MediaArgs E) : string :=
  "Media too large for Whisper upload (" +:+ formatBytes E (byteLength (bytes args))
  +:+ "); transcribing first " +:+ formatBytes E MAX_OPENAI_UPLOAD_BYTES
  +:+ " only (install ffmpeg for full transcription)".

(** An upload one byte over the cap. *)
Definition bigUpload : Bytes :=
  repeat Byte.x00 (N.to_nat (MAX_OPENAI_UPLOAD_BYTES + 1)).
Opaque bigUpload.

(** Strings in the order of their code units. *)
Definition byCodeUnits : relation string := λ a b, String.leb a b = true.

#[global] Instance byCodeUnits_dec : RelDecision byCodeUnits.
Proof. intros a b. unfold byCodeUnits. apply _. Defined.

(** A third scripted world.  The world counts the runs of [whisper-cli]
    and the calls of the OpenAI client; [whisper-cli] answers [--help]
    while the count is below [healthy], and exits with an error when it
    is run; ffmpeg is installed or not; the file to transcribe has
    [fileSize] bytes; the segment directory lists [segmentNames], which
    are sorted by code units; every file read back is empty; the OpenAI
    client answers with the name of the file it was given. *)
Definition flakyEnv (healthy : nat) (ffmpeg : bool) (fileSize : N)
    (segmentNames : list string) : Env :=
  {| World := nat;
     trim := λ s, s;
     toLowerCase := λ s, s;
     pathJoin := λ dir name, dir +:+ "/" +:+ name;
     formatBytes := λ n, pretty n +:+ "B";
     ensureWhisperFilenameExtension := λ name _, name;
     resolveWhisperCppModelLabelFromPath := λ path, path;
     sortByLocaleCompare := merge_sort byCodeUnits;
     tmpdir := λ _, "/tmp";
     randomUUID := λ w, ("00000000-0000-4000-8000-000000000000", w);
     isWhisperCppEnabled := λ _, true;
     isWhisperCliAvailable := λ w, (Nat.ltb w healthy, w);
     resolveWhisperCppModelPath := λ w, (Some "/models/ggml-base.bin", w);
     resolveWhisperCppBinary := λ _, "whisper-cli";
     isFfmpegAvailable := λ w, (ffmpeg, w);
     spawnFfmpeg := λ _ w, (Resolves tt, w);
     spawnWhisperCli := λ _ _ _ _ w, (Rejects (ThrownOther "whisper-cli exited with code 1"), S w);
     fsWriteFile := λ _ _ w, (Resolves tt, w);
     fsReadFile := λ _ w, (Resolves [], w);
     fsReadFileUtf8 := λ _ w, (Resolves "", w);
     fsReadHead := λ _ _ w, (Resolves [], w);
     fsStatSize := λ _ w, (Resolves fileSize, w);
     fsMkdtemp := λ prefix w, (Resolves (prefix +:+ "XXXXXX"), w);
     fsReaddir := λ _ w, (Resolves segmentNames, w);
     fsUnlink := λ _ w, w;
     fsRm := λ _ w, w;
     transcribeWithOpenAi := λ _ _ filename _ w,
       (Resolves (Some ("text of " +:+ default "media" filename)), S w);
     transcribeWithFal := λ _ _ _ w, (Rejects (ThrownOther "FAL is not scripted"), w) |}.

(** Arguments for examples: an upload with an OpenAI key; a long file
    with a progress sink and a total duration of 1500 seconds. *)
Definition keyed (E : Env) (bytes : Bytes) : MediaArgs E :=
  {| bytes := bytes; mediaType := "audio/mpeg"; filename := Some "talk.mp3";
     openaiApiKey := Some "sk-test"; falApiKey := None;
     mediaTotalDurationSeconds := None; onProgress := None |}.

Definition timedFile (E : Env) (sink : WhisperProgressEvent → World E → World E)
    : FileArgs E :=
  {| filePath := "/media/talk.mp3"; fileMediaType := "audio/mpeg";
     fileFilename := Some "talk.mp3"; fileOpenaiApiKey := Some "sk-test";
     fileFalApiKey := None; segmentSeconds := DEFAULT_SEGMENT_SECONDS;
     fileTotalDurationSeconds := Some (inject_Z 1500); fileOnProgress := Some sink |}.

(** The text of a result, and the provider of the first of the results
    of [files] that names one. *)
Definition textOf (r : WhisperTranscriptionResult) : string := default "" (text r).

Definition firstProvider (resultOf : string → WhisperTranscriptionResult)
    (used : option TranscriptionProvider) (files : list string)
    : option TranscriptionProvider :=
  foldl (λ used name, match used with Some p => Some p | None => provider (resultOf name) end)
    used files.

(** The result of a segment in [flakyEnv]. *)
Definition segmentResult (name : string) : WhisperTranscriptionResult :=
  {| text := Some ("text of " +:+ name); provider := Some OpenAi; error := None;
     notes := [] |}.

(** Lines 98-101. *)
Definition resolveWhisperCppModelNameForDisplay {E : Env} : M (S := World E) (option string) :=
  let* modelPath := perform (resolveWhisperCppModelPath E) in
  ret (ifTruthy modelPath (λ path, Some (resolveWhisperCppModelLabelFromPath E path)) None).

End Whisper.

(** ** What will transcribe
    ([packages/core/src/content/transcript/providers/transcription-start.ts]) *)

Module TranscriptionStart.
Import Js Whisper.
Local Open Scope js_scope.

(** The members of [TranscriptionProviderHint] this file produces:
    ['onnx'], ['cpp'], ['openai->fal'], ['openai'], ['fal'], ['unknown']. *)
Inductive TranscriptionProviderHint : Type :=
  | HintOnnx | HintCpp | HintOpenaiThenFal | HintOpenai | HintFal | HintUnknown.

Record TranscriptionAvailability : Type := {
  preferredOnnxModel : option string;
  onnxReady : bool;
  hasLocalWhisper : bool;
  hasOpenai : bool;
  hasFal : bool;
  hasAnyProvider : bool;
}.

Record TranscriptionStartInfo : Type := {
  availability : TranscriptionAvailability;
  providerHint : TranscriptionProviderHint;
  modelId : option string;
}.

(** [process.env] and the two functions of [onnx-cli.js] are outside
    this file. *)
Section Start.
Context {E : Env}.
Variable EnvVars : Type.
Variable processEnv : World E → EnvVars.
Variable resolvePreferredOnnxModel : EnvVars → option string.
Variable isOnnxCliConfigured : string → EnvVars → bool.

(** Lines 19-47. *)
Definition resolveTranscriptionAvailability (env : option EnvVars)
    (openaiApiKey falApiKey : option string) : M (S := World E) TranscriptionAvailability :=
  let* ambient := ask processEnv in
  let effectiveEnv := default ambient env in
  let preferredOnnxModel := resolvePreferredOnnxModel effectiveEnv in
  let onnxReady :=
    ifTruthy preferredOnnxModel (λ model, isOnnxCliConfigured model effectiveEnv) false in
  let* hasLocalWhisper := isWhisperCppReady in
  let hasOpenai := truthy openaiApiKey in
  let hasFal := truthy falApiKey in
  let hasAnyProvider := onnxReady || hasLocalWhisper || hasOpenai || hasFal in
  ret {| preferredOnnxModel := preferredOnnxModel; onnxReady := onnxReady;
         hasLocalWhisper := hasLocalWhisper; hasOpenai := hasOpenai; hasFal := hasFal;
         hasAnyProvider := hasAnyProvider |}.

(** Lines 64-74. *)
Definition hintFor (availability : TranscriptionAvailability) : TranscriptionProviderHint :=
  if onnxReady availability then HintOnnx
  else if hasLocalWhisper availability then HintCpp
  else if hasOpenai availability && hasFal availability then HintOpenaiThenFal
  else if hasOpenai availability then HintOpenai
  else if hasFal availability then HintFal
  else HintUnknown.

(** Lines 49-92. *)
Definition resolveTranscriptionStartInfo (env : option EnvVars)
    (openaiApiKey falApiKey : option string) : M (S := World E) TranscriptionStartInfo :=
  let* availability := resolveTranscriptionAvailability env openaiApiKey falApiKey in
  let providerHint := hintFor availability in
  let* modelId :=
    match providerHint with
    | HintOnnx =>
        ret (ifTruthy (preferredOnnxModel availability)
               (λ model, Some ("onnx/" +:+ model)) (Some "onnx"))
    | HintCpp =>
        let* name := resolveWhisperCppModelNameForDisplay in
        ret (Some (default "whisper.cpp" name))
    | _ =>
        ret (if hasOpenai availability && hasFal availability
             then Some "whisper-1->fal-ai/wizper"
             else if hasOpenai availability then Some "whisper-1"
             else if hasFal availability then Some "fal-ai/wizper"
             else None)
    end in
  ret {| availability := availability; providerHint := providerHint; modelId := modelId |}.
End Start.

End TranscriptionStart.

(** ** YouTube transcript resolver
    ([src/content/link-preview/transcript/providers/youtube.ts]) *)

Module YouTube.
Import Js.
Local Open Scope js_scope.

(** The members of [TranscriptSource] this provider uses: ['youtubei'],
    ['captionTracks'], ['apify'], ['yt-dlp'], ['unavailable']. *)
Inductive TranscriptSource : Type :=
  | SrcYoutubei | SrcCaptionTracks | SrcApify | SrcYtDlp | SrcUnavailable.

(** [--youtube auto|web|apify|yt-dlp]. *)
Inductive YoutubeTranscriptMode : Type :=
  | ModeAuto | ModeWeb | ModeApify | ModeYtDlp.

#[global] Instance TranscriptSource_eq_dec : EqDecision TranscriptSource.
Proof. solve_decision. Defined.

#[global] Instance YoutubeTranscriptMode_eq_dec : EqDecision YoutubeTranscriptMode.
Proof. solve_decision. Defined.

Record ProviderContext : Type := {
  url : string;
  html : option string;
  resourceKey : option string;
}.

(** The options [fetchTranscript] reads; [options.fetch] is part of the
    world the providers act on. *)
Record ProviderFetchOptions : Type := {
  youtubeTranscriptMode : YoutubeTranscriptMode;
  ytDlpPath : option string;
  openaiApiKey : option string;
  falApiKey : option string;
  apifyApiToken : option string;
}.

(** A metadata object: its keys with their values ([None] for [null]). *)
Definition Metadata : Type := list (string * option string).

(** [metadata] and [notes] are [None] where the returned object has no
    such key; [notes] is also [None] where the key holds [null]. *)
Record ProviderResult : Type := {
  text : option string;
  source : option TranscriptSource;
  metadata : option Metadata;
  attemptedProviders : list TranscriptSource;
  notes : option string;
}.

(** What [fetchTranscriptWithYtDlp] resolves to. *)
Record YtDlpResult : Type := {
  ytText : option string;
  ytProvider : option Whisper.TranscriptionProvider;
  ytError : option Error;
  ytNotes : list string;
}.

(** The provider calls a run can make, in the order it makes them. *)
Inductive Call : Type :=
  | CallTranscriptEndpoint (originalUrl : string)
  | CallCaptionTracks (originalUrl videoId : string)
  | CallApify (token : option string) (target : string)
  | CallYtDlp (target : string).

(** The collaborators imported from modules outside this file: pure
    helpers, and the four providers, which act on the world. *)
Record Env : Type := {
  World : Type;
  YoutubeiConfig : Type;
  trim : string → string;
  normalizeTranscriptText : string → string;
  extractYouTubeVideoId : string → option string;
  extractYoutubeiTranscriptConfig : string → option YoutubeiConfig;
  fetchTranscriptFromTranscriptEndpoint :
    YoutubeiConfig → string → World → reply (option string) * World;
  fetchTranscriptFromCaptionTracks :
    string → string → string → World → reply (option string) * World;
  fetchTranscriptWithApify :
    option string → string → World → reply (option string) * World;
  fetchTranscriptWithYtDlp :
    option string → option string → option string → string →
    World → reply YtDlpResult * World;
}.

Record State (E : Env) : Type := { world : World E; calls : list Call }.
Arguments world {E} _.
Arguments calls {E} _.

(** [await provider(...)]: the call is logged and the promise settles. *)
Definition await {E : Env} {A} (c : Call) (f : World E → reply A * World E)
  : M (S := State E) A :=
  λ s, match f (world s) with
       | (Resolves a, w) => (Returned a, {| world := w; calls := calls s ++ [c] |})
       | (Rejects t, w) => (Threw t, {| world := w; calls := calls s ++ [c] |})
       end.

Definition transcriptionProviderName (p : Whisper.TranscriptionProvider) : string :=
  match p with
  | Whisper.OpenAi => "openai"
  | Whisper.Fal => "fal"
  | Whisper.WhisperCpp => "whisper.cpp"
  end.

(** [notes.length > 0 ? notes.join('; ') : null]. *)
Definition joinNotes (notes : list string) : option string :=
  match notes with
  | [] => None
  | _ => Some (String.concat "; " notes)
  end.

Section Resolver.
Context {E : Env}.
Variable context : ProviderContext.
Variable options : ProviderFetchOptions.

Let mode := youtubeTranscriptMode options.

Definition hasYtDlpCredentials : bool :=
  truthy (openaiApiKey options) || truthy (falApiKey options).

Definition canRunYtDlp : bool :=
  truthy (ytDlpPath options) && hasYtDlpCredentials.

(** A provider produced text: the success [return] of its block. *)
Definition found (src : TranscriptSource) (meta : Metadata) (transcript : string)
    (attempted : list TranscriptSource) (notes : option string) : ProviderResult :=
  {| text := Some (normalizeTranscriptText E transcript);
     source := Some src;
     metadata := Some meta;
     attemptedProviders := attempted;
     notes := notes |}.

(** Lines 131-138: nothing produced text. *)
Definition unavailableResult (attempted : list TranscriptSource) (notes : list string)
    : ProviderResult :=
  {| text := None;
     source := Some SrcUnavailable;
     metadata := Some [("provider", Some "youtube"); ("reason", Some "no_transcript_available")];
     attemptedProviders := attempted ++ [SrcUnavailable];
     notes := joinNotes notes |}.

(** Lines 105-129: the [yt-dlp] block, then the final return. *)
Definition ytDlpStage (attempted : list TranscriptSource) : M (S := State E) ProviderResult :=
  if bool_decide (mode = ModeYtDlp) || (bool_decide (mode = ModeAuto) && canRunYtDlp) then
    let attempted := attempted ++ [SrcYtDlp] in
    let* ytdlpResult :=
      await (CallYtDlp (url context))
        (fetchTranscriptWithYtDlp E (ytDlpPath options) (openaiApiKey options)
           (falApiKey options) (url context)) in
    let notes := ytNotes ytdlpResult in
    ifTruthy (ytText ytdlpResult)
      (λ transcript,
         ret (found SrcYtDlp
                [("provider", Some "yt-dlp");
                 ("transcriptionProvider",
                  transcriptionProviderName <$> ytProvider ytdlpResult)]
                transcript attempted (joinNotes notes)))
      match bool_decide (mode = ModeYtDlp), ytError ytdlpResult with
      | true, Some error => throw (ThrownError error)
      | _, _ => ret (unavailableResult attempted notes)
      end
  else ret (unavailableResult attempted []).

(** Lines 87-103: the [apify] block. *)
Definition apifyStage (attempted : list TranscriptSource) : M (S := State E) ProviderResult :=
  if bool_decide (mode = ModeAuto) || bool_decide (mode = ModeApify) then
    let attempted := attempted ++ [SrcApify] in
    let* apifyTranscript :=
      await (CallApify (apifyApiToken options) (url context))
        (fetchTranscriptWithApify E (apifyApiToken options) (url context)) in
    ifTruthy apifyTranscript
      (λ transcript,
         ret (found SrcApify [("provider", Some "apify")] transcript attempted None))
      (ytDlpStage attempted)
  else ytDlpStage attempted.

(** Lines 71-84: the [captionTracks] half of the web block. *)
Definition captionTracksStage (pageHtml videoId : string)
    (attempted : list TranscriptSource) : M (S := State E) ProviderResult :=
  let attempted := attempted ++ [SrcCaptionTracks] in
  let* captionTranscript :=
    await (CallCaptionTracks (url context) videoId)
      (fetchTranscriptFromCaptionTracks E pageHtml (url context) videoId) in
  ifTruthy captionTranscript
    (λ transcript,
       ret (found SrcCaptionTracks [("provider", Some "captionTracks")]
              transcript attempted None))
    (apifyStage attempted).

(** Lines 52-85: the web block. *)
Definition webStage (pageHtml videoId : string) : M (S := State E) ProviderResult :=
  if bool_decide (mode = ModeAuto) || bool_decide (mode = ModeWeb) then
    match extractYoutubeiTranscriptConfig E pageHtml with
    | Some config =>
        let attempted := [SrcYoutubei] in
        let* transcript :=
          await (CallTranscriptEndpoint (url context))
            (fetchTranscriptFromTranscriptEndpoint E config (url context)) in
        ifTruthy transcript
          (λ text,
             ret (found SrcYoutubei [("provider", Some "youtubei")] text attempted None))
          (captionTracksStage pageHtml videoId attempted)
    | None => captionTracksStage pageHtml videoId []
    end
  else apifyStage [].

(** Lines 43-47: [context.resourceKey ?? extractYouTubeVideoId(url)],
    kept when its trimmed form is not empty. *)
Definition effectiveVideoId : option string :=
  let candidate :=
    match resourceKey context with
    | Some key => Some key
    | None => extractYouTubeVideoId E (url context)
    end in
  match candidate with
  | Some c => if String.eqb (trim E c) "" then None else Some (trim E c)
  | None => None
  end.

(** The two early returns, lines 40 and 49. *)
Definition notTried : ProviderResult :=
  {| text := None; source := None; metadata := None;
     attemptedProviders := []; notes := None |}.

Definition fetchTranscript : M (S := State E) ProviderResult :=
  if bool_decide (mode = ModeYtDlp) && negb (truthy (ytDlpPath options)) then
    throw (ThrownError {| message := "Missing YT_DLP_PATH for --youtube yt-dlp" |})
  else if bool_decide (mode = ModeYtDlp) && negb hasYtDlpCredentials then
    throw (ThrownError
             {| message := "Missing OPENAI_API_KEY or FAL_KEY for --youtube yt-dlp" |})
  else
    ifTruthy (html context)
      (λ pageHtml,
         match effectiveVideoId with
         | None => ret notTried
         | Some videoId => webStage pageHtml videoId
         end)
      (ret notTried).
End Resolver.

(** In a run from the world [w], the two web providers yield no text and
    leave the world [w']: the transcript endpoint, when the page carries
    its configuration, and then the caption tracks. *)
Definition webYieldsNoText {E : Env} (context : ProviderContext) (pageHtml videoId : string)
    (w w' : World E) : Prop :=
  ∃ w1,
    match extractYoutubeiTranscriptConfig E pageHtml with
    | Some config =>
        ∃ transcript,
          fetchTranscriptFromTranscriptEndpoint E config (url context) w
          = (Resolves transcript, w1)
          ∧ truthy transcript = false
    | None => w1 = w
    end
    ∧ ∃ captionTranscript,
        fetchTranscriptFromCaptionTracks E pageHtml (url context) videoId w1
        = (Resolves captionTranscript, w')
        ∧ truthy captionTranscript = false.

(** A world for examples: the watch page carries no transcript
    configuration and no provider finds a transcript. *)
Definition silentEnv : Env :=
  {| World := unit;
     YoutubeiConfig := unit;
     trim := λ s, s;
     normalizeTranscriptText := λ s, s;
     extractYouTubeVideoId := λ _, Some "abcdefghijk";
     extractYoutubeiTranscriptConfig := λ _, None;
     fetchTranscriptFromTranscriptEndpoint := λ _ _ w, (Resolves None, w);
     fetchTranscriptFromCaptionTracks := λ _ _ _ w, (Resolves None, w);
     fetchTranscriptWithApify := λ _ _ w, (Resolves None, w);
     fetchTranscriptWithYtDlp := λ _ _ _ _ w,
       (Resolves {| ytText := None; ytProvider := None; ytError := None; ytNotes := [] |}, w) |}.

Definition watchPage : ProviderContext :=
  {| url := "https://www.youtube.com/watch?v=abcdefghijk";
     html := Some "<html></html>";
     resourceKey := Some "abcdefghijk" |}.

Definition optionsFor (mode : YoutubeTranscriptMode) : ProviderFetchOptions :=
  {| youtubeTranscriptMode := mode; ytDlpPath := None; openaiApiKey := None;
     falApiKey := None; apifyApiToken := None |}.

Definition start : State silentEnv := Build_State silentEnv tt [].

(** **** Notions used to state further properties of the resolver *)

(** The provider a call belongs to. *)
Definition callSource (c : Call) : TranscriptSource :=
  match c with
  | CallTranscriptEndpoint _ => SrcYoutubei
  | CallCaptionTracks _ _ => SrcCaptionTracks
  | CallApify _ _ => SrcApify
  | CallYtDlp _ => SrcYtDlp
  end.

(** The providers a mode makes eligible. *)
Definition modeAllows (mode : YoutubeTranscriptMode) (src : TranscriptSource) : bool :=
  match mode, src with
  | ModeAuto, _ => true
  | ModeWeb, (SrcYoutubei | SrcCaptionTracks) => true
  | ModeApify, SrcApify => true
  | ModeYtDlp, SrcYtDlp => true
  | _, _ => false
  end.

(** How [text], [source] and the end of [attemptedProviders] go together
    in a result. *)
Definition resultShape (r : ProviderResult) : Prop :=
  match text r with
  | Some _ =>
      ∃ src, source r = Some src ∧ src ≠ SrcUnavailable
             ∧ last (attemptedProviders r) = Some src
  | None =>
      (source r = None ∧ attemptedProviders r = [])
      ∨ (source r = Some SrcUnavailable
         ∧ last (attemptedProviders r) = Some SrcUnavailable)
  end.

(** What a block of the chain guarantees, started with [attempted]
    recorded: the calls it adds are eligible for the mode, and a returned
    result records, after [attempted], exactly the providers called, in
    order, closed by [unavailable] when no text was found. *)
Definition blockOk {E : Env} (options : ProviderFetchOptions)
    (attempted : list TranscriptSource) (m : M (S := State E) ProviderResult) : Prop :=
  ∀ s o s', m s = (o, s') →
    ∃ cs, calls s' = calls s ++ cs
      ∧ Forall (λ c, modeAllows (youtubeTranscriptMode options) (callSource c) = true) cs
      ∧ ∀ r, o = Returned r →
          ∃ att, attemptedProviders r = attempted ++ att
            ∧ filter (λ src, src ≠ SrcUnavailable) att = callSource <$> cs
            ∧ match text r with
              | Some _ => ∃ src, source r = Some src ∧ src ≠ SrcUnavailable
                                 ∧ last att = Some src
              | None => source r = Some SrcUnavailable ∧ last att = Some SrcUnavailable
              end.

(** Every provider promise resolves: no provider rejects. *)
Definition providersResolve (E : Env) : Prop :=
  (∀ config target w, ∃ a w',
      fetchTranscriptFromTranscriptEndpoint E config target w = (Resolves a, w'))
  ∧ (∀ pageHtml target videoId w, ∃ a w',
      fetchTranscriptFromCaptionTracks E pageHtml target videoId w = (Resolves a, w'))
  ∧ (∀ token target w, ∃ a w', fetchTranscriptWithApify E token target w = (Resolves a, w'))
  ∧ (∀ path openai fal target w, ∃ a w',
      fetchTranscriptWithYtDlp E path openai fal target w = (Resolves a, w')).

(** A scripted world for examples: the page carries a transcript
    configuration or not, and each provider resolves to a fixed answer. *)
Definition scriptedEnv (configured : bool) (endpoint captions apify : option string)
    (ytDlp : YtDlpResult) : Env :=
  {| World := unit;
     YoutubeiConfig := unit;
     trim := λ s, s;
     normalizeTranscriptText := λ s, s;
     extractYouTubeVideoId := λ _, Some "abcdefghijk";
     extractYoutubeiTranscriptConfig := λ _, if configured then Some tt else None;
     fetchTranscriptFromTranscriptEndpoint := λ _ _ w, (Resolves endpoint, w);
     fetchTranscriptFromCaptionTracks := λ _ _ _ w, (Resolves captions, w);
     fetchTranscriptWithApify := λ _ _ w, (Resolves apify, w);
     fetchTranscriptWithYtDlp := λ _ _ _ _ w, (Resolves ytDlp, w) |}.

Definition ytDlpFailure : YtDlpResult :=
  {| ytText := None; ytProvider := Some Whisper.OpenAi;
     ytError := Some {| message := "OpenAI transcription failed: HTTP 500" |};
     ytNotes := ["yt-dlp: downloaded audio"] |}.

Definition ytDlpOptions (mode : YoutubeTranscriptMode) : ProviderFetchOptions :=
  {| youtubeTranscriptMode := mode; ytDlpPath := Some "/usr/bin/yt-dlp";
     openaiApiKey := Some "sk-test"; falApiKey := None; apifyApiToken := None |}.

(** Every provider call a run of [m] makes satisfies [P]. *)
Definition callsOnly {E : Env} {A} (P : Call → Prop) (m : M (S := State E) A) : Prop :=
  ∀ s, ∃ cs, calls (m s).2 = calls s ++ cs ∧ Forall P cs.

(** A run that starts in the world [w] with an empty call log. *)
Definition fresh (E : Env) (w : World E) : State E := {| world := w; calls := [] |}.

(** The page carries the endpoint's configuration; only the caption
    tracks yield text. *)
Definition captionsEnv : Env := scriptedEnv true None (Some "captions") None ytDlpFailure.

(** The transcript endpoint yields text. *)
Definition endpointEnv : Env := scriptedEnv true (Some "hello") None None ytDlpFailure.

(** No web provider yields text and the yt-dlp transcription fails. *)
Definition failingEnv : Env := scriptedEnv false None None None ytDlpFailure.

End YouTube.

(** ** Transcript resolution for a link
    ([src/content/link-preview/transcript/index.ts]) *)

Module LinkPreview.
Import Js YouTube.
Local Open Scope js_scope.

(** One code unit in ASCII lower case.  Under the [i] flag of a pattern
    without the [u] flag, an ASCII letter of the pattern matches only the
    two ASCII forms of this letter. *)
Definition lowerAscii (c : ascii) : ascii :=
  let n := nat_of_ascii c in
  if (65 <=? n)%nat && (n <=? 90)%nat then ascii_of_nat (n + 32) else c.

Fixpoint lower (s : string) : string :=
  match s with
  | EmptyString => EmptyString
  | String c s' => String (lowerAscii c) (lower s')
  end.

(** [YOUTUBE_URL_PATTERN.test(url)] for [/youtube\.com|youtu\.be/i]
    ([providers/youtube.ts], line 17). *)
Definition YOUTUBE_URL_PATTERN (s : string) : bool :=
  Whisper.includes (lower s) "youtube.com" || Whisper.includes (lower s) "youtu.be".

(** [canHandle] of [providers/youtube.ts], line 19. *)
Definition canHandleYoutube (context : ProviderContext) : bool :=
  YOUTUBE_URL_PATTERN (url context).

Record ProviderModule {E : Env} : Type := {
  id : string;
  canHandle : ProviderContext → bool;
  fetchTranscript : ProviderContext → ProviderFetchOptions → M (S := State E) ProviderResult;
}.
Arguments ProviderModule : clear implicits.

Record TranscriptDiagnostics : Type := {
  attemptedProviders : list TranscriptSource;
  notes : option string;
  provider : option TranscriptSource;
  textProvided : bool;
}.

Record TranscriptResolution : Type := {
  text : option string;
  source : option TranscriptSource;
  diagnostics : TranscriptDiagnostics;
}.

(** The members of [LinkPreviewDeps] the resolver passes on, [fetch]
    apart, which is part of the world. *)
Record LinkPreviewDeps : Type := {
  apifyApiToken : option string;
}.

Definition GENERIC_PROVIDER_ID : string := "generic".

(** The podcast and the generic provider and [isYouTubeUrl] come from
    modules outside this file; the sources their results name are not
    among the members of [TranscriptSource] modelled here, and the
    properties below are about links the YouTube provider handles. *)
Section Resolve.
Context {E : Env}.
Variable isYouTubeUrl : string → bool.
Variables canHandlePodcast canHandleGeneric : ProviderContext → bool.
Variables fetchPodcast fetchGeneric :
  ProviderContext → ProviderFetchOptions → M (S := State E) ProviderResult.

(** Lines 30-34. *)
Definition PROVIDERS : list (ProviderModule E) :=
  [ {| id := "youtube"; canHandle := canHandleYoutube;
       fetchTranscript := YouTube.fetchTranscript |};
    {| id := "podcast"; canHandle := canHandlePodcast; fetchTranscript := fetchPodcast |};
    {| id := "generic"; canHandle := canHandleGeneric; fetchTranscript := fetchGeneric |} ].

(** Lines 70-75. *)
Definition extractResourceKey (url : string) : option string :=
  if isYouTubeUrl url then extractYouTubeVideoId E url else None.

(** Lines 77-92. *)
Definition selectProvider (context : ProviderContext) : M (S := State E) (ProviderModule E) :=
  let genericProviderModule :=
    List.find (λ provider, String.eqb (id provider) GENERIC_PROVIDER_ID) PROVIDERS in
  let specializedProvider :=
    List.find
      (λ provider,
         negb (String.eqb (id provider) GENERIC_PROVIDER_ID) && canHandle provider context)
      PROVIDERS in
  match specializedProvider with
  | Some provider => ret provider
  | None =>
      match genericProviderModule with
      | Some provider => ret provider
      | None =>
          throw (ThrownError {| message := "Generic transcript provider is not registered" |})
      end
  end.

(** Lines 94-98. *)
Definition executeProvider (provider : ProviderModule E) (context : ProviderContext)
    (options : ProviderFetchOptions) : M (S := State E) ProviderResult :=
  fetchTranscript provider context options.

(** Lines 37-68.  The options handed to the provider have three members:
    [fetch], [apifyApiToken] and [youtubeTranscriptMode]. *)
Definition resolveTranscriptForLink (url : string) (html : option string)
    (deps : LinkPreviewDeps) (youtubeTranscriptMode : option YoutubeTranscriptMode)
    : M (S := State E) TranscriptResolution :=
  let normalizedUrl := trim E url in
  let resourceKey := extractResourceKey normalizedUrl in
  let baseContext :=
    {| url := normalizedUrl; html := html; resourceKey := resourceKey |} in
  let* provider := selectProvider baseContext in
  let* providerResult :=
    executeProvider provider baseContext
      {| YouTube.apifyApiToken := apifyApiToken deps;
         YouTube.youtubeTranscriptMode := default ModeAuto youtubeTranscriptMode;
         ytDlpPath := None; openaiApiKey := None; falApiKey := None |} in
  ret {| text := YouTube.text providerResult;
         source := YouTube.source providerResult;
         diagnostics :=
           {| attemptedProviders := YouTube.attemptedProviders providerResult;
              notes := None;
              provider := YouTube.source providerResult;
              textProvided :=
                match YouTube.text providerResult with
                | Some t => negb (String.eqb t "")
                | None => false
                end |} |}.
End Resolve.

(** **** Notions used to state the properties of the link resolver *)

(** The context, the options and the resolution that
    [resolveTranscriptForLink] builds. *)
Definition linkContext {E : Env} (isYouTubeUrl : string → bool) (url : string)
    (html : option string) : ProviderContext :=
  {| url := trim E url; html := html;
     resourceKey := extractResourceKey (E := E) isYouTubeUrl (trim E url) |}.

Definition linkOptions (deps : LinkPreviewDeps) (mode : option YoutubeTranscriptMode)
    : ProviderFetchOptions :=
  {| YouTube.apifyApiToken := apifyApiToken deps;
     YouTube.youtubeTranscriptMode := default ModeAuto mode;
     ytDlpPath := None; openaiApiKey := None; falApiKey := None |}.

Definition resolution (providerResult : ProviderResult) : TranscriptResolution :=
  {| text := YouTube.text providerResult;
     source := YouTube.source providerResult;
     diagnostics :=
       {| attemptedProviders := YouTube.attemptedProviders providerResult;
          notes := None;
          provider := YouTube.source providerResult;
          textProvided :=
            match YouTube.text providerResult with
            | Some t => negb (String.eqb t "")
            | None => false
            end |} |}.

(** A link for examples, in capitals. *)
Definition shoutedLink : string := "HTTPS://WWW.YOUTUBE.COM/watch?v=abcdefghijk".

(** Other providers for examples: they handle nothing and find nothing. *)
Definition handlesNothing : ProviderContext → bool := λ _, false.

Definition findsNothing {E : Env}
    : ProviderContext → ProviderFetchOptions → M (S := State E) ProviderResult :=
  λ _ _, ret notTried.

End LinkPreview.

(** * Properties *)

Module StreamingFacts.
Import Streaming.

Example merge_cumulative :
  mergeAll [] [lit "Hello"; lit "Hello world"; lit "Hello world!"] = lit "Hello world!".
Proof. vm_compute. reflexivity. Qed.

Example merge_deltas :
  mergeAll [] [lit "Hello "; lit "world"; lit "!"] = lit "Hello world!".
Proof. vm_compute. reflexivity. Qed.

Example merge_mixed :
  mergeAll [] [lit "Hello "; lit "world"; lit "Hello world!!"] = lit "Hello world!!".
Proof. vm_compute. reflexivity. Qed.


(** *** Line-ending normalization *)

Lemma normalize_no_CR (s : jsstring) : CR ∉ normalizeStreamText s.
Proof.
  induction s as [s IH] using (induction_ltof1 _ (@length codeunit)).
  unfold ltof in IH.
  destruct s as [|c rest]; simpl; [apply not_elem_of_nil|].
  destruct (N.eqb_spec c CR) as [->|Hc].
  - apply not_elem_of_cons; split; [discriminate|].
    destruct rest as [|c' rest']; [apply not_elem_of_nil|].
    destruct (c' =? LF)%N; apply IH; simpl; lia.
  - apply not_elem_of_cons; split; [congruence|]. apply IH; simpl; lia.
Qed.

Lemma normalize_id (s : jsstring) : CR ∉ s → normalizeStreamText s = s.
Proof.
  induction s as [|c rest IH]; simpl; [done|].
  intros [Hc Hrest]%not_elem_of_cons.
  destruct (N.eqb_spec c CR) as [->|_]; [done|]. by rewrite IH.
Qed.

Lemma normalize_idem (s : jsstring) :
  normalizeStreamText (normalizeStreamText s) = normalizeStreamText s.
Proof. apply normalize_id, normalize_no_CR. Qed.

Lemma normalize_nil (s : jsstring) : normalizeStreamText s = [] ↔ s = [].
Proof.
  split; [|by intros ->].
  destruct s as [|c rest]; [done|]. simpl. by destruct (c =? CR)%N.
Qed.

Lemma normalize_CR_LF (r : jsstring) :
  normalizeStreamText (CR :: LF :: r) = LF :: normalizeStreamText r.
Proof. done. Qed.

Lemma normalize_CR_other (c : codeunit) (r : jsstring) :
  c ≠ LF → normalizeStreamText (CR :: c :: r) = LF :: normalizeStreamText (c :: r).
Proof.
  intros Hc. change (normalizeStreamText (CR :: c :: r)) with
    (LF :: if (c =? LF)%N then normalizeStreamText r else normalizeStreamText (c :: r)).
  by destruct (N.eqb_spec c LF).
Qed.

Lemma normalize_other (c : codeunit) (r : jsstring) :
  c ≠ CR → normalizeStreamText (c :: r) = c :: normalizeStreamText r.
Proof.
  intros Hc. change (normalizeStreamText (c :: r)) with
    (if (c =? CR)%N then normalizeStreamText (CR :: r) else c :: normalizeStreamText r).
  - by destruct (N.eqb_spec c CR).
Qed.

Lemma afterJoin_cons (x c : codeunit) (p s : jsstring) :
  afterJoin (x :: c :: p) s = afterJoin (c :: p) s.
Proof. done. Qed.

Lemma normalize_app (p s : jsstring) :
  normalizeStreamText (p ++ s) = normalizeStreamText p ++ normalizeStreamText (afterJoin p s).
Proof.
  induction p as [p IH] using (induction_ltof1 _ (@length codeunit)).
  unfold ltof in IH.
  destruct p as [|c [|c' rest]].
  - done.
  - unfold afterJoin. simpl.
    destruct (N.eqb_spec c CR) as [->|Hc]; simpl.
    + destruct s as [|c' s']; [done|]. by destruct (c' =? LF)%N.
    + by destruct s.
  - rewrite afterJoin_cons.
    change ((c :: c' :: rest) ++ s) with (c :: (c' :: rest) ++ s).
    destruct (decide (c = CR)) as [->|Hc].
    + destruct (decide (c' = LF)) as [->|Hc'].
      * change (CR :: (LF :: rest) ++ s) with (CR :: LF :: (rest ++ s)).
        rewrite !normalize_CR_LF, (IH rest) by (simpl; lia).
        simpl. do 2 f_equal.
        destruct rest as [|r rest']; [|done].
        unfold afterJoin. simpl. by destruct s.
      * change (CR :: (c' :: rest) ++ s) with (CR :: c' :: (rest ++ s)).
        rewrite !normalize_CR_other by done.
        change (c' :: rest ++ s) with ((c' :: rest) ++ s).
        by rewrite (IH (c' :: rest)) by (simpl; lia).
    + rewrite !normalize_other by done.
      by rewrite (IH (c' :: rest)) by (simpl; lia).
Qed.

Lemma normalize_prefix (p s : jsstring) :
  normalizeStreamText p `prefix_of` normalizeStreamText (p ++ s).
Proof. rewrite normalize_app. by apply prefix_app_r. Qed.

(** *** Prefix tests, the common-prefix scan and the overlap loop *)

Lemma startsWith_prefix (s p : jsstring) : startsWith s p = true ↔ p `prefix_of` s.
Proof.
  unfold startsWith. rewrite bool_decide_eq_true. split.
  - intros <-. apply prefix_take.
  - intros [k ->]. apply take_app_length.
Qed.

Lemma startsWith_not_prefix (s p : jsstring) : startsWith s p = false ↔ ¬ p `prefix_of` s.
Proof. rewrite <- startsWith_prefix. by destruct (startsWith s p). Qed.

Lemma commonPrefixScan_spec (a b : jsstring) (max : nat) :
  (max ≤ length a)%nat → (max ≤ length b)%nat →
  ∀ fuel i, (i + fuel = max)%nat → take i a = take i b →
  let L := commonPrefixScan a b max i fuel in
  (L ≤ max)%nat ∧ take L a = take L b ∧ ((L < max)%nat → a !! L ≠ b !! L).
Proof.
  intros Ha Hb. induction fuel as [|fuel IH]; intros i Hi Htake; simpl.
  - split; [lia|]. split; [done|lia].
  - rewrite bool_decide_eq_true_2 by lia.
    case_bool_decide as Heq.
    + apply IH; [lia|].
      destruct (lookup_lt_is_Some_2 a i) as [x Hx]; [lia|].
      assert (Hxb : b !! i = Some x) by (by rewrite <- Heq).
      by rewrite (take_S_r a i x Hx), (take_S_r b i x Hxb), Htake.
    + split; [lia|]. by split.
Qed.

Lemma commonPrefixLength_lcp (a b : jsstring) (limit : nat) :
  commonPrefixLength a b limit = lcpLength a b limit.
Proof.
  unfold commonPrefixLength, lcpLength.
  set (max := Nat.min (Nat.min (length a) (length b)) limit).
  destruct (commonPrefixScan_spec a b max ltac:(lia) ltac:(lia) max 0%nat)
    as (Hle & Htake & Hdiff); [lia|done|].
  set (L := commonPrefixScan a b max 0 max) in *.
  set (P := (max_prefix a b).2) in *.
  assert (length P ≤ length a)%nat by apply prefix_length, max_prefix_fst_prefix.
  assert (length P ≤ length b)%nat by apply prefix_length, max_prefix_snd_prefix.
  assert (HLP : (L ≤ length P)%nat).
  { assert (Hp : take L a `prefix_of` P).
    { apply max_prefix_max; [apply prefix_take|rewrite Htake; apply prefix_take]. }
    apply prefix_length in Hp. rewrite length_take in Hp. lia. }
  destruct (decide (L < max)%nat) as [Hlt|Hge]; [|lia].
  destruct (decide (L < length P)%nat) as [HltP|]; [|lia].
  exfalso. apply (Hdiff Hlt).
  transitivity (P !! L); [symmetry|]; apply prefix_lookup_lt; try done.
  - apply max_prefix_fst_prefix.
  - apply max_prefix_snd_prefix.
Qed.

Lemma overlapLoop_shape (prev chunk : jsstring) (len : nat) :
  ∃ k, (k ≤ len)%nat
       ∧ overlapLoop prev chunk len
         = {| next := prev ++ drop k chunk; appended := drop k chunk |}.
Proof.
  induction len as [|len (k & Hk & IH)]; simpl.
  - by exists 0%nat.
  - case_bool_decide; [by exists (S len)|]. exists k. split; [lia|done].
Qed.

Lemma overlapLoop_no_overlap (prev chunk : jsstring) (len : nat) :
  ¬ Exists (λ k, sliceLast k prev = take k chunk) (seq 1 len) →
  overlapLoop prev chunk len = {| next := prev ++ chunk; appended := chunk |}.
Proof.
  induction len as [|len IH]; [done|].
  rewrite seq_S, Exists_app, Exists_cons. simpl. intros Hno.
  rewrite bool_decide_eq_false_2 by tauto. apply IH. tauto.
Qed.

(** The result of a call whose chunk is not empty is computed from the
    normalized inputs alone. *)
Lemma mergeStreamingChunk_unfold (previous chunk : jsstring) :
  chunk ≠ [] →
  mergeStreamingChunk previous chunk
  = mergeStreamingChunk (normalizeStreamText previous) (normalizeStreamText chunk).
Proof.
  intros Hne. unfold mergeStreamingChunk.
  rewrite !normalize_idem, (bool_decide_eq_false_2 (chunk = [])) by done.
  by rewrite (bool_decide_eq_false_2 (normalizeStreamText chunk = []))
    by (by rewrite normalize_nil).
Qed.

Lemma mergeStreamingChunk_cases (previous chunk : jsstring) :
  let r := mergeStreamingChunk previous chunk in
  let prev := normalizeStreamText previous in
  let nextChunk := normalizeStreamText chunk in
  chunk ≠ [] →
  (next r = nextChunk ∨ next r = prev ∨ ∃ k, next r = prev ++ drop k nextChunk)
  ∧ (appended r = [] ∨ ∃ k, appended r = drop k nextChunk).
Proof.
  intros r prev nextChunk Hne. subst r. unfold mergeStreamingChunk.
  fold prev nextChunk. rewrite (bool_decide_eq_false_2 (chunk = [])) by done.
  destruct (overlapLoop_shape prev nextChunk
              (Nat.min (Nat.min (length prev) (length nextChunk)) 2048))
    as (k & _ & Hloop).
  repeat (case_bool_decide || destruct (startsWith _ _)); simpl;
    rewrite ?Hloop; simpl;
    try (split; [by eauto|]); eauto.
  right. by exists 0%nat.
Qed.

(** ** The claims about the stream reconciler *)

(** C1 (as amended).  For every pair of strings (previous, suffix),
    [mergeStreamingChunk(previous, previous + suffix)] returns [next] equal
    to the line-ending-normalized form of [previous + suffix], and
    [appended] equal to the part of that text after the normalized
    [previous]; when neither string contains a carriage return these are
    [previous + suffix] and [suffix] themselves. *)
Theorem mergeStreamingChunk_extension (previous suffix : jsstring) :
  let r := mergeStreamingChunk previous (previous ++ suffix) in
  next r = normalizeStreamText (previous ++ suffix)
  ∧ normalizeStreamText previous ++ appended r = next r
  ∧ (CR ∉ previous → CR ∉ suffix →
     next r = previous ++ suffix ∧ appended r = suffix).
Proof.
  intros r.
  assert (Hmain : next r = normalizeStreamText (previous ++ suffix)
                  ∧ normalizeStreamText previous ++ appended r = next r).
  { subst r. unfold mergeStreamingChunk. case_bool_decide as Hnil.
    - apply app_nil in Hnil as [-> ->]. done.
    - case_bool_decide as Hprev; [by rewrite Hprev|].
      pose proof (normalize_prefix previous suffix) as Hpre.
      rewrite (proj2 (startsWith_prefix _ _) Hpre). simpl. split; [done|].
      destruct Hpre as [k ->]. by rewrite drop_app_length. }
  destruct Hmain as [Hnext Happ]. split; [done|]. split; [done|].
  intros Hp Hs.
  assert (Hps : CR ∉ previous ++ suffix) by (apply not_elem_of_app; by split).
  rewrite Hnext in Happ |- *.
  rewrite (normalize_id _ Hps) in Happ |- *.
  rewrite (normalize_id _ Hp) in Happ.
  split; [done|]. by apply app_inv_head in Happ.
Qed.

Lemma mergeStreamingChunk_extension_witness :
  next (mergeStreamingChunk (lit "Hello") (lit "Hello" ++ lit " world")) = lit "Hello world"
  ∧ appended (mergeStreamingChunk (lit "Hello") (lit "Hello" ++ lit " world")) = lit " world".
Proof.
  apply (mergeStreamingChunk_extension (lit "Hello") (lit " world"));
    apply (bool_decide_unpack _); vm_compute; exact I.
Defined.

(** C1 as stated fails on a Windows line ending: after ["ab"], the chunk
    ["ab\r\nc"] yields [next = "ab\nc"] and [appended = "\nc"]. *)
Lemma mergeStreamingChunk_extension_counterexample :
  ¬ (let previous := lit "ab" in
     let suffix := CR :: LF :: lit "c" in
     next (mergeStreamingChunk previous (previous ++ suffix)) = previous ++ suffix
     ∧ appended (mergeStreamingChunk previous (previous ++ suffix)) = suffix).
Proof. vm_compute. intros [H _]. discriminate H. Qed.

(** C2 (as amended).  [mergeStreamingChunk] normalizes the line endings of
    both inputs and, for a non-empty chunk, builds its result from the
    normalized forms: the result is that of merging the normalized inputs,
    and neither [next] nor [appended] contains a carriage return.  Only for
    an empty chunk is [previous] returned as it is, with nothing
    appended. *)
Theorem mergeStreamingChunk_returns_normalized (previous chunk : jsstring) :
  (chunk = [] →
   mergeStreamingChunk previous chunk = {| next := previous; appended := [] |})
  ∧ (chunk ≠ [] →
     mergeStreamingChunk previous chunk
     = mergeStreamingChunk (normalizeStreamText previous) (normalizeStreamText chunk)
     ∧ (CR ∉ next (mergeStreamingChunk previous chunk))
     ∧ (CR ∉ appended (mergeStreamingChunk previous chunk))).
Proof.
  split; [by intros ->|]. intros Hne.
  split; [by apply mergeStreamingChunk_unfold|].
  pose proof (normalize_no_CR previous) as Hp.
  pose proof (normalize_no_CR chunk) as Hc.
  assert (Hdrop : ∀ k, CR ∉ drop k (normalizeStreamText chunk)).
  { intros k Hin. by apply Hc, (subseteq_drop k). }
  destruct (mergeStreamingChunk_cases previous chunk Hne) as [Hn Ha]. split.
  - destruct Hn as [->|[->|[k ->]]]; [done|done|].
    apply not_elem_of_app. auto.
  - destruct Ha as [->|[k ->]]; [apply not_elem_of_nil|auto].
Qed.

Lemma mergeStreamingChunk_returns_normalized_witness :
  mergeStreamingChunk (lit "ab") [] = {| next := lit "ab"; appended := [] |}
  ∧ (CR ∉ next (mergeStreamingChunk (lit "ab") (CR :: LF :: lit "c"))).
Proof.
  split.
  - apply (proj1 (mergeStreamingChunk_returns_normalized (lit "ab") [])).
    reflexivity.
  - apply (proj2 (mergeStreamingChunk_returns_normalized (lit "ab") (CR :: LF :: lit "c"))).
    discriminate.
Defined.

(** C2 as stated fails: with nothing accumulated, the chunk ["a\r\nb"]
    comes back as ["a\nb"], which is neither of the inputs nor the
    accumulated text followed by a tail of the chunk. *)
Lemma mergeStreamingChunk_preserves_content_counterexample :
  ¬ (let previous := [] in
     let chunk := lit "a" ++ CR :: LF :: lit "b" in
     let r := mergeStreamingChunk previous chunk in
     next r = previous ∨ next r = chunk ∨ ∃ k, next r = previous ++ drop k chunk).
Proof.
  vm_compute. intros [H|[H|[k H]]]; try discriminate H.
  do 5 (destruct k as [|k]; [discriminate H|]). discriminate H.
Qed.

(** C5 (as amended).  Write [prev] and [nextChunk] for the
    line-ending-normalized [previous] and [chunk].  When [nextChunk] is at
    least as long as [prev] and neither is a prefix of the other,
    [mergeStreamingChunk] computes the length of their longest common
    prefix, cut off at 4096 code units, and, exactly when that length is
    positive and at least the larger of ([prev]'s length minus 64) and (90%
    of [prev]'s length, rounded down), returns [next = nextChunk] and
    [appended] = the part of [nextChunk] past the common prefix. *)
Theorem mergeStreamingChunk_near_prefix (previous chunk : jsstring) :
  let prev := normalizeStreamText previous in
  let nextChunk := normalizeStreamText chunk in
  let L := Nat.min (length (max_prefix prev nextChunk).2) 4096 in
  (length prev ≤ length nextChunk)%nat →
  ¬ prev `prefix_of` nextChunk → ¬ nextChunk `prefix_of` prev →
  commonPrefixLength prev nextChunk 4096 = L
  ∧ ((0 < L)%nat
     ∧ Z.max (Z.of_nat (length prev) - 64) (9 * Z.of_nat (length prev) / 10) ≤ Z.of_nat L
     ↔ mergeStreamingChunk previous chunk
       = {| next := nextChunk; appended := drop L nextChunk |}).
Proof.
  intros prev nextChunk L Hlen Hnp1 Hnp2.
  split; [apply commonPrefixLength_lcp|].
  assert (Hchunk : chunk ≠ []).
  { intros ->. apply Hnp2, prefix_nil. }
  assert (Hprev : prev ≠ []).
  { intros Heq. apply Hnp1. rewrite Heq. apply prefix_nil. }
  unfold mergeStreamingChunk. fold prev nextChunk.
  rewrite (bool_decide_eq_false_2 (chunk = [])) by done.
  rewrite (bool_decide_eq_false_2 (prev = [])) by done.
  rewrite (proj2 (startsWith_not_prefix _ _) Hnp1).
  rewrite (proj2 (startsWith_not_prefix _ _) Hnp2).
  rewrite (bool_decide_eq_true_2 _ Hlen).
  rewrite commonPrefixLength_lcp. unfold lcpLength, minPrefix. fold L.
  destruct (overlapLoop_shape prev nextChunk
              (Nat.min (Nat.min (length prev) (length nextChunk)) 2048))
    as (k & _ & ->).
  assert (Hloop : {| next := prev ++ drop k nextChunk; appended := drop k nextChunk |}
                  ≠ {| next := nextChunk; appended := drop L nextChunk |}).
  { intros [= Heq _]. apply Hnp1. by exists (drop k nextChunk). }
  repeat case_bool_decide; split; try done; try tauto.
Qed.

Lemma mergeStreamingChunk_near_prefix_witness :
  mergeStreamingChunk (lit "abcdefghij") (lit "abcdefghiX")
  = {| next := lit "abcdefghiX"; appended := lit "X" |}.
Proof.
  apply (mergeStreamingChunk_near_prefix (lit "abcdefghij") (lit "abcdefghiX")).
  - vm_compute. lia.
  - apply (bool_decide_unpack _). vm_compute. exact I.
  - apply (bool_decide_unpack _). vm_compute. exact I.
  - vm_compute. split; [lia|discriminate].
Defined.

(** C5 as stated fails when a line ending is involved: for
    [previous = "a\rbcdefghi"] and [chunk = "a\rbcdefghX"] the common
    prefix has 9 of 10 code units, so the claim gives [next = chunk], but
    the code returns the normalized ["a\nbcdefghX"]. *)
Lemma mergeStreamingChunk_near_prefix_counterexample :
  ¬ (let previous := lit "a" ++ CR :: lit "bcdefghi" in
     let chunk := lit "a" ++ CR :: lit "bcdefghX" in
     let L := Nat.min (length (max_prefix previous chunk).2) 4096 in
     (length previous ≤ length chunk)%nat →
     ¬ previous `prefix_of` chunk → ¬ chunk `prefix_of` previous →
     (9 * Z.of_nat (length previous) ≤ 10 * Z.of_nat L
      ∧ Z.of_nat (length previous) - 64 ≤ Z.of_nat L
      ↔ mergeStreamingChunk previous chunk
        = {| next := chunk; appended := drop L chunk |})).
Proof.
  intros H. cbv zeta in H.
  assert (Hres : mergeStreamingChunk (lit "a" ++ CR :: lit "bcdefghi")
                   (lit "a" ++ CR :: lit "bcdefghX")
                 = {| next := lit "a" ++ LF :: lit "bcdefghX"; appended := lit "X" |})
    by (vm_compute; reflexivity).
  rewrite Hres in H.
  destruct H as [H _].
  - vm_compute. lia.
  - apply (bool_decide_unpack _). vm_compute. exact I.
  - apply (bool_decide_unpack _). vm_compute. exact I.
  - assert (Hfalse : {| next := lit "a" ++ LF :: lit "bcdefghX"; appended := lit "X" |}
                     = {| next := lit "a" ++ CR :: lit "bcdefghX";
                          appended := drop
                            (Nat.min (length (max_prefix (lit "a" ++ CR :: lit "bcdefghi")
                                       (lit "a" ++ CR :: lit "bcdefghX")).2) 4096)
                            (lit "a" ++ CR :: lit "bcdefghX") |}).
    { apply H. vm_compute. split; discriminate. }
    vm_compute in Hfalse. discriminate Hfalse.
Qed.

(** The threshold is rounded down, and an empty common prefix never
    counts: two further behaviours of the same branch. *)
Example near_prefix_rounds_down :
  mergeStreamingChunk (lit "abcde") (lit "abcdX")
  = {| next := lit "abcdX"; appended := lit "X" |}.
Proof. vm_compute. reflexivity. Qed.

Example near_prefix_needs_common_prefix :
  mergeStreamingChunk (lit "a") (lit "b") = {| next := lit "ab"; appended := lit "b" |}.
Proof. vm_compute. reflexivity. Qed.

(** *** Pure delta streams *)

Lemma mergeStreamingChunk_independent (acc d : jsstring) :
  CR ∉ acc → CR ∉ d → d = [] ∨ acc = [] ∨ independent acc d →
  next (mergeStreamingChunk acc d) = acc ++ d.
Proof.
  intros Hacc Hd Hcases. unfold mergeStreamingChunk.
  rewrite (normalize_id _ Hacc), (normalize_id _ Hd).
  case_bool_decide as Hdnil; [subst; by rewrite app_nil_r|].
  case_bool_decide as Haccnil; [by subst|].
  destruct Hcases as [?|[?|(Hp1 & Hp2 & Hnear & Hover)]]; [done|done|].
  rewrite (proj2 (startsWith_not_prefix _ _) Hp1).
  rewrite (proj2 (startsWith_not_prefix _ _) Hp2).
  rewrite (overlapLoop_no_overlap _ _ _ Hover), commonPrefixLength_lcp.
  repeat case_bool_decide; try done.
  exfalso. apply Hnear. by repeat split.
Qed.

Lemma mergeAll_pure_deltas (deltas : list jsstring) :
  ∀ acc, CR ∉ acc → pureDeltaStream acc deltas →
         mergeAll acc deltas = acc ++ concat deltas.
Proof.
  induction deltas as [|d deltas IH]; intros acc Hacc Hpure; simpl.
  - by rewrite app_nil_r.
  - destruct Hpure as (Hd & Hcases & Hrest).
    rewrite mergeStreamingChunk_independent by done.
    rewrite IH, <- ?app_assoc; [done| |done].
    apply not_elem_of_app. by split.
Qed.

(** C6 (as amended).  For every sequence of delta chunks containing no
    carriage return, in which every non-empty chunk after the first text is
    independent of the text accumulated before it (neither is a prefix of
    the other, the chunk is not a near-resend of the accumulated text, and
    no non-empty suffix of the accumulated text of at most 2048 code units
    is a prefix of the chunk), folding [mergeStreamingChunk] over the
    sequence from the empty string yields the concatenation of the
    chunks. *)
Theorem mergeAll_pure_delta_stream (deltas : list jsstring) :
  pureDeltaStream [] deltas → mergeAll [] deltas = concat deltas.
Proof. intros H. by apply (mergeAll_pure_deltas deltas []); [apply not_elem_of_nil|]. Qed.

Lemma mergeAll_pure_delta_stream_witness :
  mergeAll [] [lit "Hello "; lit "world"; lit "!"]
  = concat [lit "Hello "; lit "world"; lit "!"].
Proof.
  apply (mergeAll_pure_delta_stream [lit "Hello "; lit "world"; lit "!"]).
  apply (bool_decide_unpack _). vm_compute. exact I.
Defined.

(** C6 as stated fails as soon as a delta repeats the text before it: the
    deltas ["ha"], ["ha"], ["!"] spell ["haha!"], but the second ["ha"] is
    taken for a resend and the merged text is ["ha!"]. *)
Lemma mergeAll_pure_delta_stream_counterexample :
  ¬ (let deltas := [lit "ha"; lit "ha"; lit "!"] in
     mergeAll [] deltas = concat deltas).
Proof. vm_compute. intros H. discriminate H. Qed.

End StreamingFacts.

Module YouTubeFacts.
Import Js YouTube.

Lemma ifTruthy_falsy {A} (s : option string) (f : string → A) (e : A) :
  truthy s = false → ifTruthy s f e = e.
Proof.
  unfold truthy, ifTruthy. destruct s as [v|]; [|done]. by destruct (String.eqb v "").
Qed.

Lemma await_calls {E : Env} {A} (c : Call) (f : World E → reply A * World E)
    (s s' : State E) (o : outcome A) :
  await c f s = (o, s') → calls s' = calls s ++ [c].
Proof. unfold await. destruct (f (world s)) as [[a|t] w]; by intros [= <- <-]. Qed.

(** The [yt-dlp] block and the final return keep what was recorded. *)
Lemma ytDlpStage_keeps {E : Env} (context : ProviderContext) (options : ProviderFetchOptions)
    (attempted : list TranscriptSource) (s s' : State E) (o : outcome ProviderResult) :
  ytDlpStage context options attempted s = (o, s') →
  (∀ c, c ∈ calls s → c ∈ calls s')
  ∧ ∀ r src, o = Returned r → src ∈ attempted → src ∈ attemptedProviders r.
Proof.
  unfold ytDlpStage, ret, throw. case_match.
  - unfold bind.
    destruct (await _ _ s) as [[y| |] s1] eqn:Hawait;
      pose proof (await_calls _ _ _ _ _ Hawait) as Hcalls.
    + unfold ifTruthy.
      intros Hrun. split.
      * intros c Hc.
        assert (Hs1 : c ∈ calls s1) by (rewrite Hcalls; apply elem_of_app; by left).
        repeat case_match; by injection Hrun as <- <-.
      * intros r src Ho Hsrc. subst o.
        repeat case_match; simplify_eq; simpl; rewrite ?elem_of_app; auto.
    + intros [= <- <-]. split; [|done].
      intros c Hc. rewrite Hcalls. apply elem_of_app. by left.
    + intros [= <- <-]. split; [|done].
      intros c Hc. rewrite Hcalls. apply elem_of_app. by left.
  - intros [= <- <-]. split; [done|].
    intros r src [= <-] Hsrc. simpl. apply elem_of_app. by left.
Qed.

(** In mode [auto] the [apify] block calls the provider and records it,
    whatever the token. *)
Lemma apifyStage_auto {E : Env} (context : ProviderContext) (options : ProviderFetchOptions)
    (attempted : list TranscriptSource) (s s' : State E) (o : outcome ProviderResult) :
  youtubeTranscriptMode options = ModeAuto →
  apifyStage context options attempted s = (o, s') →
  CallApify (apifyApiToken options) (url context) ∈ calls s'
  ∧ ∀ r, o = Returned r → SrcApify ∈ attemptedProviders r.
Proof.
  intros Hmode. unfold apifyStage, ret. rewrite Hmode. simpl. unfold bind.
  destruct (await _ _ s) as [[t| |] s1] eqn:Hawait;
    pose proof (await_calls _ _ _ _ _ Hawait) as Hcalls.
  - assert (Hin : CallApify (apifyApiToken options) (url context) ∈ calls s1).
    { rewrite Hcalls. apply elem_of_app. right. apply list_elem_of_singleton. done. }
    assert (Hsrc : SrcApify ∈ attempted ++ [SrcApify]).
    { apply elem_of_app. right. by apply list_elem_of_singleton. }
    unfold ifTruthy. intros Hrun.
    assert (Hnext : ytDlpStage context options (attempted ++ [SrcApify]) s1 = (o, s') →
                    CallApify (apifyApiToken options) (url context) ∈ calls s'
                    ∧ ∀ r, o = Returned r → SrcApify ∈ attemptedProviders r).
    { intros [Hc Ha]%ytDlpStage_keeps. split; [by apply Hc|]. intros r Ho. by eapply Ha. }
    destruct t as [v|]; [destruct (String.eqb v "")|]; [by apply Hnext| |by apply Hnext].
    injection Hrun as <- <-. split; [done|]. by intros r [= <-].
  - intros [= <- <-]. split; [|done].
    rewrite Hcalls. apply elem_of_app. right. by apply list_elem_of_singleton.
  - intros [= <- <-]. split; [|done].
    rewrite Hcalls. apply elem_of_app. right. by apply list_elem_of_singleton.
Qed.

(** In mode [auto], once [youtubei] (when the page configures it) and
    [captionTracks] have yielded no text, the [apify] block runs whatever
    the token: [fetchTranscriptWithApify] is called with the configured
    token, which may be null, and [apify] is in [attemptedProviders]. *)
Lemma fetchTranscript_auto_attempts_apify {E : Env} (context : ProviderContext)
    (options : ProviderFetchOptions) (pageHtml videoId : string)
    (s s' : State E) (w' : World E) (o : outcome ProviderResult) :
  youtubeTranscriptMode options = ModeAuto →
  html context = Some pageHtml → pageHtml ≠ "" →
  effectiveVideoId (E := E) context = Some videoId →
  webYieldsNoText context pageHtml videoId (world s) w' →
  fetchTranscript context options s = (o, s') →
  CallApify (apifyApiToken options) (url context) ∈ calls s'
  ∧ ∀ r, o = Returned r → SrcApify ∈ attemptedProviders r.
Proof.
  intros Hmode Hhtml Hne Hid (w1 & Hyt & t2 & Hcap & Ht2) Hrun.
  unfold fetchTranscript in Hrun. rewrite Hmode, Hhtml, Hid in Hrun. simpl in Hrun.
  apply String.eqb_neq in Hne. rewrite Hne in Hrun.
  unfold webStage in Hrun. rewrite Hmode in Hrun. simpl in Hrun.
  assert (Hrest : ∀ (s1 : State E) attempted,
    world s1 = w1 →
    captionTracksStage context options pageHtml videoId attempted s1 = (o, s') →
    CallApify (apifyApiToken options) (url context) ∈ calls s'
    ∧ ∀ r, o = Returned r → SrcApify ∈ attemptedProviders r).
  { intros s1 attempted Hw Hstage.
    unfold captionTracksStage, bind, await in Hstage.
    rewrite Hw, Hcap, (ifTruthy_falsy _ _ _ Ht2) in Hstage.
    by eapply apifyStage_auto. }
  destruct (extractYoutubeiTranscriptConfig E pageHtml) as [config|].
  - destruct Hyt as (t1 & Hendpoint & Ht1).
    unfold bind, await in Hrun.
    rewrite Hendpoint, (ifTruthy_falsy _ _ _ Ht1) in Hrun.
    eapply Hrest; [|exact Hrun]. done.
  - subst w1. eapply Hrest; [|exact Hrun]. done.
Qed.

(** C3 (a defect of the code).  The claim: in mode [auto], [apify] is
    attempted, and recorded in [attemptedProviders], only if an Apify
    token is configured.  The code: with no token, on a watch page without
    transcript configuration and without captions, [fetchTranscriptWithApify]
    is called with the null token and [apify] is recorded between
    [captionTracks] and [unavailable]. *)
Theorem fetchTranscript_auto_records_apify_without_token :
  apifyApiToken (optionsFor ModeAuto) = None
  ∧ fetchTranscript watchPage (optionsFor ModeAuto) start
    = (Returned
         {| text := None;
            source := Some SrcUnavailable;
            metadata := Some [("provider", Some "youtube");
                              ("reason", Some "no_transcript_available")];
            attemptedProviders := [SrcCaptionTracks; SrcApify; SrcUnavailable];
            notes := None |},
       Build_State silentEnv tt
         [CallCaptionTracks (url watchPage) "abcdefghijk";
          CallApify None (url watchPage)]).
Proof. split; reflexivity. Qed.

(** C4.  In mode [yt-dlp], when the yt-dlp binary path is missing, or
    both the OpenAI and the FAL key are, the call throws a configuration
    error naming what is missing, and the state is untouched: no provider
    was called and nothing happened in the world. *)
Theorem fetchTranscript_ytdlp_missing_configuration {E : Env} (context : ProviderContext)
    (options : ProviderFetchOptions) (s : State E) :
  youtubeTranscriptMode options = ModeYtDlp →
  truthy (ytDlpPath options) = false
  ∨ (truthy (openaiApiKey options) = false ∧ truthy (falApiKey options) = false) →
  ∃ msg,
    fetchTranscript context options s = (Threw (ThrownError {| message := msg |}), s)
    ∧ (msg = "Missing YT_DLP_PATH for --youtube yt-dlp"
       ∨ msg = "Missing OPENAI_API_KEY or FAL_KEY for --youtube yt-dlp").
Proof.
  intros Hmode Hmissing. unfold fetchTranscript, hasYtDlpCredentials. rewrite Hmode. simpl.
  destruct (truthy (ytDlpPath options)); simpl; [|by eauto].
  destruct Hmissing as [|[-> ->]]; [done|]. simpl. by eauto.
Qed.

Lemma fetchTranscript_ytdlp_missing_configuration_witness :
  ∃ msg,
    fetchTranscript watchPage (optionsFor ModeYtDlp) start
    = (Threw (ThrownError {| message := msg |}), start)
    ∧ (msg = "Missing YT_DLP_PATH for --youtube yt-dlp"
       ∨ msg = "Missing OPENAI_API_KEY or FAL_KEY for --youtube yt-dlp").
Proof.
  apply (fetchTranscript_ytdlp_missing_configuration watchPage (optionsFor ModeYtDlp) start).
  - reflexivity.
  - left. reflexivity.
Defined.

(** C10.  Whatever the mode, once the yt-dlp configuration checks have
    passed, a context whose [html] is null makes the resolver return
    [{ text: null, source: null }] with an empty [attemptedProviders] and
    without calling any provider, also when the context carries a video
    id. *)
Theorem fetchTranscript_without_html {E : Env} (context : ProviderContext)
    (options : ProviderFetchOptions) (s : State E) :
  ¬ (youtubeTranscriptMode options = ModeYtDlp
     ∧ (truthy (ytDlpPath options) = false ∨ hasYtDlpCredentials options = false)) →
  html context = None →
  fetchTranscript context options s
  = (Returned {| text := None; source := None; metadata := None;
                 attemptedProviders := []; notes := None |}, s).
Proof.
  intros Hchecks Hhtml. unfold fetchTranscript. rewrite Hhtml. simpl.
  destruct (decide (youtubeTranscriptMode options = ModeYtDlp)) as [Hmode|Hmode].
  - rewrite (bool_decide_eq_true_2 _ Hmode). simpl.
    destruct (truthy (ytDlpPath options)) eqn:Hpath; [|exfalso; by eauto].
    destruct (hasYtDlpCredentials options) eqn:Hcred; [done|exfalso; by eauto].
  - by rewrite (bool_decide_eq_false_2 _ Hmode).
Qed.

Lemma fetchTranscript_without_html_witness :
  fetchTranscript
    {| url := url watchPage; html := None; resourceKey := Some "abcdefghijk" |}
    (optionsFor ModeAuto) start
  = (Returned {| text := None; source := None; metadata := None;
                 attemptedProviders := []; notes := None |}, start).
Proof.
  apply (fetchTranscript_without_html
           {| url := url watchPage; html := None; resourceKey := Some "abcdefghijk" |}
           (optionsFor ModeAuto) start).
  - intros [Hmode _]. discriminate Hmode.
  - reflexivity.
Defined.

End YouTubeFacts.

Module WhisperFacts.
Import Js Whisper.
Local Open Scope js_scope.

(** *** A small program logic for the state monad *)
Section Spec.
Context {S : Type}.

Lemma spec_ret oof {A} (a : A) (P : A → Prop) : P a → spec oof (ret (S := S) a) P.
Proof. by intros Ha s. Qed.

Lemma spec_throw oof {A} (t : thrown) (P : A → Prop) :
  spec oof (throw (S := S) t) P.
Proof. by intros s. Qed.

Lemma spec_effect oof (f : S → S) : spec oof (effect f) (λ _, True).
Proof. by intros s. Qed.

Lemma spec_bind oof {A B} (m : M (S := S) A) (k : A → M (S := S) B) (Q : A → Prop) (P : B → Prop) :
  spec oof m Q → (∀ a, Q a → spec oof (k a) P) → spec oof (bind m k) P.
Proof.
  intros Hm Hk s. specialize (Hm s). unfold bind.
  destruct (m s) as [[a|t|] s1]; simpl in *; [|done|done].
  apply (Hk a Hm s1).
Qed.

Lemma spec_tryCatch oof {A} (m : M (S := S) A) (h : thrown → M (S := S) A) (P : A → Prop) :
  spec oof m P → (∀ t, spec oof (h t) P) → spec oof (tryCatch m h) P.
Proof.
  intros Hm Hh s. specialize (Hm s). unfold tryCatch.
  destruct (m s) as [[a|t|] s1]; simpl in *; [done| |done].
  apply (Hh t s1).
Qed.

Lemma spec_tryFinally oof {A} (m : M (S := S) A) (cleanup : S → S) (P : A → Prop) :
  spec oof m P → spec oof (tryFinally m cleanup) P.
Proof.
  intros Hm s. specialize (Hm s). unfold tryFinally. by destruct (m s) as [o s1].
Qed.

Lemma spec_weaken oof {A} (m : M (S := S) A) (Q P : A → Prop) :
  spec oof m Q → (∀ a, Q a → P a) → spec oof m P.
Proof.
  intros Hm HQP s. specialize (Hm s). destruct (m s).1; auto.
Qed.

Lemma spec_ifTruthy oof {A} (o : option string) (f : string → M (S := S) A) (e : M (S := S) A)
    (P : A → Prop) :
  (∀ v, v ≠ "" → spec oof (f v) P) → spec oof e P → spec oof (ifTruthy o f e) P.
Proof.
  intros Hf He. unfold ifTruthy. destruct o as [v|]; [|done].
  destruct (String.eqb_spec v ""); auto.
Qed.

Lemma spec_run oof {A} (m : M (S := S) A) (P : A → Prop) (s s' : S) (a : A) :
  spec oof m P → m s = (Returned a, s') → P a.
Proof. intros Hm Hrun. specialize (Hm s). by rewrite Hrun in Hm. Qed.
End Spec.

Section EngineFacts.
Context {E : Env}.

Lemma spec_await oof {A} (f : World E → reply A * World E) (P : A → Prop) :
  (∀ w a w', f w = (Resolves a, w') → P a) → spec oof (await f) P.
Proof.
  intros Hf w. unfold await. destruct (f w) as [[a|t] w'] eqn:Hfw; simpl; eauto.
Qed.

Lemma spec_await_any oof {A} (f : World E → reply A * World E) :
  spec oof (await f) (λ _, True).
Proof. by apply spec_await. Qed.

Lemma spec_perform oof {A} (f : World E → A * World E) : spec oof (perform f) (λ _, True).
Proof. intros w. unfold perform. by destruct (f w). Qed.

Lemma spec_ask oof {A} (f : World E → A) : spec oof (ask f) (λ _, True).
Proof. by intros w. Qed.

Lemma spec_report oof (onProgress : option (WhisperProgressEvent → World E → World E))
    (event : WhisperProgressEvent) :
  spec oof (report onProgress event) (λ _, True).
Proof. destruct onProgress as [sink|]; by intros s. Qed.

Lemma spec_tempPath oof (prefix suffix : string) :
  spec oof (tempPath (E := E) prefix suffix) (λ _, True).
Proof.
  unfold tempPath.
  eapply spec_bind; [apply spec_ask|]. intros dir _.
  eapply spec_bind; [apply spec_perform|]. intros uuid _.
  by apply spec_ret.
Qed.

Lemma spec_isWhisperCppReady oof : spec oof (isWhisperCppReady (E := E)) (λ _, True).
Proof.
  unfold isWhisperCppReady.
  eapply spec_bind; [apply spec_ask|]. intros enabled _.
  destruct enabled; simpl; [|by apply spec_ret].
  eapply spec_bind; [apply spec_perform|]. intros available _.
  destruct available; simpl; [|by apply spec_ret].
  eapply spec_bind; [apply spec_perform|]. intros model _.
  by apply spec_ret.
Qed.

Create HintDb spec.
Hint Resolve spec_ret spec_throw spec_effect spec_await_any spec_perform spec_ask
  spec_report spec_tempPath spec_isWhisperCppReady : spec.

(** One step through a computation: a [bind] whose first part is a known
    operation, a [try], a branch. *)
Ltac spec_step :=
  cbv beta;
  match goal with
  | |- spec _ (ret _) _ => apply spec_ret
  | |- spec _ (throw _) _ => apply spec_throw
  | |- spec _ (bind _ _) _ =>
      first [ eapply spec_bind; [solve [eauto with spec]|intros ? ?]
            | eapply spec_bind with (Q := λ _, True); [|intros ? _] ]
  | |- spec _ (tryFinally _ _) _ => apply spec_tryFinally
  | |- spec _ (tryCatch _ _) _ => apply spec_tryCatch; [|intros ?]
  | |- spec _ (ifTruthy _ _ _) _ => apply spec_ifTruthy; [intros ? ?|]
  | |- spec _ (if ?b then _ else _) _ => destruct b eqn:?
  | |- spec _ (match ?x with _ => _ end) _ => destruct x eqn:?
  end.

Lemma wellFormed_failure (p : option TranscriptionProvider) (e : Error) (ns : list string) :
  wellFormed {| text := None; provider := p; error := Some e; notes := ns |}.
Proof. by eexists. Qed.

Lemma wellFormed_success (p : option TranscriptionProvider) (t : string) (ns : list string) :
  t ≠ "" → wellFormed {| text := Some t; provider := p; error := None; notes := ns |}.
Proof. by split. Qed.

Hint Resolve wellFormed_failure wellFormed_success : spec.

Lemma runWhisperCpp_spec oof (modelPath path : string) (ns : list string) (total : option Q)
    (onProgress : option (WhisperProgressEvent → World E → World E)) :
  spec oof (runWhisperCpp modelPath path ns total onProgress) wellFormed.
Proof.
  unfold runWhisperCpp.
  spec_step.
  spec_step.
  eapply spec_bind with (Q := λ _, True).
  { spec_step; [|by spec_step]. spec_step. by spec_step. }
  intros failure _. spec_step; [spec_step; auto with spec|].
  eapply spec_bind with (Q := λ _, True).
  { spec_step; [apply spec_await_any|by spec_step]. }
  intros raw _. spec_step. spec_step; spec_step; auto with spec.
  apply wellFormed_success. by apply String.eqb_neq.
Qed.

Ltac spec_auto := repeat spec_step; auto with spec.

Lemma transcodeForWhisperCpp_spec oof (filePath mp3Path : string) (total : option Q)
    (onProgress : option (WhisperProgressEvent → World E → World E)) :
  spec oof (transcodeForWhisperCpp filePath mp3Path total onProgress) (λ _, True).
Proof.
  unfold transcodeForWhisperCpp, runFfmpegTranscodeToMp3, runFfmpegTranscodeToMp3Lenient.
  spec_auto.
Qed.

Hint Resolve runWhisperCpp_spec transcodeForWhisperCpp_spec : spec.

Lemma transcribeWithWhisperCppFile_spec oof (filePath mediaType : string) (total : option Q)
    (onProgress : option (WhisperProgressEvent → World E → World E)) :
  spec oof (transcribeWithWhisperCppFile filePath mediaType total onProgress) wellFormed.
Proof. unfold transcribeWithWhisperCppFile. spec_auto. Qed.

Lemma tryWhisperCpp_spec oof (filePath mediaType : string) (total : option Q)
    (onProgress : option (WhisperProgressEvent → World E → World E)) :
  spec oof (tryWhisperCpp filePath mediaType total onProgress) wellFormed.
Proof.
  unfold tryWhisperCpp. spec_step; [apply transcribeWithWhisperCppFile_spec|]. spec_auto.
Qed.

Lemma truthy_Some (o : option string) :
  truthy o = true → ∃ t, o = Some t ∧ t ≠ "".
Proof.
  destruct o as [t|]; [|done]. simpl. intros Ht. exists t. split; [done|].
  apply String.eqb_neq. by destruct (String.eqb t "").
Qed.

Lemma afterWhisperCpp_spec (local : WhisperTranscriptionResult) :
  wellFormed local → returnsWellFormed (afterWhisperCpp local).
Proof.
  unfold afterWhisperCpp, wellFormed. intros Hlocal.
  destruct (truthy (text local)) eqn:Htext; [|done].
  apply truthy_Some in Htext as (t & Ht & Hne). simpl. unfold wellFormed. simpl.
  by rewrite Ht in Hlocal |- *.
Qed.

Hint Resolve tryWhisperCpp_spec afterWhisperCpp_spec : spec.

Lemma localStage_spec oof (args : MediaArgs E) :
  spec oof (localStage args) returnsWellFormed.
Proof.
  unfold localStage. spec_step. spec_step; [|by spec_auto].
  spec_step. spec_step. spec_step. spec_step. spec_auto.
Qed.

Lemma transcodeBytesToMp3_spec oof (b : Bytes) :
  spec oof (transcodeBytesToMp3 (E := E) b) (λ _, True).
Proof.
  unfold transcodeBytesToMp3, runFfmpegTranscodeToMp3, runFfmpegTranscodeToMp3Lenient.
  spec_auto.
Qed.

Hint Resolve localStage_spec transcodeBytesToMp3_spec : spec.

Lemma firstOpenAiAttempt_spec oof (b : Bytes) (mediaType : string) (filename : option string)
    (openaiApiKey : option string) (ns : list string) :
  spec oof (firstOpenAiAttempt (E := E) b mediaType filename openaiApiKey ns) returnsWellFormed.
Proof. unfold firstOpenAiAttempt. spec_auto; simpl; auto with spec. Qed.

Lemma retryOpenAiViaFfmpeg_spec oof (key : string) (st : RemoteState) :
  spec oof (retryOpenAiViaFfmpeg (E := E) key st) returnsWellFormed.
Proof. unfold retryOpenAiViaFfmpeg. spec_auto; simpl; auto with spec. Qed.

Lemma falStage_spec oof (openaiApiKey falApiKey : option string) (st : RemoteState) :
  spec oof (falStage (E := E) openaiApiKey falApiKey st) wellFormed.
Proof. unfold falStage. spec_auto. Qed.

Hint Resolve firstOpenAiAttempt_spec retryOpenAiViaFfmpeg_spec falStage_spec : spec.

Lemma sizeStage_spec oof
    (transcribeMediaFile : FileArgs E → M (S := World E) WhisperTranscriptionResult)
    (args : MediaArgs E) (ns : list string) :
  (truthy (openaiApiKey args) && (MAX_OPENAI_UPLOAD_BYTES <? byteLength (bytes args))%N = true →
   ∀ fileArgs, spec oof (transcribeMediaFile fileArgs) wellFormed) →
  spec oof (sizeStage transcribeMediaFile args ns) returnsWellFormed.
Proof.
  intros Hfile. unfold sizeStage. spec_step; [|by spec_auto].
  spec_step. spec_step; [|by spec_auto].
  spec_step. spec_step. spec_step.
  eapply spec_bind; [by apply Hfile|]. intros chunked Hchunked. by spec_auto.
Qed.

Lemma transcribeMediaWithWhisperBody_spec oof
    (transcribeMediaFile : FileArgs E → M (S := World E) WhisperTranscriptionResult)
    (args : MediaArgs E) :
  (truthy (openaiApiKey args) && (MAX_OPENAI_UPLOAD_BYTES <? byteLength (bytes args))%N = true →
   ∀ fileArgs, spec oof (transcribeMediaFile fileArgs) wellFormed) →
  spec oof (transcribeMediaWithWhisperBody transcribeMediaFile args) wellFormed.
Proof.
  intros Hfile. unfold transcribeMediaWithWhisperBody.
  spec_step. spec_step; [by spec_auto|].
  spec_step; [unfold noProviders; by spec_auto|].
  eapply spec_bind; [by apply sizeStage_spec|]. intros sized Hsized.
  spec_step; [by spec_auto|]. spec_step.
  spec_step. spec_step; [by spec_auto|].
  eapply spec_bind with (Q := returnsWellFormed).
  { spec_auto; simpl; auto with spec. }
  intros retried Hretried. spec_auto.
Qed.

(** *** The chunked transcription *)

Lemma concat_nonempty (sep : string) (l : list string) :
  l ≠ [] → Forall (λ t, t ≠ "") l → String.concat sep l ≠ "".
Proof.
  destruct l as [|x l]; [done|]. intros _ [Hx _]%Forall_cons. simpl.
  destruct x; [done|]. by destruct l.
Qed.

Lemma sliceTo_length (n : N) (b : Bytes) : (byteLength (sliceTo n b) ≤ n)%N.
Proof.
  unfold byteLength. revert n. induction b as [|x b IH]; intros n; simpl; [lia|].
  destruct (N.eqb_spec n 0); simpl; [lia|]. specialize (IH (N.pred n)). lia.
Qed.

Section Recursion.
Variable oof : Prop.
Variable okBytes : Bytes → Prop.
Variable transcribeMedia : MediaArgs E → M (S := World E) WhisperTranscriptionResult.

Lemma transcribeSegments_spec (args : FileArgs E) (dir : string) (ns : list string)
    (count : nat) (files : list string) :
  mediaOk oof okBytes transcribeMedia → readsOk E okBytes →
  ∀ index parts used,
    Forall (λ t, t ≠ "") parts → files ≠ [] ∨ parts ≠ [] →
    spec oof (transcribeSegments transcribeMedia args dir ns count files index parts used)
      wellFormed.
Proof.
  intros Hmedia [Hread _]. induction files as [|name rest IH];
    intros index parts used Hparts Hsome; simpl.
  - apply spec_ret. apply wellFormed_success, concat_nonempty; [|done].
    by destruct Hsome.
  - eapply spec_bind; [apply spec_await, Hread|]. intros segmentBytes Hbytes.
    eapply spec_bind; [by apply Hmedia|]. intros result Hresult.
    destruct (bool_decide _ && _) eqn:Hfail.
    + apply andb_true_iff in Hfail as [[e He]%bool_decide_eq_true _].
      apply spec_ret. rewrite He. apply wellFormed_failure.
    + eapply spec_bind; [apply spec_report|]. intros _ _.
      unfold wellFormed in Hresult.
      destruct (text result) as [t|] eqn:Ht.
      * destruct Hresult as [Hne _]. unfold ifTruthy.
        apply String.eqb_neq in Hne. rewrite Hne.
        apply IH; [|right; by destruct parts].
        apply Forall_app. split; [done|]. apply Forall_singleton.
        by apply String.eqb_neq.
      * rewrite bool_decide_eq_true_2 in Hfail by done. done.
Qed.

Lemma transcribeChunked_spec (args : FileArgs E) (ns : list string) :
  mediaOk oof okBytes transcribeMedia → readsOk E okBytes →
  spec oof (transcribeChunked transcribeMedia args ns) wellFormed.
Proof.
  intros Hmedia Hreads. unfold transcribeChunked, runFfmpegSegment.
  spec_step. spec_step. spec_step. spec_step. spec_step.
  case_bool_decide as Hfiles; [by spec_auto|].
  spec_step. apply transcribeSegments_spec; auto.
  left. intros Hnil. by rewrite Hnil in Hfiles.
Qed.

Lemma readFirstBytes_spec (filePath : string) :
  readsOk E okBytes →
  spec oof (readFirstBytes (E := E) filePath MAX_OPENAI_UPLOAD_BYTES) okBytes.
Proof. intros [_ Hhead]. unfold readFirstBytes. spec_step. spec_step. apply Hhead. Qed.

Lemma transcribeMediaFileWithWhisperBody_spec (args : FileArgs E) :
  mediaOk oof okBytes transcribeMedia → readsOk E okBytes →
  spec oof (transcribeMediaFileWithWhisperBody transcribeMedia args) wellFormed.
Proof.
  intros Hmedia Hreads. unfold transcribeMediaFileWithWhisperBody.
  spec_step.
  eapply spec_bind with (Q := returnsWellFormed).
  { spec_step; [|by spec_auto]. spec_step. spec_step. spec_auto. }
  intros local Hlocal. spec_step; [by spec_auto|].
  spec_step; [unfold noProviders; by spec_auto|].
  spec_step. spec_step.
  - spec_step. spec_step; [|by apply transcribeChunked_spec].
    eapply spec_bind; [by apply readFirstBytes_spec|]. intros head Hhead.
    eapply spec_bind; [by apply Hmedia|]. intros partial Hpartial.
    by apply spec_ret.
  - eapply spec_bind; [apply spec_await, Hreads|]. intros b Hb.
    spec_step.
    eapply spec_bind; [by apply Hmedia|]. intros result Hresult.
    by apply spec_ret.
Qed.
End Recursion.

(** Every result the engine returns is well formed, whatever the fuel. *)
Lemma transcribeMediaWithWhisper_spec (fuel : nat) (args : MediaArgs E) :
  spec True (transcribeMediaWithWhisper fuel args) wellFormed.
Proof.
  revert args. induction fuel as [|fuel IH]; intros args; simpl;
    apply transcribeMediaWithWhisperBody_spec; intros _ fileArgs.
  - by intros w.
  - apply (transcribeMediaFileWithWhisperBody_spec True (λ _, True)); [|done].
    intros a _. apply IH.
Qed.

Lemma transcribeMediaFileWithWhisper_spec (fuel : nat) (args : FileArgs E) :
  spec True (transcribeMediaFileWithWhisper fuel args) wellFormed.
Proof.
  apply (transcribeMediaFileWithWhisperBody_spec True (λ _, True)); [|done].
  intros a _. apply transcribeMediaWithWhisper_spec.
Qed.

Lemma transcribeMediaWithWhisper_within_cap (fuel : nat) (args : MediaArgs E) :
  withinCap (bytes args) →
  spec False (transcribeMediaWithWhisper fuel args) wellFormed.
Proof.
  intros Hsmall. destruct fuel; simpl; apply transcribeMediaWithWhisperBody_spec;
    intros [_ Hbig%N.ltb_lt]%andb_true_iff; unfold withinCap in Hsmall; lia.
Qed.

End EngineFacts.

(** ** The claims about the Whisper engine *)

(** C7.  When local whisper.cpp is not ready and neither an OpenAI nor a
    FAL key is set, [transcribeMediaWithWhisper] returns [text = null],
    [provider = null] and the configuration error that names the three
    missing providers. *)
Theorem transcribeMediaWithWhisper_no_providers {E : Env} (fuel : nat) (args : MediaArgs E)
    (w w1 : World E) :
  isWhisperCppReady w = (Returned false, w1) →
  truthy (openaiApiKey args) = false → truthy (falApiKey args) = false →
  transcribeMediaWithWhisper fuel args w
  = (Returned
       {| text := None; provider := None;
          error := Some {| message :=
            "No transcription providers available (install whisper-cpp or set OPENAI_API_KEY or FAL_KEY)" |};
          notes := [] |}, w1).
Proof.
  intros Hready Hopenai Hfal.
  destruct fuel; simpl; unfold transcribeMediaWithWhisperBody, localStage, bind;
    by rewrite Hready, Hopenai, Hfal.
Qed.

Lemma transcribeMediaWithWhisper_no_providers_witness :
  transcribeMediaWithWhisper 1 quiet 0%nat
  = (Returned
       {| text := None; provider := None;
          error := Some {| message :=
            "No transcription providers available (install whisper-cpp or set OPENAI_API_KEY or FAL_KEY)" |};
          notes := [] |}, 0%nat).
Proof.
  apply (transcribeMediaWithWhisper_no_providers (E := scriptedEnv 0 [] []) 1 quiet 0%nat 0%nat);
    reflexivity.
Defined.

(** With segments and files read back within the upload cap, one level
    of fuel is enough: the call returns or throws. *)
Lemma transcribeMediaWithWhisper_enough_fuel {E : Env} (fuel : nat) (args : MediaArgs E)
    (w : World E) :
  (∀ path w b w', fsReadFile E path w = (Resolves b, w') → withinCap b) →
  (transcribeMediaWithWhisper (S fuel) args w).1 ≠ OutOfFuel.
Proof.
  intros Hread.
  assert (Hspec : spec False (transcribeMediaWithWhisper (S fuel) args) wellFormed).
  { simpl. apply transcribeMediaWithWhisperBody_spec. intros _ fileArgs.
    apply (transcribeMediaFileWithWhisperBody_spec False withinCap).
    - intros a Ha. by apply transcribeMediaWithWhisper_within_cap.
    - split; [done|]. intros b. apply sliceTo_length. }
  specialize (Hspec w). by destruct (transcribeMediaWithWhisper (S fuel) args w).1.
Qed.

(** The loop over [done ++ rest] goes on with [rest] once the segments of
    [done] are transcribed. *)
Lemma transcribeSegments_app {E : Env}
    (transcribeMedia : MediaArgs E → M (S := World E) WhisperTranscriptionResult)
    (args : FileArgs E) (dir : string) (ns : list string) (count : nat)
    (done rest : list string) :
  ∀ index parts used w index' parts' used' w',
    segmentsTranscribed transcribeMedia args dir count done index parts used w
    = Some (index', parts', used', w') →
    transcribeSegments transcribeMedia args dir ns count (done ++ rest) index parts used w
    = transcribeSegments transcribeMedia args dir ns count rest index' parts' used' w'.
Proof.
  induction done as [|name done IH]; intros index parts used w index' parts' used' w';
    simpl; [by intros [= -> -> -> ->]|].
  unfold bind at 1, await at 1.
  destruct (fsReadFile E (pathJoin E dir name) w) as [[segmentBytes|t] w1]; [|done].
  unfold bind at 1.
  destruct (transcribeMedia (segmentArgs args name segmentBytes) w1) as [[result| |] w2];
    [|done|done].
  destruct (bool_decide _ && _); [done|].
  intros Hdone. unfold bind at 1.
  destruct (report (fileOnProgress args) (segmentProgress args count index) w2)
    as [o w3] eqn:Hreport.
  assert (o = Returned tt) as ->.
  { unfold report in Hreport. destruct (fileOnProgress args); by injection Hreport as <- _. }
  by apply IH.
Qed.

(** C9.  During the chunked transcription of an oversized file, when the
    transcription of a segment fails, giving an error and no text, after
    the segments before it were transcribed, the whole call returns
    [text = null] with that segment's error: the texts of the earlier
    segments are not returned. *)
Theorem transcribeChunked_segment_failure {E : Env}
    (transcribeMedia : MediaArgs E → M (S := World E) WhisperTranscriptionResult)
    (args : FileArgs E) (ns : list string) (dir : string) (names done rest : list string)
    (name : string) (index : nat) (parts : list string)
    (used : option TranscriptionProvider) (segmentBytes : Bytes)
    (result : WhisperTranscriptionResult) (e : Error) (w w1 w2 w3 w4 w5 w6 : World E) :
  let files := done ++ name :: rest in
  fsMkdtemp E (pathJoin E (tmpdir E w) "summarize-whisper-segments-") w = (Resolves dir, w1) →
  runFfmpegSegment (filePath args) (pathJoin E dir "part-%03d.mp3") (segmentSeconds args) w1
  = (Returned tt, w2) →
  fsReaddir E dir w2 = (Resolves names, w3) →
  segmentFiles (E := E) names = files →
  segmentsTranscribed transcribeMedia args dir (length files) done 0 [] None
    (report (fileOnProgress args) (chunkedProgress args files) w3).2
  = Some (index, parts, used, w4) →
  fsReadFile E (pathJoin E dir name) w4 = (Resolves segmentBytes, w5) →
  transcribeMedia (segmentArgs args name segmentBytes) w5 = (Returned result, w6) →
  error result = Some e → truthy (text result) = false →
  transcribeChunked transcribeMedia args ns w
  = (Returned
       {| text := None;
          provider := match used with Some p => Some p | None => provider result end;
          error := Some e;
          notes := ns ++ [chunkedNote args files] |},
     fsRm E dir w6).
Proof.
  intros files Hmkdtemp Hsegment Hreaddir Hfiles Hdone Hread Hresult Herror Htext.
  unfold transcribeChunked, tryFinally, bind, ask, await at 1.
  rewrite Hmkdtemp, Hsegment. unfold await at 1. rewrite Hreaddir, Hfiles.
  rewrite bool_decide_eq_false_2 by (subst files; rewrite length_app; simpl; lia).
  destruct (report (fileOnProgress args) (chunkedProgress args files) w3)
    as [o w3'] eqn:Hreport.
  assert (o = Returned tt) as ->.
  { unfold report in Hreport. destruct (fileOnProgress args); by injection Hreport as <- _. }
  simpl in Hdone. subst files.
  rewrite (transcribeSegments_app _ _ _ _ _ _ _ _ _ _ _ _ _ _ _ Hdone). simpl.
  unfold bind, await. rewrite Hread, Hresult, Herror, Htext.
  rewrite bool_decide_eq_true_2 by by eexists. done.
Qed.

Lemma transcribeChunked_segment_failure_witness :
  let E := scriptedEnv 30000000 ["part-000.mp3"; "part-001.mp3"]
             [Resolves (Some "first part"); Rejects (ThrownError {| message := "HTTP 500" |})] in
  transcribeChunked (transcribeMediaWithWhisper (E := E) 0) (longFile E) [] 0%nat
  = (Returned
       {| text := None; provider := Some OpenAi;
          error := Some {| message := "OpenAI transcription failed: HTTP 500" |};
          notes := [] ++ [chunkedNote (longFile E) (["part-000.mp3"] ++ ["part-001.mp3"])] |},
     2%nat).
Proof.
  intros E.
  apply (transcribeChunked_segment_failure (E := E) (transcribeMediaWithWhisper 0)
           (longFile E) [] "/tmp/summarize-whisper-segments-XXXXXX"
           ["part-000.mp3"; "part-001.mp3"] ["part-000.mp3"] [] "part-001.mp3"
           1 ["first part"] (Some OpenAi) []
           {| text := None; provider := Some OpenAi;
              error := Some {| message := "OpenAI transcription failed: HTTP 500" |};
              notes := [] |}
           {| message := "OpenAI transcription failed: HTTP 500" |}
           0%nat 0%nat 0%nat 0%nat 1%nat 1%nat 2%nat); reflexivity.
Defined.

(** The whole call is the chunked transcription when local whisper.cpp is
    not ready, an OpenAI key is set, the file is over the upload cap and
    ffmpeg is installed. *)
Lemma transcribeMediaFileWithWhisper_chunked {E : Env}
    (transcribeMedia : MediaArgs E → M (S := World E) WhisperTranscriptionResult)
    (args : FileArgs E) (size : N) (w w1 w2 w3 : World E) :
  isWhisperCppReady w = (Returned false, w1) →
  truthy (fileOpenaiApiKey args) = true →
  fsStatSize E (filePath args) w1 = (Resolves size, w2) →
  (MAX_OPENAI_UPLOAD_BYTES < size)%N →
  isFfmpegAvailable E w2 = (true, w3) →
  transcribeMediaFileWithWhisperBody transcribeMedia args w
  = transcribeChunked transcribeMedia args [] w3.
Proof.
  intros Hready Hkey Hstat Hsize Hffmpeg.
  unfold transcribeMediaFileWithWhisperBody, bind at 1. rewrite Hready.
  unfold bind at 1. simpl. rewrite Hkey. simpl.
  unfold bind at 1, await at 1. rewrite Hstat.
  apply N.ltb_lt in Hsize. rewrite Hsize. simpl.
  unfold bind at 1, perform at 1. by rewrite Hffmpeg.
Qed.

End WhisperFacts.

(** * Further properties of the Whisper engine *)

Module WhisperMore.
Import Js Whisper WhisperFacts.
Local Open Scope js_scope.

Lemma spec_conj {S A} oof (m : M (S := S) A) (P Q : A → Prop) :
  spec oof m P → spec oof m Q → spec oof m (λ a, P a ∧ Q a).
Proof.
  intros HP HQ s. specialize (HP s). specialize (HQ s). by destruct (m s).1.
Qed.

(** The branch taken by [ifTruthy] knows which way the test went. *)
Lemma spec_ifTruthy_eq {S A} oof (o : option string) (f : string → M (S := S) A)
    (e : M (S := S) A) (P : A → Prop) :
  (∀ v, o = Some v → truthy o = true → spec oof (f v) P) →
  (truthy o = false → spec oof e P) →
  spec oof (ifTruthy o f e) P.
Proof.
  intros Hf He. unfold ifTruthy. destruct o as [v|]; [|by apply He].
  destruct (String.eqb v "") eqn:Hv.
  - apply He. simpl. by rewrite Hv.
  - apply Hf; [done|]. simpl. by rewrite Hv.
Qed.

Lemma attributed_local (o f : option string) (t : option string) (e : option Error)
    (ns : list string) :
  attributed o f {| text := t; provider := Some WhisperCpp; error := e; notes := ns |}.
Proof. repeat split; simpl; intros; by eauto. Qed.

Lemma attributed_failure (o f : option string) (e : option Error) (ns : list string) :
  attributed o f {| text := None; provider := None; error := e; notes := ns |}.
Proof. repeat split; simpl; by intros; try by apply is_Some_None in H. Qed.

Lemma attributed_openai (o f : option string) (t : option string) (e : option Error)
    (ns : list string) :
  truthy o = true →
  attributed o f {| text := t; provider := Some OpenAi; error := e; notes := ns |}.
Proof. repeat split; simpl; intros; by eauto. Qed.

Lemma attributed_fal (o f : option string) (t : option string) (e : option Error)
    (ns : list string) :
  truthy f = true →
  attributed o f {| text := t; provider := Some Fal; error := e; notes := ns |}.
Proof. repeat split; simpl; intros; by eauto. Qed.

Lemma attributed_exhausted (o f : option string) (e : option Error) (ns : list string) :
  attributed o f
    {| text := None; provider := if truthy o then Some OpenAi else None;
       error := e; notes := ns |}.
Proof.
  repeat split; simpl; intros H; try by apply is_Some_None in H.
  all: by destruct (truthy o).
Qed.

Lemma attributed_copy (o f : option string) (r : WhisperTranscriptionResult)
    (ns : list string) :
  attributed o f r →
  attributed o f {| text := text r; provider := provider r; error := error r; notes := ns |}.
Proof. done. Qed.

Create HintDb engine.
#[local] Hint Resolve spec_ret spec_throw spec_effect spec_await_any spec_perform spec_ask
  spec_report spec_tempPath spec_isWhisperCppReady transcodeForWhisperCpp_spec
  transcodeBytesToMp3_spec attributed_local attributed_failure attributed_openai
  attributed_fal attributed_exhausted attributed_copy : engine.

(** One step through a computation, keeping what each test established. *)
Ltac engine_step :=
  cbv beta;
  match goal with
  | |- spec _ (ret _) _ => apply spec_ret
  | |- spec _ (throw _) _ => apply spec_throw
  | |- spec _ (bind _ _) _ =>
      first [ eapply spec_bind; [solve [eauto with engine]|intros ? ?]
            | eapply spec_bind with (Q := λ _, True); [|intros ? _] ]
  | |- spec _ (tryFinally _ _) _ => apply spec_tryFinally
  | |- spec _ (tryCatch _ _) _ => apply spec_tryCatch; [|intros ?]
  | |- spec _ (ifTruthy _ _ _) _ => apply spec_ifTruthy_eq; [intros ? ? ?|intros ?]
  | |- spec _ (if ?b then _ else _) _ => destruct b eqn:?
  | |- spec _ (match ?x with _ => _ end) _ => destruct x eqn:?
  end.

Ltac engine_auto := repeat engine_step; simpl; auto with engine.

Section Attribution.
Context {E : Env}.
Variables openai fal : option string.

Lemma runWhisperCpp_attributed oof (modelPath path : string) (ns : list string)
    (total : option Q) (onProgress : option (WhisperProgressEvent → World E → World E)) :
  spec oof (runWhisperCpp modelPath path ns total onProgress) (attributed openai fal).
Proof.
  unfold runWhisperCpp.
  engine_step. engine_step.
  eapply spec_bind with (Q := λ _, True).
  { engine_step; [|by engine_step]. engine_step. by engine_step. }
  intros failure _. engine_step; [by engine_auto|].
  eapply spec_bind with (Q := λ _, True).
  { engine_step; [apply spec_await_any|by engine_step]. }
  intros raw _. engine_auto.
Qed.

Lemma tryWhisperCpp_attributed oof (filePath mediaType : string) (total : option Q)
    (onProgress : option (WhisperProgressEvent → World E → World E)) :
  spec oof (tryWhisperCpp filePath mediaType total onProgress) (attributed openai fal).
Proof.
  pose proof runWhisperCpp_attributed.
  unfold tryWhisperCpp, transcribeWithWhisperCppFile. engine_auto.
Qed.

Lemma afterWhisperCpp_attributed (local : WhisperTranscriptionResult) :
  attributed openai fal local → returning (attributed openai fal) (afterWhisperCpp local).
Proof. unfold afterWhisperCpp. by destruct (truthy (text local)). Qed.

Lemma localStage_attributed oof (args : MediaArgs E) :
  spec oof (localStage args) (returning (attributed openai fal)).
Proof.
  pose proof tryWhisperCpp_attributed. pose proof afterWhisperCpp_attributed.
  unfold localStage. engine_auto.
Qed.

Lemma firstOpenAiAttempt_attributed oof (b : Bytes) (mediaType : string)
    (filename : option string) (ns : list string) :
  spec oof (firstOpenAiAttempt (E := E) b mediaType filename openai ns)
    (returning (attributed openai fal)).
Proof. unfold firstOpenAiAttempt. engine_auto. Qed.

Lemma retryOpenAiViaFfmpeg_attributed oof (key : string) (st : RemoteState) :
  truthy openai = true →
  spec oof (retryOpenAiViaFfmpeg (E := E) key st) (returning (attributed openai fal)).
Proof. intros Hkey. unfold retryOpenAiViaFfmpeg. engine_auto. Qed.

Lemma falStage_attributed oof (st : RemoteState) :
  spec oof (falStage (E := E) openai fal st) (attributed openai fal).
Proof. unfold falStage. engine_auto. Qed.

End Attribution.

Section AttributionBodies.
Context {E : Env}.

Lemma sizeStage_attributed oof
    (transcribeMediaFile : FileArgs E → M (S := World E) WhisperTranscriptionResult)
    (args : MediaArgs E) (ns : list string) :
  (∀ fileArgs,
     spec oof (transcribeMediaFile fileArgs)
       (attributed (fileOpenaiApiKey fileArgs) (fileFalApiKey fileArgs))) →
  spec oof (sizeStage transcribeMediaFile args ns)
    (returning (attributed (openaiApiKey args) (falApiKey args))).
Proof.
  intros Hfile. unfold sizeStage. engine_step; [|by engine_auto].
  engine_step. engine_step; [|by engine_auto].
  engine_step. engine_step. engine_step.
  eapply spec_bind; [by apply Hfile|]. intros chunked Hchunked. by engine_auto.
Qed.

Lemma transcribeMediaWithWhisperBody_attributed oof
    (transcribeMediaFile : FileArgs E → M (S := World E) WhisperTranscriptionResult)
    (args : MediaArgs E) :
  (∀ fileArgs,
     spec oof (transcribeMediaFile fileArgs)
       (attributed (fileOpenaiApiKey fileArgs) (fileFalApiKey fileArgs))) →
  spec oof (transcribeMediaWithWhisperBody transcribeMediaFile args)
    (attributed (openaiApiKey args) (falApiKey args)).
Proof.
  intros Hfile. unfold transcribeMediaWithWhisperBody.
  eapply spec_bind; [apply localStage_attributed|]. intros local Hlocal.
  engine_step; [by engine_auto|].
  engine_step; [unfold noProviders; by engine_auto|].
  eapply spec_bind; [by apply sizeStage_attributed|]. intros sized Hsized.
  engine_step; [by engine_auto|]. engine_step.
  eapply spec_bind; [apply firstOpenAiAttempt_attributed|]. intros first Hfirst.
  engine_step; [by engine_auto|].
  eapply spec_bind with (Q := returning (attributed (openaiApiKey args) (falApiKey args))).
  { engine_step; [|by engine_auto]. engine_step; [|by engine_auto].
    engine_step; [|by engine_auto]. by apply retryOpenAiViaFfmpeg_attributed. }
  intros retried Hretried. engine_step; [by engine_auto|].
  apply falStage_attributed.
Qed.

Section Recursion.
Variable oof : Prop.
Variable transcribeMedia : MediaArgs E → M (S := World E) WhisperTranscriptionResult.
Hypothesis recursive : mediaAttributed oof transcribeMedia.

Lemma transcribeSegments_attributed (args : FileArgs E) (dir : string) (ns : list string)
    (count : nat) (files : list string) :
  ∀ index parts used,
    files ≠ [] ∨ is_Some used →
    (used = Some OpenAi → truthy (fileOpenaiApiKey args) = true) →
    (used = Some Fal → truthy (fileFalApiKey args) = true) →
    spec oof (transcribeSegments transcribeMedia args dir ns count files index parts used)
      (attributed (fileOpenaiApiKey args) (fileFalApiKey args)).
Proof.
  induction files as [|name rest IH]; intros index parts used Hsome Hopenai Hfal; simpl.
  - apply spec_ret. destruct Hsome as [|Hused]; [done|]. by repeat split.
  - eapply spec_bind; [apply spec_await_any|]. intros segmentBytes _.
    eapply spec_bind; [apply recursive|]. simpl.
    intros result (Hwf & Hprovider & Hro & Hrf).
    set (used' := match used with Some p => Some p | None => provider result end).
    assert (Hopenai' : used' = Some OpenAi → truthy (fileOpenaiApiKey args) = true).
    { subst used'. destruct used; auto. }
    assert (Hfal' : used' = Some Fal → truthy (fileFalApiKey args) = true).
    { subst used'. destruct used; auto. }
    destruct (bool_decide _ && _) eqn:Hfail.
    + apply spec_ret. repeat split; simpl; [by intros ?%is_Some_None|done|done].
    + eapply spec_bind; [apply spec_report|]. intros _ _.
      apply IH; [right|done|done].
      unfold wellFormed in Hwf. destruct (text result) as [t|] eqn:Ht.
      * subst used'. destruct used; [done|]. by apply Hprovider.
      * rewrite bool_decide_eq_true_2 in Hfail by done. done.
Qed.

Lemma transcribeChunked_attributed (args : FileArgs E) (ns : list string) :
  spec oof (transcribeChunked transcribeMedia args ns)
    (attributed (fileOpenaiApiKey args) (fileFalApiKey args)).
Proof.
  unfold transcribeChunked, runFfmpegSegment.
  engine_step. engine_step. engine_step. engine_step. engine_step.
  case_bool_decide as Hfiles; [by engine_auto|].
  engine_step. apply transcribeSegments_attributed; [|done|done].
  left. intros Hnil. by rewrite Hnil in Hfiles.
Qed.

Lemma readFirstBytes_any (filePath : string) (maxBytes : N) :
  spec oof (readFirstBytes (E := E) filePath maxBytes) (λ _, True).
Proof. unfold readFirstBytes. engine_auto. Qed.

Lemma transcribeMediaFileWithWhisperBody_attributed (args : FileArgs E) :
  spec oof (transcribeMediaFileWithWhisperBody transcribeMedia args)
    (attributed (fileOpenaiApiKey args) (fileFalApiKey args)).
Proof.
  unfold transcribeMediaFileWithWhisperBody.
  engine_step.
  eapply spec_bind
    with (Q := returning (attributed (fileOpenaiApiKey args) (fileFalApiKey args))).
  { engine_step; [|by engine_auto]. engine_step.
    eapply spec_bind; [apply tryWhisperCpp_attributed|]. intros local Hlocal.
    apply spec_ret. by apply afterWhisperCpp_attributed. }
  intros local Hlocal. engine_step; [by engine_auto|].
  engine_step; [unfold noProviders; by engine_auto|].
  engine_step. engine_step.
  - engine_step. engine_step; [|by apply transcribeChunked_attributed].
    eapply spec_bind; [apply readFirstBytes_any|]. intros head _.
    eapply spec_bind; [apply recursive|]. simpl.
    intros partial [_ Hpartial]. by apply spec_ret.
  - engine_step. engine_step.
    eapply spec_bind; [apply recursive|]. simpl.
    intros result [_ Hresult]. by apply spec_ret.
Qed.
End Recursion.

Lemma transcribeMediaWithWhisper_sound (fuel : nat) :
  mediaAttributed True (transcribeMediaWithWhisper (E := E) fuel).
Proof.
  induction fuel as [|fuel IH]; intros args;
    (apply spec_conj; [apply transcribeMediaWithWhisper_spec|]); simpl;
    apply transcribeMediaWithWhisperBody_attributed; intros fileArgs.
  - by intros w.
  - by apply transcribeMediaFileWithWhisperBody_attributed.
Qed.

End AttributionBodies.

(** X16.  The provider a result of [transcribeMediaWithWhisper] names is
    one that could run: a result with a text always names its provider,
    ['openai'] is named only when an OpenAI key was given, and ['fal']
    only when a FAL key was given, on every path, the chunked one
    included. *)
Theorem transcribeMediaWithWhisper_attributed {E : Env} (fuel : nat) (args : MediaArgs E)
    (w w' : World E) (r : WhisperTranscriptionResult) :
  transcribeMediaWithWhisper fuel args w = (Returned r, w') →
  (is_Some (text r) → is_Some (provider r))
  ∧ (provider r = Some OpenAi → truthy (openaiApiKey args) = true)
  ∧ (provider r = Some Fal → truthy (falApiKey args) = true).
Proof.
  intros Hrun.
  by destruct (spec_run _ _ _ _ _ _ (transcribeMediaWithWhisper_sound fuel args) Hrun).
Qed.

Lemma transcribeMediaWithWhisper_attributed_witness :
  let r := {| text := Some "hello"; provider := Some OpenAi; error := None; notes := [] |} in
  (is_Some (text r) → is_Some (provider r))
  ∧ (provider r = Some OpenAi → truthy (Some "sk-test") = true)
  ∧ (provider r = Some Fal → truthy None = true).
Proof.
  apply (transcribeMediaWithWhisper_attributed
           (E := scriptedEnv 0 [] [Resolves (Some "hello")]) 1 (withOpenAi _) 0%nat 1%nat).
  reflexivity.
Defined.

(** X17.  The same holds of [transcribeMediaFileWithWhisper]: whether
    the file is sent whole, cut at the upload cap or chunked, a text
    names its provider and a remote provider is named only when its key
    was given. *)
Theorem transcribeMediaFileWithWhisper_attributed {E : Env} (fuel : nat) (args : FileArgs E)
    (w w' : World E) (r : WhisperTranscriptionResult) :
  transcribeMediaFileWithWhisper fuel args w = (Returned r, w') →
  (is_Some (text r) → is_Some (provider r))
  ∧ (provider r = Some OpenAi → truthy (fileOpenaiApiKey args) = true)
  ∧ (provider r = Some Fal → truthy (fileFalApiKey args) = true).
Proof.
  intros Hrun.
  apply (spec_run True _ (attributed (fileOpenaiApiKey args) (fileFalApiKey args))
           _ _ _ (transcribeMediaFileWithWhisperBody_attributed True _
                    (transcribeMediaWithWhisper_sound fuel) args) Hrun).
Qed.

Lemma transcribeMediaFileWithWhisper_attributed_witness :
  let r := {| text := Some "hello"; provider := Some OpenAi; error := None; notes := [] |} in
  (is_Some (text r) → is_Some (provider r))
  ∧ (provider r = Some OpenAi → truthy (Some "sk-test") = true)
  ∧ (provider r = Some Fal → truthy None = true).
Proof.
  apply (transcribeMediaFileWithWhisper_attributed
           (E := scriptedEnv 1000 [] [Resolves (Some "hello")]) 0 (longFile _) 0%nat 1%nat).
  reflexivity.
Defined.

Lemma ifTruthy_false {A} (o : option string) (f : string → A) (g : A) :
  truthy o = false → ifTruthy o f g = g.
Proof.
  unfold ifTruthy. destruct o as [k|]; [|done]. simpl. by destruct (String.eqb k "").
Qed.

Lemma ifTruthy_true {A} (o : option string) (f : string → A) (g : A) :
  truthy o = true → ∃ k, o = Some k ∧ k ≠ "" ∧ ifTruthy o f g = f k.
Proof.
  intros (k & -> & Hk)%truthy_Some. exists k. split_and!; [done..|].
  unfold ifTruthy. apply String.eqb_neq in Hk. by rewrite Hk.
Qed.

(** What the stages do on the paths that skip them. *)
Lemma localStage_not_ready {E : Env} (args : MediaArgs E) (w w1 : World E) :
  isWhisperCppReady w = (Returned false, w1) →
  localStage args w = (Returned (Continue []), w1).
Proof. intros Hready. unfold localStage, bind. by rewrite Hready. Qed.

Lemma sizeStage_within {E : Env}
    (transcribeMediaFile : FileArgs E → M (S := World E) WhisperTranscriptionResult)
    (args : MediaArgs E) (ns : list string) (w : World E) :
  truthy (openaiApiKey args) && (MAX_OPENAI_UPLOAD_BYTES <? byteLength (bytes args))%N = false →
  sizeStage transcribeMediaFile args ns w = (Returned (Continue (bytes args, ns)), w).
Proof. intros Hsmall. unfold sizeStage. by rewrite Hsmall. Qed.

(** The body of [transcribeMediaWithWhisper] once the local attempt and
    the size check are behind: the two remote providers. *)
Lemma transcribeMediaWithWhisperBody_remote {E : Env}
    (transcribeMediaFile : FileArgs E → M (S := World E) WhisperTranscriptionResult)
    (args : MediaArgs E) (w w1 : World E) :
  isWhisperCppReady w = (Returned false, w1) →
  negb (truthy (openaiApiKey args)) && negb (truthy (falApiKey args)) = false →
  truthy (openaiApiKey args) && (MAX_OPENAI_UPLOAD_BYTES <? byteLength (bytes args))%N = false →
  transcribeMediaWithWhisperBody transcribeMediaFile args w
  = (let* first :=
       firstOpenAiAttempt (E := E) (bytes args) (mediaType args) (filename args)
         (openaiApiKey args) [] in
     match first with
     | Return result => ret result
     | Continue openaiError =>
         let st :=
           {| rsBytes := bytes args; rsMediaType := mediaType args;
              rsFilename := filename args; rsOpenaiError := openaiError;
              rsNotes := [] |} in
         let* retried :=
           ifTruthy (openaiApiKey args)
             (λ key,
                match openaiError with
                | Some failure =>
                    if shouldRetryOpenAiViaFfmpeg (E := E) failure then retryOpenAiViaFfmpeg key st
                    else ret (Continue st)
                | None => ret (Continue st)
                end)
             (ret (Continue st)) in
         match retried with
         | Return result => ret result
         | Continue st => falStage (openaiApiKey args) (falApiKey args) st
         end
     end) w1.
Proof.
  intros Hready Hkeys Hsmall. unfold transcribeMediaWithWhisperBody.
  unfold bind at 1. rewrite (localStage_not_ready _ _ _ Hready), Hkeys.
  unfold bind at 1. by rewrite sizeStage_within.
Qed.

Lemma transcribeMediaWithWhisper_unfold {E : Env} (fuel : nat) (args : MediaArgs E) :
  ∃ transcribeMediaFile,
    transcribeMediaWithWhisper fuel args
    = transcribeMediaWithWhisperBody transcribeMediaFile args.
Proof. destruct fuel; by eexists. Qed.

(** X18.  FAL is used for audio only.  When local whisper.cpp is not
    ready, no OpenAI key is set, a FAL key is set and the media type does
    not start with [audio/], the FAL client is not called: the result is
    the error "No transcription providers available" with no provider and
    a note that FAL was skipped for this media type. *)
Theorem transcribeMediaWithWhisper_fal_needs_audio {E : Env} (fuel : nat)
    (args : MediaArgs E) (w w1 : World E) :
  isWhisperCppReady w = (Returned false, w1) →
  truthy (openaiApiKey args) = false → truthy (falApiKey args) = true →
  String.prefix "audio/" (toLowerCase E (mediaType args)) = false →
  transcribeMediaWithWhisper fuel args w
  = (Returned
       {| text := None; provider := None;
          error := Some {| message := "No transcription providers available" |};
          notes := ["Skipping FAL transcription: unsupported mediaType "
                    +:+ mediaType args] |}, w1).
Proof.
  intros Hready Hopenai Hfal Haudio.
  destruct (transcribeMediaWithWhisper_unfold fuel args) as [f ->].
  rewrite (transcribeMediaWithWhisperBody_remote f args w w1 Hready)
    by (by rewrite Hopenai, ?Hfal).
  unfold firstOpenAiAttempt, bind. rewrite !ifTruthy_false by done. simpl.
  rewrite ifTruthy_false by done. simpl.
  unfold falStage. simpl. rewrite Hopenai, Hfal, Haudio. simpl.
  unfold ifTruthy. destruct (falApiKey args) as [key|]; [|done].
  by destruct (String.eqb key "").
Qed.

Lemma transcribeMediaWithWhisper_fal_needs_audio_witness :
  transcribeMediaWithWhisper (E := stagedEnv None false (Resolves None) (Resolves (Some "hi")))
    1 (upload _ "video/mp4" None (Some "fal-key")) 0%nat
  = (Returned
       {| text := None; provider := None;
          error := Some {| message := "No transcription providers available" |};
          notes := ["Skipping FAL transcription: unsupported mediaType " +:+ "video/mp4"] |},
     0%nat).
Proof.
  apply (transcribeMediaWithWhisper_fal_needs_audio
           (E := stagedEnv None false (Resolves None) (Resolves (Some "hi")))
           1 (upload _ "video/mp4" None (Some "fal-key")) 0%nat 0%nat); reflexivity.
Defined.

(** X19.  The two remote providers are tried in order.  When local
    whisper.cpp is not ready, both keys are set, the upload is within the
    cap, the OpenAI call fails for a reason that is not a decoding error
    and the media is audio, the same bytes go to FAL; FAL's text is
    returned with provider ['fal'], and one note records the OpenAI
    failure. *)
Theorem transcribeMediaWithWhisper_falls_back_to_fal {E : Env} (fuel : nat)
    (args : MediaArgs E) (key falKey transcript : string) (failure : thrown)
    (w w1 w2 w3 : World E) :
  isWhisperCppReady w = (Returned false, w1) →
  openaiApiKey args = Some key → key ≠ "" →
  falApiKey args = Some falKey → falKey ≠ "" →
  withinCap (bytes args) →
  transcribeWithOpenAi E (bytes args) (mediaType args) (filename args) key w1
  = (Rejects failure, w2) →
  shouldRetryOpenAiViaFfmpeg (E := E) (wrapError "OpenAI transcription failed" failure)
  = false →
  String.prefix "audio/" (toLowerCase E (mediaType args)) = true →
  transcribeWithFal E (bytes args) (mediaType args) falKey w2
  = (Resolves (Some transcript), w3) →
  transcript ≠ "" →
  transcribeMediaWithWhisper fuel args w
  = (Returned
       {| text := Some transcript; provider := Some Fal; error := None;
          notes := ["OpenAI transcription failed; falling back to FAL: "
                    +:+ message (wrapError "OpenAI transcription failed" failure)] |},
     w3).
Proof.
  intros Hready Hopenai Hkey Hfal HfalKey Hcap Hfirst Hretry Haudio Hsecond Htext.
  apply String.eqb_neq in Hkey, HfalKey, Htext.
  destruct (transcribeMediaWithWhisper_unfold fuel args) as [f ->].
  rewrite (transcribeMediaWithWhisperBody_remote f args w w1 Hready).
  - unfold firstOpenAiAttempt, bind, tryCatch, await, ifTruthy.
    rewrite Hopenai, Hkey, Hfirst. simpl. rewrite Hretry. simpl.
    unfold falStage, tryCatch, bind, await, ifTruthy. simpl.
    rewrite Hfal, Haudio. simpl. rewrite HfalKey. simpl.
    by rewrite Hsecond, Htext.
  - rewrite Hopenai. simpl. by rewrite Hkey.
  - apply andb_false_iff. right. apply N.ltb_ge. apply Hcap.
Qed.

Lemma transcribeMediaWithWhisper_falls_back_to_fal_witness :
  transcribeMediaWithWhisper
    (E := stagedEnv None false (Rejects (ThrownError {| message := "HTTP 500" |}))
            (Resolves (Some "from fal")))
    1 (upload _ "audio/mpeg" (Some "sk-test") (Some "fal-key")) 0%nat
  = (Returned
       {| text := Some "from fal"; provider := Some Fal; error := None;
          notes := ["OpenAI transcription failed; falling back to FAL: "
                    +:+ message (wrapError "OpenAI transcription failed"
                                   (ThrownError {| message := "HTTP 500" |}))] |},
     2%nat).
Proof.
  apply (transcribeMediaWithWhisper_falls_back_to_fal
           (E := stagedEnv None false (Rejects (ThrownError {| message := "HTTP 500" |}))
                   (Resolves (Some "from fal")))
           1 (upload _ "audio/mpeg" (Some "sk-test") (Some "fal-key"))
           "sk-test" "fal-key" "from fal" (ThrownError {| message := "HTTP 500" |})
           0%nat 0%nat 1%nat 2%nat); try reflexivity; discriminate.
Defined.

Lemma report_returns {E : Env} (onProgress : option (WhisperProgressEvent → World E → World E))
    (event : WhisperProgressEvent) (w : World E) :
  report onProgress event w = (Returned tt, (report onProgress event w).2).
Proof. unfold report. by destruct onProgress. Qed.

(** The loop adds at most one part per segment, after the parts it
    already has, and counts the segments. *)
Lemma segmentsTranscribed_parts {E : Env}
    (transcribeMedia : MediaArgs E → M (S := World E) WhisperTranscriptionResult)
    (args : FileArgs E) (dir : string) (count : nat) (files : list string) :
  ∀ index parts used w index' parts' used' w',
    segmentsTranscribed transcribeMedia args dir count files index parts used w
    = Some (index', parts', used', w') →
    index' = (index + length files)%nat
    ∧ parts `prefix_of` parts'
    ∧ (length parts' ≤ length parts + length files)%nat.
Proof.
  induction files as [|name rest IH]; intros index parts used w index' parts' used' w'; simpl.
  - intros [= -> -> -> ->]. split_and!; [lia|done|lia].
  - destruct (fsReadFile E (pathJoin E dir name) w) as [[segmentBytes|t] w1]; [|done].
    destruct (transcribeMedia (segmentArgs args name segmentBytes) w1) as [[result| |] w2];
      [|done|done].
    destruct (bool_decide _ && _); [done|].
    intros (-> & Hprefix & Hlength)%IH. split_and!; [lia| |].
    + etransitivity; [|exact Hprefix]. unfold ifTruthy.
      destruct (text result) as [t|]; [|done].
      destruct (String.eqb t ""); [done|]. by apply prefix_app_r.
    + etransitivity; [exact Hlength|]. unfold ifTruthy.
      destruct (text result) as [t|]; [|lia].
      destruct (String.eqb t ""); [lia|]. rewrite length_app. simpl. lia.
Qed.

(** The loop over segments that are all transcribed. *)
Lemma transcribeSegments_all {E : Env}
    (transcribeMedia : MediaArgs E → M (S := World E) WhisperTranscriptionResult)
    (args : FileArgs E) (dir : string) (ns : list string) (count : nat)
    (resultOf : string → WhisperTranscriptionResult) (files : list string) :
  (∀ name, name ∈ files → truthy (text (resultOf name)) = true) →
  (∀ name w, name ∈ files →
     ∃ b w1 w2,
       fsReadFile E (pathJoin E dir name) w = (Resolves b, w1)
       ∧ transcribeMedia (segmentArgs args name b) w1 = (Returned (resultOf name), w2)) →
  ∀ index parts used w,
    ∃ w',
      transcribeSegments transcribeMedia args dir ns count files index parts used w
      = (Returned
           {| text := Some (String.concat (newline +:+ newline)
                              (parts ++ ((λ name, textOf (resultOf name)) <$> files)));
              provider := firstProvider resultOf used files;
              error := None; notes := ns |}, w').
Proof.
  induction files as [|name rest IH]; intros Htext Hrun index parts used w; simpl.
  { rewrite app_nil_r. by eexists. }
  destruct (Hrun name w) as (b & w1 & w2 & Hread & Hmedia); [apply list_elem_of_here|].
  pose proof (Htext name (list_elem_of_here _ _)) as Hname.
  unfold bind at 1, await. rewrite Hread. unfold bind at 1. rewrite Hmedia, Hname.
  rewrite andb_false_r. unfold bind. rewrite report_returns.
  destruct (IH (λ n Hn, Htext n (list_elem_of_further _ _ _ Hn))
               (λ n w0 Hn, Hrun n w0 (list_elem_of_further _ _ _ Hn))
               (S index)
               (ifTruthy (text (resultOf name)) (λ t, parts ++ [t]) parts)
               (match used with Some p => Some p | None => provider (resultOf name) end)
               (report (fileOnProgress args) (segmentProgress args count index) w2).2)
    as [w' Hrest].
  exists w'. rewrite Hrest. do 3 f_equal.
  destruct (truthy_Some _ Hname) as (t & Ht & Hne). unfold textOf, ifTruthy. rewrite Ht.
  apply String.eqb_neq in Hne. rewrite Hne. simpl. by rewrite <- app_assoc.
Qed.

(** X20.  The chunked transcription joins the texts of the segments in
    the sorted order of their files.  With a sort that sorts (its output
    is a permutation of its input in the order of [localeCompare]), the
    files transcribed are exactly the names of the directory that start
    with [part-] and end with [.mp3], in sorted order; when each of them
    is read and transcribed to a text, the result is these texts joined
    by blank lines in that order, with the provider of the first segment
    that named one and one more note that counts the segments; the
    segment directory is removed before the result is returned. *)
Theorem transcribeChunked_joins_parts {E : Env}
    (transcribeMedia : MediaArgs E → M (S := World E) WhisperTranscriptionResult)
    (args : FileArgs E) (ns : list string) (dir : string) (names : list string)
    (precedes : relation string) (resultOf : string → WhisperTranscriptionResult)
    (w w1 w2 w3 : World E) :
  let files := segmentFiles (E := E) names in
  (∀ l, Sorted precedes (sortByLocaleCompare E l) ∧ sortByLocaleCompare E l ≡ₚ l) →
  fsMkdtemp E (pathJoin E (tmpdir E w) "summarize-whisper-segments-") w = (Resolves dir, w1) →
  runFfmpegSegment (filePath args) (pathJoin E dir "part-%03d.mp3") (segmentSeconds args) w1
  = (Returned tt, w2) →
  fsReaddir E dir w2 = (Resolves names, w3) →
  files ≠ [] →
  (∀ name, name ∈ files → truthy (text (resultOf name)) = true) →
  (∀ name w, name ∈ files →
     ∃ b w1 w2,
       fsReadFile E (pathJoin E dir name) w = (Resolves b, w1)
       ∧ transcribeMedia (segmentArgs args name b) w1 = (Returned (resultOf name), w2)) →
  (∃ w',
     transcribeChunked transcribeMedia args ns w
     = (Returned
          {| text := Some (String.concat (newline +:+ newline)
                             ((λ name, textOf (resultOf name)) <$> files));
             provider := firstProvider resultOf None files;
             error := None;
             notes := ns ++ [chunkedNote args files] |},
        fsRm E dir w'))
  ∧ Sorted precedes files
  ∧ (∀ name, name ∈ files
       ↔ name ∈ names ∧ String.prefix "part-" name = true ∧ endsWith name ".mp3" = true).
Proof.
  intros files Hsort Hmkdtemp Hsegment Hreaddir Hsome Htext Hrun. split_and!.
  - destruct (transcribeSegments_all transcribeMedia args dir
                (ns ++ [chunkedNote args files]) (length files) resultOf files Htext Hrun
                0%nat [] None
                (report (fileOnProgress args) (chunkedProgress args files) w3).2)
      as [w' Hloop].
    exists w'. unfold transcribeChunked, tryFinally, bind, ask, await at 1.
    rewrite Hmkdtemp, Hsegment. unfold await at 1. rewrite Hreaddir. fold files.
    rewrite bool_decide_eq_false_2 by by destruct files.
    rewrite report_returns. by rewrite Hloop.
  - apply Hsort.
  - intros name. unfold files, segmentFiles.
    rewrite (proj2 (Hsort _)), list_elem_of_In, filter_In, <- list_elem_of_In.
    by rewrite andb_true_iff.
Qed.

#[local] Instance byCodeUnits_total : Total byCodeUnits.
Proof. intros a b. apply String.leb_total. Qed.

Lemma transcribeChunked_joins_parts_witness :
  let E := flakyEnv 0 true (MAX_OPENAI_UPLOAD_BYTES + 1)
             ["part-001.mp3"; "notes.txt"; "part-000.mp3"] in
  let files := ["part-000.mp3"; "part-001.mp3"] in
  (∃ w',
     transcribeChunked (transcribeMediaWithWhisper (E := E) 0) (longFile E) [] 0%nat
     = (Returned
          {| text := Some (String.concat (newline +:+ newline)
                             ["text of part-000.mp3"; "text of part-001.mp3"]);
             provider := Some OpenAi;
             error := None;
             notes := [] ++ [chunkedNote (longFile E) files] |},
        fsRm E "/tmp/summarize-whisper-segments-XXXXXX" w'))
  ∧ Sorted byCodeUnits files
  ∧ (∀ name, name ∈ files
       ↔ name ∈ ["part-001.mp3"; "notes.txt"; "part-000.mp3"]
         ∧ String.prefix "part-" name = true ∧ endsWith name ".mp3" = true).
Proof.
  intros E files.
  apply (transcribeChunked_joins_parts (E := E) (transcribeMediaWithWhisper 0)
           (longFile E) [] "/tmp/summarize-whisper-segments-XXXXXX"
           ["part-001.mp3"; "notes.txt"; "part-000.mp3"] byCodeUnits segmentResult
           0%nat 0%nat 0%nat 0%nat).
  - intros l. split; [apply (Sorted_merge_sort byCodeUnits)|].
    apply merge_sort_Permutation.
  - reflexivity.
  - reflexivity.
  - reflexivity.
  - discriminate.
  - reflexivity.
  - intros name w _. exists [], w, (S w). split; reflexivity.
Defined.

(** X21.  When ffmpeg leaves no file named [part-*.mp3] in the segment
    directory, the chunked transcription calls no provider: it returns
    the error "ffmpeg produced no audio segments" with no provider and the
    notes it was given, and removes the directory. *)
Theorem transcribeChunked_no_segments {E : Env}
    (transcribeMedia : MediaArgs E → M (S := World E) WhisperTranscriptionResult)
    (args : FileArgs E) (ns : list string) (dir : string) (names : list string)
    (w w1 w2 w3 : World E) :
  fsMkdtemp E (pathJoin E (tmpdir E w) "summarize-whisper-segments-") w = (Resolves dir, w1) →
  runFfmpegSegment (filePath args) (pathJoin E dir "part-%03d.mp3") (segmentSeconds args) w1
  = (Returned tt, w2) →
  fsReaddir E dir w2 = (Resolves names, w3) →
  segmentFiles (E := E) names = [] →
  transcribeChunked transcribeMedia args ns w
  = (Returned
       {| text := None; provider := None;
          error := Some {| message := "ffmpeg produced no audio segments" |};
          notes := ns |},
     fsRm E dir w3).
Proof.
  intros Hmkdtemp Hsegment Hreaddir Hfiles.
  unfold transcribeChunked, tryFinally, bind, ask, await at 1.
  rewrite Hmkdtemp, Hsegment. unfold await at 1. by rewrite Hreaddir, Hfiles.
Qed.

Lemma transcribeChunked_no_segments_witness :
  let E := scriptedEnv 30000000 ["notes.txt"; "part-000.wav"] [] in
  transcribeChunked (transcribeMediaWithWhisper (E := E) 0) (longFile E) [] 0%nat
  = (Returned
       {| text := None; provider := None;
          error := Some {| message := "ffmpeg produced no audio segments" |};
          notes := [] |},
     0%nat).
Proof.
  intros E.
  apply (transcribeChunked_no_segments (E := E) (transcribeMediaWithWhisper 0)
           (longFile E) [] "/tmp/summarize-whisper-segments-XXXXXX"
           ["notes.txt"; "part-000.wav"] 0%nat 0%nat 0%nat 0%nat); reflexivity.
Defined.

Lemma sliceTo_prefix (n : N) (b : Bytes) : sliceTo n b `prefix_of` b.
Proof.
  revert n. induction b as [|x b IH]; intros n; simpl; [done|].
  destruct (n =? 0)%N; [apply prefix_nil|]. by apply prefix_cons.
Qed.



(** X24.  Local whisper.cpp comes first.  When it is ready and its
    transcription of the temporary copy of the upload yields text, this
    result is returned as it is and the copy is removed; no remote
    provider is consulted, whatever keys are set. *)
Theorem transcribeMediaWithWhisper_local_first {E : Env} (fuel : nat) (args : MediaArgs E)
    (tempFile : string) (local : WhisperTranscriptionResult) (w w1 w2 w3 w4 : World E) :
  let nameHint :=
    match filename args with
    | Some f => if String.eqb (trim E f) "" then "media" else trim E f
    | None => "media"
    end in
  isWhisperCppReady w = (Returned true, w1) →
  tempPath "summarize-whisper-local-"
    ("-" +:+ ensureWhisperFilenameExtension E nameHint (mediaType args)) w1
  = (Returned tempFile, w2) →
  fsWriteFile E tempFile (bytes args) w2 = (Resolves tt, w3) →
  transcribeWithWhisperCppFile tempFile (mediaType args) (mediaTotalDurationSeconds args)
    (onProgress args) w3 = (Returned local, w4) →
  truthy (text local) = true →
  transcribeMediaWithWhisper fuel args w = (Returned local, fsUnlink E tempFile w4).
Proof.
  intros nameHint Hready Htemp Hwrite Hlocal Htext.
  destruct (transcribeMediaWithWhisper_unfold fuel args) as [f ->].
  unfold transcribeMediaWithWhisperBody, localStage.
  unfold bind at 1 2. rewrite Hready. unfold bind at 1. fold nameHint. rewrite Htemp.
  unfold tryFinally, bind, await, tryWhisperCpp, tryCatch.
  rewrite Hwrite, Hlocal. unfold afterWhisperCpp. rewrite Htext. simpl.
  by destruct local.
Qed.

Lemma transcribeMediaWithWhisper_local_first_witness :
  let E := stagedEnv (Some "/models/ggml-base.bin") false
             (Resolves (Some "from openai")) (Resolves (Some "from fal")) in
  transcribeMediaWithWhisper (E := E) 1
    (upload E "audio/mpeg" (Some "sk-test") (Some "fal-key")) 0%nat
  = (Returned
       {| text := Some "local text"; provider := Some WhisperCpp; error := None;
          notes := [] ++ ["whisper.cpp: model=" +:+ "/models/ggml-base.bin"] |},
     fsUnlink E
       "/tmp/summarize-whisper-local-00000000-0000-4000-8000-000000000000-talk" 0%nat).
Proof.
  intros E.
  apply (transcribeMediaWithWhisper_local_first (E := E) 1
           (upload E "audio/mpeg" (Some "sk-test") (Some "fal-key"))
           "/tmp/summarize-whisper-local-00000000-0000-4000-8000-000000000000-talk"
           _ 0%nat 0%nat 0%nat 0%nat 0%nat); reflexivity.
Defined.

(** *** How deep the two functions call each other *)

Lemma bind_ext {S A B} (m : M (S := S) A) (k1 k2 : A → M (S := S) B) (s : S) :
  (∀ a s', k1 a s' = k2 a s') → bind m k1 s = bind m k2 s.
Proof. intros Hk. unfold bind. by destruct (m s) as [[a| |] s']. Qed.

Lemma tryFinally_ext {S A} (m1 m2 : M (S := S) A) (cleanup : S → S) (s : S) :
  m1 s = m2 s → tryFinally m1 cleanup s = tryFinally m2 cleanup s.
Proof. intros Hm. unfold tryFinally. by rewrite Hm. Qed.

Section Depth.
Context {E : Env}.
Hypothesis readsWithinCap :
  ∀ path w b w', fsReadFile E path w = (Resolves b, w') → withinCap b.

(** An upload within the cap never reaches the file function. *)
Lemma transcribeMediaWithWhisperBody_within
    (f g : FileArgs E → M (S := World E) WhisperTranscriptionResult)
    (args : MediaArgs E) (w : World E) :
  withinCap (bytes args) →
  transcribeMediaWithWhisperBody f args w = transcribeMediaWithWhisperBody g args w.
Proof.
  intros Hcap. unfold transcribeMediaWithWhisperBody.
  apply bind_ext. intros [r|ns] w1; [done|].
  destruct (negb _ && negb _); [done|].
  unfold bind at 1. rewrite sizeStage_within.
  - symmetry. unfold bind at 1. rewrite sizeStage_within; [done|].
    apply andb_false_iff. right. by apply N.ltb_ge.
  - apply andb_false_iff. right. by apply N.ltb_ge.
Qed.

Lemma sizeStage_ext (f g : FileArgs E → M (S := World E) WhisperTranscriptionResult)
    (args : MediaArgs E) (ns : list string) (w : World E) :
  (∀ fileArgs w, f fileArgs w = g fileArgs w) →
  sizeStage f args ns w = sizeStage g args ns w.
Proof.
  intros Hfg. unfold sizeStage. destruct (_ && _); [|done].
  apply bind_ext. intros [|] w1; [|done].
  apply bind_ext. intros tempFile w2. apply tryFinally_ext.
  apply bind_ext. intros _ w3. unfold bind. by rewrite Hfg.
Qed.

Lemma transcribeMediaWithWhisperBody_ext
    (f g : FileArgs E → M (S := World E) WhisperTranscriptionResult)
    (args : MediaArgs E) (w : World E) :
  (∀ fileArgs w, f fileArgs w = g fileArgs w) →
  transcribeMediaWithWhisperBody f args w = transcribeMediaWithWhisperBody g args w.
Proof.
  intros Hfg. unfold transcribeMediaWithWhisperBody.
  apply bind_ext. intros [r|ns] w1; [done|].
  destruct (negb _ && negb _); [done|].
  unfold bind at 1. rewrite (sizeStage_ext f g) by done. done.
Qed.

Section Callee.
Variables tm1 tm2 : MediaArgs E → M (S := World E) WhisperTranscriptionResult.
Hypothesis agree : ∀ args w, withinCap (bytes args) → tm1 args w = tm2 args w.

Lemma transcribeSegments_ext (args : FileArgs E) (dir : string) (ns : list string)
    (count : nat) (files : list string) :
  ∀ index parts used w,
    transcribeSegments tm1 args dir ns count files index parts used w
    = transcribeSegments tm2 args dir ns count files index parts used w.
Proof.
  induction files as [|name rest IH]; intros index parts used w; simpl; [done|].
  unfold bind at 1. symmetry. unfold bind at 1. symmetry. unfold await.
  destruct (fsReadFile E (pathJoin E dir name) w) as [[segmentBytes|t] w1] eqn:Hread;
    [|done].
  apply readsWithinCap in Hread.
  unfold bind at 1. rewrite agree by done.
  apply bind_ext. intros result w2.
  destruct (bool_decide _ && _); [done|].
  apply bind_ext. intros _ w3. apply IH.
Qed.

Lemma transcribeChunked_ext (args : FileArgs E) (ns : list string) (w : World E) :
  transcribeChunked tm1 args ns w = transcribeChunked tm2 args ns w.
Proof.
  unfold transcribeChunked.
  apply bind_ext. intros tmp w0. apply bind_ext. intros dir w1.
  apply tryFinally_ext. apply bind_ext. intros _ w2. apply bind_ext. intros names w3.
  case_bool_decide; [done|]. apply bind_ext. intros _ w4.
  apply transcribeSegments_ext.
Qed.

Lemma transcribeMediaFileWithWhisperBody_ext (args : FileArgs E) (w : World E) :
  transcribeMediaFileWithWhisperBody tm1 args w
  = transcribeMediaFileWithWhisperBody tm2 args w.
Proof.
  unfold transcribeMediaFileWithWhisperBody.
  apply bind_ext. intros ready w1. apply bind_ext. intros [r|ns] w2; [done|].
  destruct (negb _ && negb _); [done|].
  apply bind_ext. intros size w3.
  destruct (_ && _).
  - apply bind_ext. intros [|] w4; simpl; [apply transcribeChunked_ext|].
    unfold readFirstBytes, bind at 1 2.
    symmetry. unfold bind at 1 2. symmetry.
    destruct (await _ w4) as [[b| |] w5]; [|done|done].
    unfold ret at 1 2. unfold bind. rewrite agree; [done|]. apply sliceTo_length.
  - unfold bind at 1. symmetry. unfold bind at 1. symmetry. unfold await.
    destruct (fsReadFile E (filePath args) w3) as [[b|t] w4] eqn:Hread; [|done].
    apply readsWithinCap in Hread.
    apply bind_ext. intros _ w5. unfold bind. by rewrite agree.
Qed.
End Callee.

Lemma transcribeMediaWithWhisper_depth (fuel : nat) (args : MediaArgs E) (w : World E) :
  transcribeMediaWithWhisper (S fuel) args w = transcribeMediaWithWhisper 1 args w.
Proof.
  simpl. apply transcribeMediaWithWhisperBody_ext. intros fileArgs w0.
  apply transcribeMediaFileWithWhisperBody_ext. intros a w1 Hcap.
  destruct fuel; [done|]. simpl. by apply transcribeMediaWithWhisperBody_within.
Qed.

End Depth.

(** X25.  The two functions call each other at most one level deep when
    every file read back (the segments ffmpeg cut, in particular) is
    within the upload cap: a chunked upload's segments are transcribed
    without being chunked again.  In the model, one level of fuel gives
    the same run as any larger amount, and that run returns or throws. *)
Theorem transcribeMediaWithWhisper_one_level {E : Env} (fuel : nat) (args : MediaArgs E)
    (w : World E) :
  (∀ path w b w', fsReadFile E path w = (Resolves b, w') → withinCap b) →
  transcribeMediaWithWhisper (S fuel) args w = transcribeMediaWithWhisper 1 args w
  ∧ (transcribeMediaWithWhisper 1 args w).1 ≠ OutOfFuel.
Proof.
  intros Hread. split.
  - by apply transcribeMediaWithWhisper_depth.
  - by apply transcribeMediaWithWhisper_enough_fuel.
Qed.

Lemma transcribeMediaWithWhisper_one_level_witness :
  let E := scriptedEnv 0 [] [Resolves (Some "hello")] in
  transcribeMediaWithWhisper (E := E) 4 (withOpenAi E) 0%nat
  = transcribeMediaWithWhisper 1 (withOpenAi E) 0%nat
  ∧ (transcribeMediaWithWhisper 1 (withOpenAi E) 0%nat).1 ≠ OutOfFuel.
Proof.
  intros E. apply (transcribeMediaWithWhisper_one_level (E := E) 3 (withOpenAi E) 0%nat).
  intros path w b w' Hread. injection Hread as <- _. vm_compute. discriminate.
Defined.

End WhisperMore.

(** * What becomes of the notes *)

Module WhisperNotes.
Import Js Whisper WhisperFacts WhisperMore.
Local Open Scope js_scope.

Lemma byteLength_bigUpload : byteLength bigUpload = (MAX_OPENAI_UPLOAD_BYTES + 1)%N.
Proof.
  with_strategy transparent [bigUpload] (unfold bigUpload).
  unfold byteLength. by rewrite repeat_length, N2Nat.id.
Qed.

#[local] Hint Resolve spec_ret spec_throw spec_effect spec_await_any spec_perform spec_ask
  spec_report spec_tempPath spec_isWhisperCppReady transcodeBytesToMp3_spec : engine.

Ltac prefix_solve :=
  simpl; rewrite <- ?(assoc_L (++));
  first [done | by apply prefix_app_r | by eexists | by auto with engine].

Section Notes.
Context {E : Env}.

Lemma firstOpenAiAttempt_notes oof (b : Bytes) (mediaType : string) (filename : option string)
    (key : option string) (ns : list string) :
  spec oof (firstOpenAiAttempt (E := E) b mediaType filename key ns)
    (stepping (λ r, notes r = ns) (λ _, True)).
Proof. unfold firstOpenAiAttempt. repeat engine_step; prefix_solve. Qed.

Lemma retryOpenAiViaFfmpeg_notes oof (key : string) (st : RemoteState) :
  spec oof (retryOpenAiViaFfmpeg (E := E) key st)
    (stepping (λ r, rsNotes st `prefix_of` notes r)
       (λ st', rsNotes st `prefix_of` rsNotes st')).
Proof.
  unfold retryOpenAiViaFfmpeg.
  engine_step. engine_step; [|engine_step; prefix_solve].
  engine_step; [|engine_step; prefix_solve].
  eapply spec_bind; [apply transcodeBytesToMp3_spec|]. intros mp3Bytes _.
  engine_step. engine_step; engine_step; prefix_solve.
Qed.

Lemma falStage_notes oof (openaiApiKey falApiKey : option string) (st : RemoteState) :
  spec oof (falStage (E := E) openaiApiKey falApiKey st)
    (λ r, rsNotes st `prefix_of` notes r).
Proof. unfold falStage. repeat engine_step; prefix_solve. Qed.

(** The size check goes on with the upload, or with its head and one
    more note; it hands over to the chunked transcription only for an
    oversized upload with ffmpeg installed. *)
Lemma sizeStage_continue
    (transcribeMediaFile : FileArgs E → M (S := World E) WhisperTranscriptionResult)
    (args : MediaArgs E) (ns : list string) (w w' : World E)
    (sent : Bytes) (ns' : list string) :
  sizeStage transcribeMediaFile args ns w = (Returned (Continue (sent, ns')), w') →
  (oversized args = false → sent = bytes args ∧ ns' = ns)
  ∧ (oversized args = true →
     sent = sliceTo MAX_OPENAI_UPLOAD_BYTES (bytes args)
     ∧ ns' = ns ++ [tooLargeNote args]
     ∧ isFfmpegAvailable E w = (false, w')).
Proof.
  unfold sizeStage, oversized. destruct (_ && _).
  - unfold bind at 1, perform at 1.
    destruct (isFfmpegAvailable E w) as [[|] w1].
    + unfold bind at 1. destruct (tempPath _ _ w1) as [[tempFile| |] w2]; [|done|done].
      unfold tryFinally, bind.
      destruct (await (fsWriteFile E tempFile (bytes args)) w2) as [[[]| |] w3];
        [|done|done].
      by destruct (transcribeMediaFile _ w3) as [[chunked| |] w4].
    + intros [= <- <- <-]. by split.
  - intros [= <- <- <-]. by split.
Qed.

Lemma sizeStage_return
    (transcribeMediaFile : FileArgs E → M (S := World E) WhisperTranscriptionResult)
    (args : MediaArgs E) (ns : list string) (w w' : World E)
    (chunked : WhisperTranscriptionResult) :
  sizeStage transcribeMediaFile args ns w = (Returned (Return chunked), w') →
  oversized args = true ∧ (isFfmpegAvailable E w).1 = true.
Proof.
  unfold sizeStage, oversized. destruct (_ && _); [|done].
  unfold bind at 1, perform at 1.
  destruct (isFfmpegAvailable E w) as [[|] w1]; [done|]. by intros [=].
Qed.

Lemma sizeStage_hands_over
    (transcribeMediaFile : FileArgs E → M (S := World E) WhisperTranscriptionResult)
    (args : MediaArgs E) (ns : list string) (tempFile : string)
    (chunked : WhisperTranscriptionResult) (w w1 w2 w3 w4 : World E) :
  oversized args = true →
  isFfmpegAvailable E w = (true, w1) →
  tempPath "summarize-whisper-" "" w1 = (Returned tempFile, w2) →
  fsWriteFile E tempFile (bytes args) w2 = (Resolves tt, w3) →
  transcribeMediaFile
    {| filePath := tempFile; fileMediaType := mediaType args;
       fileFilename := filename args; fileOpenaiApiKey := openaiApiKey args;
       fileFalApiKey := falApiKey args; segmentSeconds := DEFAULT_SEGMENT_SECONDS;
       fileTotalDurationSeconds := None; fileOnProgress := onProgress args |} w3
  = (Returned chunked, w4) →
  sizeStage transcribeMediaFile args ns w
  = (Returned (Return chunked), fsUnlink E tempFile w4).
Proof.
  intros Hover Hffmpeg Htemp Hwrite Hfile. unfold sizeStage. unfold oversized in Hover.
  rewrite Hover. unfold bind at 1, perform. rewrite Hffmpeg.
  unfold bind at 1. rewrite Htemp.
  unfold tryFinally, bind, await. by rewrite Hwrite, Hfile.
Qed.

Lemma sizeStage_cuts
    (transcribeMediaFile : FileArgs E → M (S := World E) WhisperTranscriptionResult)
    (args : MediaArgs E) (ns : list string) (w w1 : World E) :
  oversized args = true →
  isFfmpegAvailable E w = (false, w1) →
  sizeStage transcribeMediaFile args ns w
  = (Returned (Continue (sliceTo MAX_OPENAI_UPLOAD_BYTES (bytes args),
                         ns ++ [tooLargeNote args])), w1).
Proof.
  intros Hover Hffmpeg. unfold sizeStage. unfold oversized in Hover.
  rewrite Hover. unfold bind at 1, perform. by rewrite Hffmpeg.
Qed.

(** The remote providers keep the notes they start with, in front. *)
Lemma remote_notes (args : MediaArgs E) (sent : Bytes) (ns : list string) :
  spec True
    (let* first :=
       firstOpenAiAttempt (E := E) sent (mediaType args) (filename args)
         (openaiApiKey args) ns in
     match first with
     | Return result => ret result
     | Continue openaiError =>
         let st :=
           {| rsBytes := sent; rsMediaType := mediaType args;
              rsFilename := filename args; rsOpenaiError := openaiError;
              rsNotes := ns |} in
         let* retried :=
           ifTruthy (openaiApiKey args)
             (λ key,
                match openaiError with
                | Some failure =>
                    if shouldRetryOpenAiViaFfmpeg (E := E) failure
                    then retryOpenAiViaFfmpeg key st
                    else ret (Continue st)
                | None => ret (Continue st)
                end)
             (ret (Continue st)) in
         match retried with
         | Return result => ret result
         | Continue st => falStage (openaiApiKey args) (falApiKey args) st
         end
     end)
    (λ r, ns `prefix_of` notes r).
Proof.
  eapply spec_bind; [apply firstOpenAiAttempt_notes|]. intros [res|openaiError] Hfirst;
    simpl in Hfirst.
  { apply spec_ret. by rewrite Hfirst. }
  eapply spec_bind
    with (Q := stepping (λ r, ns `prefix_of` notes r) (λ st', ns `prefix_of` rsNotes st')).
  { apply spec_ifTruthy_eq; [intros key _ _|intros _]; [|apply spec_ret; prefix_solve].
    destruct openaiError as [failure|]; [|apply spec_ret; prefix_solve].
    destruct (shouldRetryOpenAiViaFfmpeg failure); [|apply spec_ret; prefix_solve].
    apply retryOpenAiViaFfmpeg_notes. }
  intros [res|st'] Hretried; simpl in Hretried; [by apply spec_ret|].
  eapply spec_weaken; [apply falStage_notes|]. intros r Hr. by etransitivity.
Qed.

Lemma transcribeMediaWithWhisperBody_notes
    (transcribeMediaFile : FileArgs E → M (S := World E) WhisperTranscriptionResult)
    (args : MediaArgs E) (w w' : World E) (r : WhisperTranscriptionResult) :
  transcribeMediaWithWhisperBody transcribeMediaFile args w = (Returned r, w') →
  ∀ ns w1, localStage args w = (Returned (Continue ns), w1) →
    (oversized args = false → ns `prefix_of` notes r)
    ∧ (oversized args = true → (isFfmpegAvailable E w1).1 = false →
       (ns ++ [tooLargeNote args]) `prefix_of` notes r).
Proof.
  intros Hrun ns w1 Hlocal. unfold transcribeMediaWithWhisperBody in Hrun.
  unfold bind at 1 in Hrun. rewrite Hlocal in Hrun.
  destruct (negb (truthy (openaiApiKey args)) && _) eqn:Hkeys.
  { injection Hrun as <- _. unfold oversized. split; [done|].
    apply andb_true_iff in Hkeys as [Hkey%negb_true_iff _]. by rewrite Hkey. }
  unfold bind at 1 in Hrun.
  destruct (sizeStage transcribeMediaFile args ns w1) as [[[chunked|[sent ns1]]| |] w2]
    eqn:Hsize; [| |done|done].
  { apply sizeStage_return in Hsize as [Hover Hffmpeg].
    split; intros; congruence. }
  pose proof (spec_run True _ (λ r, ns1 `prefix_of` notes r) _ _ _
                (remote_notes args sent ns1) Hrun) as Hnotes.
  apply sizeStage_continue in Hsize as [Hwithin Hover]. split.
  - intros Hsmall. by destruct (Hwithin Hsmall) as [_ <-].
  - intros Hbig _. by destruct (Hover Hbig) as (_ & <- & _).
Qed.
End Notes.



Lemma sliceTo_exact (n : N) (b : Bytes) :
  (n ≤ byteLength b)%N → byteLength (sliceTo n b) = n.
Proof.
  unfold byteLength. revert n. induction b as [|x b IH]; intros n Hn; simpl in *; [lia|].
  destruct (N.eqb_spec n 0) as [->|Hpos]; simpl; [done|].
  specialize (IH (N.pred n)). lia.
Qed.

(** X22.  Without ffmpeg an upload over the cap is cut, and the cut is
    noted.  When local whisper.cpp is not ready, an OpenAI key is set,
    the upload has more than [MAX_OPENAI_UPLOAD_BYTES] bytes and ffmpeg
    is not installed, the OpenAI client is called with exactly the first
    [MAX_OPENAI_UPLOAD_BYTES] bytes of the upload, and its transcript is
    returned with provider ['openai'] and the note "Media too large for
    Whisper upload ...". *)
Theorem transcribeMediaWithWhisper_cuts_to_cap {E : Env} (fuel : nat) (args : MediaArgs E)
    (key transcript : string) (w w1 w2 w3 : World E) :
  let head := sliceTo MAX_OPENAI_UPLOAD_BYTES (bytes args) in
  isWhisperCppReady w = (Returned false, w1) →
  openaiApiKey args = Some key → key ≠ "" →
  (MAX_OPENAI_UPLOAD_BYTES < byteLength (bytes args))%N →
  isFfmpegAvailable E w1 = (false, w2) →
  transcribeWithOpenAi E head (mediaType args) (filename args) key w2
  = (Resolves (Some transcript), w3) →
  transcript ≠ "" →
  transcribeMediaWithWhisper fuel args w
  = (Returned
       {| text := Some transcript; provider := Some OpenAi; error := None;
          notes := [tooLargeNote args] |}, w3)
  ∧ head `prefix_of` bytes args
  ∧ byteLength head = MAX_OPENAI_UPLOAD_BYTES
  ∧ head ≠ bytes args.
Proof.
  intros head Hready Hopenai Hkey Hsize Hffmpeg Hcall Htext.
  assert (Hlength : byteLength head = MAX_OPENAI_UPLOAD_BYTES).
  { apply sliceTo_exact. lia. }
  assert (Hover : oversized args = true).
  { unfold oversized. rewrite Hopenai. simpl. apply String.eqb_neq in Hkey.
    rewrite Hkey. simpl. by apply N.ltb_lt. }
  split_and!; [|apply sliceTo_prefix|done|intros Hsame; rewrite Hsame in Hlength; lia].
  apply String.eqb_neq in Hkey, Htext.
  destruct (transcribeMediaWithWhisper_unfold fuel args) as [f ->].
  unfold transcribeMediaWithWhisperBody. unfold bind at 1.
  rewrite (localStage_not_ready _ _ _ Hready). cbv beta iota.
  assert (Hkeys : negb (truthy (openaiApiKey args)) && negb (truthy (falApiKey args))
                  = false).
  { rewrite Hopenai. simpl. by rewrite Hkey. }
  rewrite Hkeys. unfold bind at 1.
  rewrite (sizeStage_cuts f args [] w1 w2 Hover Hffmpeg). cbv beta iota.
  fold head. unfold firstOpenAiAttempt, bind, tryCatch, await, ifTruthy.
  by rewrite Hopenai, Hkey, Hcall, Htext.
Qed.

Lemma transcribeMediaWithWhisper_cuts_to_cap_witness :
  let E := stagedEnv None false (Resolves (Some "from openai")) (Resolves None) in
  let args := keyed E bigUpload in
  let head := sliceTo MAX_OPENAI_UPLOAD_BYTES bigUpload in
  transcribeMediaWithWhisper 1 args 0%nat
  = (Returned
       {| text := Some "from openai"; provider := Some OpenAi; error := None;
          notes := [tooLargeNote args] |}, 1%nat)
  ∧ head `prefix_of` bigUpload
  ∧ byteLength head = MAX_OPENAI_UPLOAD_BYTES
  ∧ head ≠ bigUpload.
Proof.
  intros E args head.
  apply (transcribeMediaWithWhisper_cuts_to_cap (E := E) 1 args "sk-test" "from openai"
           0%nat 0%nat 0%nat 1%nat).
  - reflexivity.
  - reflexivity.
  - discriminate.
  - change (bytes args) with bigUpload. rewrite byteLength_bigUpload. reflexivity.
  - reflexivity.
  - reflexivity.
  - discriminate.
Defined.


End WhisperNotes.

(** * Further properties of the stream reconciler *)

Module StreamingMore.
Import Streaming StreamingFacts.

Lemma normalize_length (s : jsstring) :
  (length (normalizeStreamText s) ≤ length s)%nat.
Proof.
  induction s as [s IH] using (induction_ltof1 _ (@length codeunit)).
  unfold ltof in IH.
  destruct s as [|c rest]; [done|].
  destruct (decide (c = CR)) as [->|Hc].
  - destruct rest as [|c' rest']; [done|].
    destruct (decide (c' = LF)) as [->|Hc'].
    + rewrite normalize_CR_LF. simpl. specialize (IH rest'). simpl in IH. lia.
    + rewrite normalize_CR_other by done. simpl.
      specialize (IH (c' :: rest')). simpl in IH. lia.
  - rewrite normalize_other by done. simpl. specialize (IH rest). simpl in IH. lia.
Qed.

(** X1.  [normalizeStreamText] leaves no carriage return in its output,
    is idempotent, and never makes a string longer. *)
Theorem normalizeStreamText_canonical (s : jsstring) :
  (CR ∉ normalizeStreamText s)
  ∧ normalizeStreamText (normalizeStreamText s) = normalizeStreamText s
  ∧ (length (normalizeStreamText s) ≤ length s)%nat.
Proof.
  split_and!.
  - apply normalize_no_CR.
  - apply normalize_idem.
  - apply normalize_length.
Qed.

(** X2.  [commonPrefixLength a b limit] is at most [limit] and at most
    either length; the two strings agree on that many leading code units;
    the count stops only at the limit, at the end of a string or at a
    difference; and the result does not depend on the order of the two
    strings. *)
Theorem commonPrefixLength_correct (a b : jsstring) (limit : nat) :
  let L := commonPrefixLength a b limit in
  (L ≤ limit)%nat ∧ (L ≤ length a)%nat ∧ (L ≤ length b)%nat
  ∧ take L a = take L b
  ∧ (L = limit ∨ L = length a ∨ L = length b ∨ a !! L ≠ b !! L)
  ∧ commonPrefixLength b a limit = L.
Proof.
  intros L.
  assert (Hspec : ∀ a b, let max := Nat.min (Nat.min (length a) (length b)) limit in
    let L := commonPrefixLength a b limit in
    (L ≤ max)%nat ∧ take L a = take L b ∧ ((L < max)%nat → a !! L ≠ b !! L)).
  { intros a' b'. apply commonPrefixScan_spec; [lia|lia|lia|done]. }
  destruct (Hspec a b) as (Hle & Htake & Hdiff). fold L in Hle, Htake, Hdiff.
  destruct (Hspec b a) as (Hle' & Htake' & Hdiff').
  set (L' := commonPrefixLength b a limit) in *.
  repeat split; try lia; [done| |].
  - destruct (decide (L < Nat.min (Nat.min (length a) (length b)) limit)%nat);
      [auto|lia].
  - (* both counts are the first index where the strings differ *)
    assert (Hagree : ∀ n i, (i < n)%nat → take n a = take n b → a !! i = b !! i).
    { intros n i Hi Hn. transitivity (take n a !! i); [symmetry; by apply lookup_take_lt|].
      rewrite Hn. by apply lookup_take_lt. }
    destruct (Nat.lt_trichotomy L' L) as [Hlt|[Heq|Hgt]]; [|done|].
    + exfalso. apply Hdiff'; [lia|]. symmetry. by apply (Hagree L).
    + exfalso. apply Hdiff; [lia|]. by apply (Hagree L').
Qed.

(** X3.  Whatever the two strings, [appended] is a suffix of [next] and
    a suffix of the normalized chunk: what is handed to the renderer is
    always the tail of the new text and consists of characters of the
    chunk. *)
Theorem mergeStreamingChunk_appended_suffix (previous chunk : jsstring) :
  let r := mergeStreamingChunk previous chunk in
  appended r `suffix_of` next r
  ∧ appended r `suffix_of` normalizeStreamText chunk.
Proof.
  intros r. subst r. unfold mergeStreamingChunk.
  set (prev := normalizeStreamText previous).
  set (nextChunk := normalizeStreamText chunk).
  destruct (overlapLoop_shape prev nextChunk
              (Nat.min (Nat.min (length prev) (length nextChunk)) 2048))
    as (k & _ & ->).
  repeat (case_bool_decide || destruct (startsWith _ _)); simpl;
    split; try apply suffix_nil; try done;
    try apply suffix_drop; try (apply suffix_app_r, suffix_drop || by eexists).
Qed.

Lemma mergeStreamingChunk_keeps_normalized (previous chunk : jsstring) :
  let r := mergeStreamingChunk previous chunk in
  let prev := normalizeStreamText previous in
  let nextChunk := normalizeStreamText chunk in
  (length prev ≤ length (next r))%nat
  ∧ (chunk = [] ∨ prev `prefix_of` next r
     ∨ (nearPrefix prev nextChunk ∧ next r = nextChunk)).
Proof.
  intros r prev nextChunk. subst r. unfold mergeStreamingChunk. fold prev nextChunk.
  case_bool_decide as Hchunk; simpl; [split; [apply normalize_length|by left]|].
  case_bool_decide as Hprev; simpl.
  { rewrite Hprev. split; [simpl; lia|]. right. left. apply prefix_nil. }
  destruct (startsWith nextChunk prev) eqn:Hcum; simpl.
  { apply startsWith_prefix in Hcum. split; [by apply prefix_length|by auto]. }
  destruct (startsWith prev nextChunk) eqn:Hstale; simpl; [by auto|].
  destruct (overlapLoop_shape prev nextChunk
              (Nat.min (Nat.min (length prev) (length nextChunk)) 2048))
    as (k & _ & ->).
  assert (Hstitch : (length prev ≤ length (prev ++ drop k nextChunk))%nat
                    ∧ (chunk = [] ∨ prev `prefix_of` prev ++ drop k nextChunk
                       ∨ (nearPrefix prev nextChunk ∧ prev ++ drop k nextChunk = nextChunk))).
  { split; [rewrite length_app; lia|]. right. left. by apply prefix_app_r. }
  rewrite commonPrefixLength_lcp.
  repeat case_bool_decide; simpl; try done.
  split; [done|]. right. right. split; [|done]. by repeat split.
Qed.

(** X4.  [next] is never shorter than the normalized previous text, so
    the accumulated text never gets shorter when [previous] holds no
    carriage return (with one it can: ["a\r\n"] merged with ["a\n"]
    gives ["a\n"]).  For a non-empty chunk the normalized previous text
    stays a prefix of [next] except in one case: the chunk is a
    near-resend of it, and then [next] is the normalized chunk. *)
Theorem mergeStreamingChunk_keeps_previous (previous chunk : jsstring) :
  let r := mergeStreamingChunk previous chunk in
  let prev := normalizeStreamText previous in
  let nextChunk := normalizeStreamText chunk in
  (length prev ≤ length (next r))%nat
  ∧ (chunk = [] ∨ prev `prefix_of` next r
     ∨ (nearPrefix prev nextChunk ∧ next r = nextChunk))
  ∧ ((CR ∉ previous) → (length previous ≤ length (next r))%nat).
Proof.
  intros r prev nextChunk.
  destruct (mergeStreamingChunk_keeps_normalized previous chunk) as [Hlength Hprefix].
  split_and!; [done|done|].
  intros Hclean. subst prev. by rewrite (normalize_id previous Hclean) in Hlength.
Qed.

(** X5.  A stale resend changes nothing: when the normalized chunk is a
    prefix of the normalized previous text (a duplicate, or an earlier
    part of it), [next] is that previous text and nothing is appended. *)
Theorem mergeStreamingChunk_stale_resend (previous chunk : jsstring) :
  chunk ≠ [] →
  normalizeStreamText chunk `prefix_of` normalizeStreamText previous →
  mergeStreamingChunk previous chunk
  = {| next := normalizeStreamText previous; appended := [] |}.
Proof.
  intros Hchunk Hpre. unfold mergeStreamingChunk.
  set (prev := normalizeStreamText previous) in *.
  set (nextChunk := normalizeStreamText chunk) in *.
  rewrite (bool_decide_eq_false_2 (chunk = [])) by done.
  assert (Hnext : nextChunk ≠ []).
  { intros Hnil. by apply Hchunk, normalize_nil. }
  case_bool_decide as Hprev.
  { rewrite Hprev in Hpre. by apply prefix_nil_inv in Hpre. }
  destruct (startsWith nextChunk prev) eqn:Hcum.
  - apply startsWith_prefix in Hcum.
    assert (Heq : nextChunk = prev).
    { apply (anti_symm prefix); done. }
    by rewrite Heq, drop_all.
  - by rewrite (proj2 (startsWith_prefix _ _) Hpre).
Qed.

Lemma mergeStreamingChunk_stale_resend_witness :
  mergeStreamingChunk (lit "Hello world") (lit "Hello")
  = {| next := lit "Hello world"; appended := [] |}.
Proof.
  apply (mergeStreamingChunk_stale_resend (lit "Hello world") (lit "Hello")).
  - discriminate.
  - apply (bool_decide_unpack _). vm_compute. exact I.
Defined.

Lemma mergeStreamingChunk_snapshot (acc suffix : jsstring) :
  CR ∉ acc → CR ∉ suffix →
  next (mergeStreamingChunk acc (acc ++ suffix)) = acc ++ suffix.
Proof.
  intros Hacc Hsuffix.
  assert (Hboth : CR ∉ acc ++ suffix) by (apply not_elem_of_app; by split).
  unfold mergeStreamingChunk. rewrite (normalize_id _ Hacc), (normalize_id _ Hboth).
  case_bool_decide as Hnil.
  { apply app_nil in Hnil as [Ha Hs]. by rewrite Ha, Hs. }
  case_bool_decide; [done|].
  assert (Hpre : acc `prefix_of` acc ++ suffix) by (by eexists).
  by rewrite (proj2 (startsWith_prefix (acc ++ suffix) acc) Hpre).
Qed.

Lemma mergeAll_snapshots (suffixes : list jsstring) :
  Forall (λ suffix, CR ∉ suffix) suffixes →
  ∀ acc, CR ∉ acc → mergeAll acc (snapshots acc suffixes) = acc ++ concat suffixes.
Proof.
  induction 1 as [|suffix suffixes Hsuffix _ IH]; intros acc Hacc; simpl.
  - by rewrite app_nil_r.
  - rewrite mergeStreamingChunk_snapshot by done.
    rewrite IH, <- ?app_assoc; [done|]. apply not_elem_of_app. by split.
Qed.

(** X6.  A cumulative stream is merged without duplication: when every
    chunk repeats all the text so far and adds a suffix, and no suffix
    contains a carriage return, the merged text is the concatenation of the
    suffixes, that is, the last chunk. *)
Theorem mergeAll_cumulative_stream (suffixes : list jsstring) :
  Forall (λ suffix, CR ∉ suffix) suffixes →
  mergeAll [] (snapshots [] suffixes) = concat suffixes.
Proof. intros H. by apply (mergeAll_snapshots suffixes H []), not_elem_of_nil. Qed.

Lemma mergeAll_cumulative_stream_witness :
  mergeAll [] (snapshots [] [lit "Hello"; lit " world"; lit "!"])
  = concat [lit "Hello"; lit " world"; lit "!"].
Proof.
  apply (mergeAll_cumulative_stream [lit "Hello"; lit " world"; lit "!"]).
  apply (bool_decide_unpack _). vm_compute. exact I.
Defined.

Lemma overlapLoop_longest (prev chunk : jsstring) (len : nat) :
  ∃ k, (k ≤ len)%nat
       ∧ (k = 0%nat ∨ sliceLast k prev = take k chunk)
       ∧ (∀ j, (k < j ≤ len)%nat → sliceLast j prev ≠ take j chunk)
       ∧ overlapLoop prev chunk len
         = {| next := prev ++ drop k chunk; appended := drop k chunk |}.
Proof.
  induction len as [|len (k & Hk & Hmatch & Hlongest & IH)]; simpl.
  - exists 0%nat. repeat split; [lia|by left|intros j; lia].
  - case_bool_decide as Hhere.
    + exists (S len). repeat split; [lia|by right|intros j; lia].
    + exists k. repeat split; [lia|done| |done].
      intros j Hj. destruct (decide (j = S len)) as [->|]; [done|]. apply Hlongest. lia.
Qed.

(** X7.  The overlap stitch.  When neither normalized string is a prefix
    of the other and the chunk is no near-resend, the chunk is stitched on
    at the longest suffix of the previous text, of at most 2048 code units,
    that is a prefix of the chunk: [next] is the previous text without that
    overlap followed by the whole chunk, and [appended] is the chunk
    without the overlap. *)
Theorem mergeStreamingChunk_longest_overlap (previous chunk : jsstring) :
  let prev := normalizeStreamText previous in
  let nextChunk := normalizeStreamText chunk in
  let bound := Nat.min (Nat.min (length prev) (length nextChunk)) 2048 in
  ¬ prev `prefix_of` nextChunk → ¬ nextChunk `prefix_of` prev →
  ¬ nearPrefix prev nextChunk →
  ∃ k, (k ≤ bound)%nat
       ∧ (k = 0%nat ∨ sliceLast k prev = take k nextChunk)
       ∧ (∀ j, (k < j ≤ bound)%nat → sliceLast j prev ≠ take j nextChunk)
       ∧ mergeStreamingChunk previous chunk
         = {| next := take (length prev - k) prev ++ nextChunk;
              appended := drop k nextChunk |}.
Proof.
  intros prev nextChunk bound Hnp1 Hnp2 Hnear.
  destruct (overlapLoop_longest prev nextChunk bound) as (k & Hk & Hmatch & Hlongest & Hloop).
  exists k. split; [done|]. split; [done|]. split; [done|].
  assert (Hchunk : chunk ≠ []).
  { intros ->. apply Hnp2, prefix_nil. }
  assert (Hprev : prev ≠ []).
  { intros Heq. apply Hnp1. rewrite Heq. apply prefix_nil. }
  assert (Hstitch : prev ++ drop k nextChunk = take (length prev - k) prev ++ nextChunk).
  { destruct Hmatch as [->|Hmatch].
    - by rewrite Nat.sub_0_r, firstn_all.
    - rewrite <- (take_drop (length prev - k) prev) at 1.
      unfold sliceLast in Hmatch. by rewrite Hmatch, <- app_assoc, take_drop. }
  unfold mergeStreamingChunk. fold prev nextChunk.
  rewrite (bool_decide_eq_false_2 (chunk = [])) by done.
  rewrite (bool_decide_eq_false_2 (prev = [])) by done.
  rewrite (proj2 (startsWith_not_prefix _ _) Hnp1).
  rewrite (proj2 (startsWith_not_prefix _ _) Hnp2).
  fold bound. rewrite Hloop, commonPrefixLength_lcp, Hstitch.
  repeat case_bool_decide; try done.
  exfalso. apply Hnear. by repeat split.
Qed.

Lemma mergeStreamingChunk_longest_overlap_witness :
  ∃ k, (k ≤ 6)%nat
       ∧ (k = 0%nat ∨ sliceLast k (lit "Hello wor") = take k (lit "world!"))
       ∧ (∀ j, (k < j ≤ 6)%nat → sliceLast j (lit "Hello wor") ≠ take j (lit "world!"))
       ∧ mergeStreamingChunk (lit "Hello wor") (lit "world!")
         = {| next := take (9 - k) (lit "Hello wor") ++ lit "world!";
              appended := drop k (lit "world!") |}.
Proof.
  apply (mergeStreamingChunk_longest_overlap (lit "Hello wor") (lit "world!"));
    apply (bool_decide_unpack _); vm_compute; exact I.
Defined.

End StreamingMore.

(** * Further properties of the YouTube resolver *)

Module YouTubeMore.
Import Js YouTube YouTubeFacts.

Lemma blockOk_unavailable {E : Env} (options : ProviderFetchOptions)
    (attempted : list TranscriptSource) (ns : list string) :
  blockOk (E := E) options attempted (ret (unavailableResult attempted ns)).
Proof.
  intros s o s' [= <- <-]. exists []. rewrite app_nil_r.
  split; [done|]. split; [done|]. intros r [= <-]. by exists [SrcUnavailable].
Qed.

Lemma callSource_available (c : Call) : callSource c ≠ SrcUnavailable.
Proof. by destruct c. Qed.

(** A provider block: the call, the success return when it yields
    text, or the rest of the chain. *)
Lemma blockOk_provider {E : Env} {A} (options : ProviderFetchOptions)
    (attempted : list TranscriptSource) (c : Call) (f : World E → reply A * World E)
    (yielded : A → option string) (success : A → string → ProviderResult)
    (rest : A → M (S := State E) ProviderResult) :
  modeAllows (youtubeTranscriptMode options) (callSource c) = true →
  (∀ a t, is_Some (text (success a t)) ∧ source (success a t) = Some (callSource c)
          ∧ attemptedProviders (success a t) = attempted ++ [callSource c]) →
  (∀ a, blockOk options (attempted ++ [callSource c]) (rest a)) →
  blockOk options attempted
    (bind (await c f) (λ a, ifTruthy (yielded a) (λ t, ret (success a t)) (rest a))).
Proof.
  intros Hmode Hsuccess Hrest s o s'. unfold bind.
  destruct (await c f s) as [[a| |] s1] eqn:Hawait;
    pose proof (await_calls _ _ _ _ _ Hawait) as Hcalls.
  - assert (Hgoes : rest a s1 = (o, s') →
      ∃ cs, calls s' = calls s ++ cs
        ∧ Forall (λ c, modeAllows (youtubeTranscriptMode options) (callSource c) = true) cs
        ∧ ∀ r, o = Returned r →
            ∃ att, attemptedProviders r = attempted ++ att
              ∧ filter (λ src, src ≠ SrcUnavailable) att = callSource <$> cs
              ∧ match text r with
                | Some _ => ∃ src, source r = Some src ∧ src ≠ SrcUnavailable
                                   ∧ last att = Some src
                | None => source r = Some SrcUnavailable ∧ last att = Some SrcUnavailable
                end).
    { intros Hrun. destruct (Hrest a s1 o s' Hrun) as (cs & Hcs & Hall & Hres).
      exists (c :: cs). split; [by rewrite Hcs, Hcalls, <- app_assoc|].
      split; [by apply Forall_cons|].
      intros r Ho. destruct (Hres r Ho) as (att & Hatt & Hfilter & Hshape).
      exists (callSource c :: att). split; [by rewrite Hatt, <- app_assoc|].
      split.
      { rewrite filter_cons_True by apply callSource_available. by rewrite Hfilter. }
      rewrite last_cons.
      destruct (text r); [destruct Hshape as (src & ? & ? & ->); eauto|].
      by destruct Hshape as (? & ->). }
    unfold ifTruthy. destruct (yielded a) as [t|]; [|done].
    destruct (String.eqb t ""); [done|].
    intros [= <- <-]. exists [c]. split; [done|]. split; [by apply Forall_singleton|].
    intros r' [= <-]. destruct (Hsuccess a t) as ([t' Ht] & Hsrc & Hatt).
    exists [callSource c]. split; [done|]. split.
    { by rewrite filter_cons_True by apply callSource_available. }
    rewrite Ht. exists (callSource c). auto using callSource_available.
  - intros [= <- <-]. exists [c]. split; [done|]. split; [by apply Forall_singleton|done].
  - intros [= <- <-]. exists [c]. split; [done|]. split; [by apply Forall_singleton|done].
Qed.

Section Blocks.
Context {E : Env}.
Variable context : ProviderContext.
Variable options : ProviderFetchOptions.

Lemma ytDlpStage_ok (attempted : list TranscriptSource) :
  blockOk (E := E) options attempted (ytDlpStage context options attempted).
Proof.
  unfold ytDlpStage. case_match eqn:Hcond; [|apply blockOk_unavailable].
  apply (blockOk_provider options attempted (CallYtDlp (url context)) _ ytText
           (λ y t, found SrcYtDlp _ t (attempted ++ [SrcYtDlp]) (joinNotes (ytNotes y)))).
  - destruct (youtubeTranscriptMode options); done.
  - intros ? ?. simpl. eauto.
  - intros ?. repeat case_match; try apply blockOk_unavailable.
    by intros s o s' [= <- <-]; exists []; rewrite app_nil_r.
Qed.

Lemma apifyStage_ok (attempted : list TranscriptSource) :
  blockOk (E := E) options attempted (apifyStage context options attempted).
Proof.
  unfold apifyStage. case_match eqn:Hcond; [|apply ytDlpStage_ok].
  apply (blockOk_provider options attempted
           (CallApify (apifyApiToken options) (url context)) _ id
           (λ _ t, found SrcApify _ t (attempted ++ [SrcApify]) None) (λ _, _)).
  - destruct (youtubeTranscriptMode options); done.
  - intros ? ?. simpl. eauto.
  - intros _. apply ytDlpStage_ok.
Qed.

Lemma captionTracksStage_ok (pageHtml videoId : string) (attempted : list TranscriptSource) :
  modeAllows (youtubeTranscriptMode options) SrcCaptionTracks = true →
  blockOk (E := E) options attempted
    (captionTracksStage context options pageHtml videoId attempted).
Proof.
  intros Hmode. unfold captionTracksStage.
  apply (blockOk_provider options attempted
           (CallCaptionTracks (url context) videoId) _ id
           (λ _ t, found SrcCaptionTracks _ t (attempted ++ [SrcCaptionTracks]) None)
           (λ _, _)).
  - done.
  - intros ? ?. simpl. eauto.
  - intros _. apply apifyStage_ok.
Qed.

Lemma webStage_ok (pageHtml videoId : string) :
  blockOk (E := E) options [] (webStage context options pageHtml videoId).
Proof.
  unfold webStage. case_match eqn:Hcond; [|apply apifyStage_ok].
  assert (Hweb : ∀ src, src = SrcYoutubei ∨ src = SrcCaptionTracks →
                        modeAllows (youtubeTranscriptMode options) src = true).
  { intros src [-> | ->]; by destruct (youtubeTranscriptMode options). }
  case_match; [|by apply captionTracksStage_ok, Hweb; right].
  apply (blockOk_provider options [] (CallTranscriptEndpoint (url context)) _ id
           (λ _ t, found SrcYoutubei _ t [SrcYoutubei] None) (λ _, _)).
  - apply Hweb. by left.
  - intros ? ?. simpl. eauto.
  - intros _. apply captionTracksStage_ok, Hweb. by right.
Qed.

(** The whole resolver: the calls it adds are eligible for the mode, and
    a returned result has the shape and the record of these calls. *)
Lemma fetchTranscript_ok (s : State E) :
  ∃ cs, calls (fetchTranscript context options s).2 = calls s ++ cs
    ∧ Forall (λ c, modeAllows (youtubeTranscriptMode options) (callSource c) = true) cs
    ∧ match (fetchTranscript context options s).1 with
      | Returned r =>
          filter (λ src, src ≠ SrcUnavailable) (attemptedProviders r) = callSource <$> cs
          ∧ resultShape r
      | _ => True
      end.
Proof.
  assert (Hnone : ∀ o, match o with
                       | Returned r => r = notTried
                       | Threw _ => True
                       | OutOfFuel => False
                       end →
    ∃ cs, calls s = calls s ++ cs
      ∧ Forall (λ c, modeAllows (youtubeTranscriptMode options) (callSource c) = true) cs
      ∧ match o with
        | Returned r =>
            filter (λ src, src ≠ SrcUnavailable) (attemptedProviders r) = callSource <$> cs
            ∧ resultShape r
        | _ => True
        end).
  { intros o Ho. exists []. rewrite app_nil_r. split; [done|]. split; [done|].
    destruct o as [r| |]; [subst r|done|done]. split; [done|]. by left. }
  unfold fetchTranscript.
  case_match;
    [by apply (Hnone (Threw (ThrownError
                 {| message := "Missing YT_DLP_PATH for --youtube yt-dlp" |})))|].
  case_match;
    [by apply (Hnone (Threw (ThrownError
                 {| message := "Missing OPENAI_API_KEY or FAL_KEY for --youtube yt-dlp" |})))|].
  unfold ifTruthy. case_match; [|by apply (Hnone (Returned notTried))].
  case_match; [by apply (Hnone (Returned notTried))|].
  case_match; [|by apply (Hnone (Returned notTried))].
  destruct (webStage context options _ _ s) as [o s'] eqn:Hrun.
  destruct (webStage_ok _ _ s o s' Hrun) as (cs & Hcs & Hall & Hres).
  exists cs. split; [done|]. split; [done|]. simpl.
  destruct o as [r| |]; [|done|done].
  destruct (Hres r eq_refl) as (att & Hatt & Hfilter & Hshape). simpl in Hatt.
  rewrite Hatt. split; [done|]. unfold resultShape. rewrite Hatt.
  destruct (text r); [done|by right].
Qed.
End Blocks.

(** X8.  Only the providers the mode makes eligible are ever called,
    however the run ends: [youtubei] and [captionTracks] in mode [web],
    [apify] in mode [apify], [yt-dlp] in mode [yt-dlp]. *)
Theorem fetchTranscript_calls_eligible {E : Env} (context : ProviderContext)
    (options : ProviderFetchOptions) (s : State E) :
  ∃ cs, calls (fetchTranscript context options s).2 = calls s ++ cs
    ∧ Forall (λ c, modeAllows (youtubeTranscriptMode options) (callSource c) = true) cs.
Proof.
  destruct (fetchTranscript_ok context options s) as (cs & Hcs & Hall & _). eauto.
Qed.

(** X9.  [attemptedProviders] is the record of the calls made, in the
    order they were made: leaving [unavailable] aside, the providers
    listed in a returned result are exactly the providers called during
    the run, one entry per call. *)
Theorem fetchTranscript_attempted_are_calls {E : Env} (context : ProviderContext)
    (options : ProviderFetchOptions) (s : State E) :
  ∃ cs, calls (fetchTranscript context options s).2 = calls s ++ cs
    ∧ match (fetchTranscript context options s).1 with
      | Returned r =>
          filter (λ src, src ≠ SrcUnavailable) (attemptedProviders r) = callSource <$> cs
      | _ => True
      end.
Proof.
  destruct (fetchTranscript_ok context options s) as (cs & Hcs & _ & Hres).
  exists cs. split; [done|]. by destruct (fetchTranscript context options s).1 as [r| |];
    [destruct Hres| |].
Qed.

(** X10.  In every returned result, a text comes with a source other
    than [unavailable], which is the last entry of [attemptedProviders];
    no text comes either with source null and nothing attempted, or with
    source [unavailable] as the last entry. *)
Theorem fetchTranscript_result_shape {E : Env} (context : ProviderContext)
    (options : ProviderFetchOptions) (s : State E) :
  match (fetchTranscript context options s).1 with
  | Returned r =>
      match text r with
      | Some _ =>
          ∃ src, source r = Some src ∧ src ≠ SrcUnavailable
                 ∧ last (attemptedProviders r) = Some src
      | None =>
          (source r = None ∧ attemptedProviders r = [])
          ∨ (source r = Some SrcUnavailable
             ∧ last (attemptedProviders r) = Some SrcUnavailable)
      end
  | _ => True
  end.
Proof.
  destruct (fetchTranscript_ok context options s) as (cs & _ & _ & Hres).
  by destruct (fetchTranscript context options s).1 as [r| |]; [destruct Hres| |].
Qed.

(** X11.  Outside mode [yt-dlp] the resolver does not throw of its own:
    when no provider promise rejects, every call returns a result. *)
Theorem fetchTranscript_returns {E : Env} (context : ProviderContext)
    (options : ProviderFetchOptions) (s : State E) :
  youtubeTranscriptMode options ≠ ModeYtDlp →
  providersResolve E →
  ∃ r, (fetchTranscript context options s).1 = Returned r.
Proof.
  intros Hmode (Hendpoint & Hcaptions & Hapify & Hytdlp).
  assert (Hyt : ∀ attempted s1,
    ∃ r, (ytDlpStage (E := E) context options attempted s1).1 = Returned r).
  { intros attempted s1. unfold ytDlpStage. rewrite (bool_decide_eq_false_2 _ Hmode).
    case_match; [|by eexists]. unfold bind, await.
    match goal with |- context [fetchTranscriptWithYtDlp E ?a ?b ?c ?d ?w] =>
      destruct (Hytdlp a b c d w) as (y & w2 & ->) end.
    unfold ifTruthy. repeat case_match; by eexists. }
  assert (Hap : ∀ attempted s1,
    ∃ r, (apifyStage (E := E) context options attempted s1).1 = Returned r).
  { intros attempted s1. unfold apifyStage. case_match; [|apply Hyt]. unfold bind, await.
    match goal with |- context [fetchTranscriptWithApify E ?a ?b ?w] =>
      destruct (Hapify a b w) as (t & w2 & ->) end.
    unfold ifTruthy. repeat case_match; (by eexists) || apply Hyt. }
  assert (Hcap : ∀ pageHtml videoId attempted s1,
    ∃ r, (captionTracksStage (E := E) context options pageHtml videoId attempted s1).1
         = Returned r).
  { intros pageHtml videoId attempted s1. unfold captionTracksStage, bind, await.
    match goal with |- context [fetchTranscriptFromCaptionTracks E ?a ?b ?c ?w] =>
      destruct (Hcaptions a b c w) as (t & w2 & ->) end.
    unfold ifTruthy. repeat case_match; (by eexists) || apply Hap. }
  unfold fetchTranscript. rewrite (bool_decide_eq_false_2 _ Hmode). simpl.
  unfold ifTruthy. repeat case_match; try by eexists.
  unfold webStage. repeat case_match; try apply Hap; try apply Hcap.
  unfold bind, await.
  match goal with |- context [fetchTranscriptFromTranscriptEndpoint E ?a ?b ?w] =>
    destruct (Hendpoint a b w) as (t & w2 & ->) end.
  unfold ifTruthy. repeat case_match; (by eexists) || apply Hcap.
Qed.

Lemma fetchTranscript_returns_witness :
  ∃ r, (fetchTranscript (E := captionsEnv)
          watchPage (ytDlpOptions ModeAuto) (fresh captionsEnv tt)).1 = Returned r.
Proof.
  apply (fetchTranscript_returns
           (E := captionsEnv)
           watchPage (ytDlpOptions ModeAuto) (fresh captionsEnv tt)).
  - discriminate.
  - repeat split; intros; eexists _, _; reflexivity.
Defined.

(** X12.  In mode [yt-dlp] a failed transcription is thrown, not turned
    into [unavailable]: when yt-dlp is configured and its result carries
    no text and an error, the call throws that error after the one call. *)
Theorem fetchTranscript_ytdlp_rethrows {E : Env} (context : ProviderContext)
    (options : ProviderFetchOptions) (pageHtml videoId : string) (s : State E)
    (result : YtDlpResult) (e : Error) (w' : World E) :
  youtubeTranscriptMode options = ModeYtDlp →
  truthy (ytDlpPath options) = true → hasYtDlpCredentials options = true →
  html context = Some pageHtml → pageHtml ≠ "" →
  effectiveVideoId (E := E) context = Some videoId →
  fetchTranscriptWithYtDlp E (ytDlpPath options) (openaiApiKey options) (falApiKey options)
    (url context) (world s) = (Resolves result, w') →
  truthy (ytText result) = false → ytError result = Some e →
  fetchTranscript context options s
  = (Threw (ThrownError e),
     {| world := w'; calls := calls s ++ [CallYtDlp (url context)] |}).
Proof.
  intros Hmode Hpath Hcred Hhtml Hne Hid Hcall Htext Herror.
  unfold fetchTranscript. rewrite Hmode, Hpath, Hcred, Hhtml, Hid. simpl.
  apply String.eqb_neq in Hne. rewrite Hne.
  unfold webStage, apifyStage, ytDlpStage. rewrite Hmode. simpl.
  unfold bind, await. rewrite Hcall, (ifTruthy_falsy _ _ _ Htext), Herror. done.
Qed.

Lemma fetchTranscript_ytdlp_rethrows_witness :
  fetchTranscript (E := failingEnv)
    watchPage (ytDlpOptions ModeYtDlp) (fresh failingEnv tt)
  = (Threw (ThrownError {| message := "OpenAI transcription failed: HTTP 500" |}),
     Build_State failingEnv tt ([] ++ [CallYtDlp (url watchPage)])).
Proof.
  apply (fetchTranscript_ytdlp_rethrows
           (E := failingEnv)
           watchPage (ytDlpOptions ModeYtDlp) "<html></html>" "abcdefghijk"
           (fresh failingEnv tt) ytDlpFailure); try reflexivity.
  discriminate.
Defined.

(** X13.  A transcript from the transcript endpoint ends the chain at
    once: in mode [auto] or [web], when the page carries the endpoint's
    configuration and the endpoint yields text, the result has that text
    (normalized), source [youtubei] and [attemptedProviders = [youtubei]],
    and no other provider is called. *)
Theorem fetchTranscript_youtubei_first {E : Env} (context : ProviderContext)
    (options : ProviderFetchOptions) (pageHtml videoId transcript : string) (s : State E)
    (config : YoutubeiConfig E) (w' : World E) :
  youtubeTranscriptMode options = ModeAuto ∨ youtubeTranscriptMode options = ModeWeb →
  html context = Some pageHtml → pageHtml ≠ "" →
  effectiveVideoId (E := E) context = Some videoId →
  extractYoutubeiTranscriptConfig E pageHtml = Some config →
  fetchTranscriptFromTranscriptEndpoint E config (url context) (world s)
  = (Resolves (Some transcript), w') →
  transcript ≠ "" →
  fetchTranscript context options s
  = (Returned
       {| text := Some (normalizeTranscriptText E transcript);
          source := Some SrcYoutubei;
          metadata := Some [("provider", Some "youtubei")];
          attemptedProviders := [SrcYoutubei];
          notes := None |},
     {| world := w'; calls := calls s ++ [CallTranscriptEndpoint (url context)] |}).
Proof.
  intros Hmode Hhtml Hne Hid Hconfig Hcall Htext.
  apply String.eqb_neq in Hne. apply String.eqb_neq in Htext.
  unfold fetchTranscript, webStage, bind, await.
  rewrite Hhtml, Hid.
  destruct Hmode as [-> | ->]; simpl; rewrite Hne, Hconfig, Hcall; simpl;
    by rewrite Htext.
Qed.

Lemma fetchTranscript_youtubei_first_witness :
  fetchTranscript (E := endpointEnv)
    watchPage (optionsFor ModeAuto) (fresh endpointEnv tt)
  = (Returned
       {| text := Some "hello"; source := Some SrcYoutubei;
          metadata := Some [("provider", Some "youtubei")];
          attemptedProviders := [SrcYoutubei]; notes := None |},
     Build_State endpointEnv tt ([] ++ [CallTranscriptEndpoint (url watchPage)])).
Proof.
  apply (fetchTranscript_youtubei_first
           (E := endpointEnv)
           watchPage (optionsFor ModeAuto) "<html></html>" "abcdefghijk" "hello"
           (fresh endpointEnv tt) tt tt); try reflexivity; try discriminate.
  by left.
Defined.

(** *** Which calls a run makes *)

Section CallsOnly.
Context {E : Env}.
Variable P : Call → Prop.

Lemma callsOnly_ret {A} (a : A) : callsOnly (E := E) P (ret a).
Proof. intros s. exists []. by rewrite app_nil_r. Qed.

Lemma callsOnly_throw {A} (t : thrown) : callsOnly (E := E) (A := A) P (throw t).
Proof. intros s. exists []. by rewrite app_nil_r. Qed.

Lemma callsOnly_await {A} (c : Call) (f : World E → reply A * World E) :
  P c → callsOnly P (await c f).
Proof.
  intros Hc s. exists [c]. unfold await.
  destruct (f (world s)) as [[a|t] w]; simpl; by split; [|apply Forall_singleton].
Qed.

Lemma callsOnly_bind {A B} (m : M (S := State E) A) (k : A → M (S := State E) B) :
  callsOnly P m → (∀ a, callsOnly P (k a)) → callsOnly P (bind m k).
Proof.
  intros Hm Hk s. destruct (Hm s) as (cs & Hcs & HP). unfold bind.
  destruct (m s) as [[a| |] s1]; simpl in *; [|by eauto..].
  destruct (Hk a s1) as (cs' & Hcs' & HP'). exists (cs ++ cs').
  rewrite Hcs', Hcs, app_assoc. split; [done|]. by apply Forall_app.
Qed.

Lemma callsOnly_ifTruthy {A} (o : option string) (f : string → M (S := State E) A)
    (g : M (S := State E) A) :
  (∀ v, callsOnly P (f v)) → callsOnly P g → callsOnly P (ifTruthy o f g).
Proof. intros Hf Hg. unfold ifTruthy. destruct o as [v|]; [|done]. by destruct (String.eqb v ""). Qed.
End CallsOnly.

(** yt-dlp runs only when its path and a transcription key are set. *)
Lemma fetchTranscript_ytdlp_configured {E : Env} (context : ProviderContext)
    (options : ProviderFetchOptions) :
  callsOnly (E := E) (λ c, callSource c = SrcYtDlp → canRunYtDlp options = true)
    (fetchTranscript context options).
Proof.
  set (P := λ c, callSource c = SrcYtDlp → canRunYtDlp options = true).
  unfold fetchTranscript.
  destruct (bool_decide _ && negb (truthy _)) eqn:Hpath; [apply callsOnly_throw|].
  destruct (bool_decide _ && negb (hasYtDlpCredentials _)) eqn:Hcredentials;
    [apply callsOnly_throw|].
  assert (Hyt : ∀ attempted, callsOnly (E := E) P (ytDlpStage context options attempted)).
  { intros attempted. unfold ytDlpStage.
    destruct (bool_decide _ || _) eqn:Hrun; [|apply callsOnly_ret].
    apply callsOnly_bind.
    - apply callsOnly_await. intros _. unfold canRunYtDlp in *.
      destruct (bool_decide (youtubeTranscriptMode options = ModeYtDlp)); simpl in *.
      + apply negb_false_iff in Hpath, Hcredentials. by rewrite Hpath, Hcredentials.
      + by apply andb_true_iff in Hrun as [_ Hrun].
    - intros result. apply callsOnly_ifTruthy; [intros; apply callsOnly_ret|].
      repeat case_match; apply callsOnly_ret || apply callsOnly_throw. }
  assert (Hap : ∀ attempted, callsOnly (E := E) P (apifyStage context options attempted)).
  { intros attempted. unfold apifyStage. case_match; [|apply Hyt].
    apply callsOnly_bind; [by apply callsOnly_await|].
    intros transcript. apply callsOnly_ifTruthy; [intros; apply callsOnly_ret|apply Hyt]. }
  assert (Hcap : ∀ pageHtml videoId attempted,
    callsOnly (E := E) P (captionTracksStage context options pageHtml videoId attempted)).
  { intros pageHtml videoId attempted. unfold captionTracksStage.
    apply callsOnly_bind; [by apply callsOnly_await|].
    intros transcript. apply callsOnly_ifTruthy; [intros; apply callsOnly_ret|apply Hap]. }
  apply callsOnly_ifTruthy; [|apply callsOnly_ret]. intros pageHtml.
  case_match; [|apply callsOnly_ret].
  unfold webStage. repeat case_match; try apply Hap; try apply Hcap.
  apply callsOnly_bind; [by apply callsOnly_await|].
  intros transcript. apply callsOnly_ifTruthy; [intros; apply callsOnly_ret|apply Hcap].
Qed.

(** X14.  yt-dlp runs only when it is configured: in every mode, a call
    of [fetchTranscriptWithYtDlp] is made only with [options.ytDlpPath]
    set together with an OpenAI or a FAL key. *)
Theorem fetchTranscript_ytdlp_needs_configuration {E : Env} (context : ProviderContext)
    (options : ProviderFetchOptions) (s : State E) :
  ∃ cs, calls (fetchTranscript context options s).2 = calls s ++ cs
    ∧ Forall (λ c, callSource c = SrcYtDlp →
                truthy (ytDlpPath options) = true
                ∧ truthy (openaiApiKey options) || truthy (falApiKey options) = true) cs.
Proof.
  destruct (fetchTranscript_ytdlp_configured context options s) as (cs & Hcs & Hall).
  exists cs. split; [done|]. eapply Forall_impl; [exact Hall|]. simpl.
  intros c Hc Hsrc. specialize (Hc Hsrc). unfold canRunYtDlp, hasYtDlpCredentials in Hc.
  by apply andb_true_iff in Hc.
Qed.

(** X15.  A resource key that is blank once trimmed stops the resolver
    even when the URL carries a video id: the URL is only consulted when
    the key is null.  Outside mode [yt-dlp] the result is
    [{ text: null, source: null }] with nothing attempted and no call. *)
Theorem fetchTranscript_blank_resource_key {E : Env} (context : ProviderContext)
    (options : ProviderFetchOptions) (key : string) (s : State E) :
  youtubeTranscriptMode options ≠ ModeYtDlp →
  resourceKey context = Some key → trim E key = "" →
  fetchTranscript context options s
  = (Returned {| text := None; source := None; metadata := None;
                 attemptedProviders := []; notes := None |}, s).
Proof.
  intros Hmode Hkey Htrim. unfold fetchTranscript, effectiveVideoId.
  rewrite (bool_decide_eq_false_2 _ Hmode), Hkey, Htrim. simpl.
  unfold ifTruthy. by repeat case_match.
Qed.

Lemma fetchTranscript_blank_resource_key_witness :
  fetchTranscript (E := silentEnv)
    {| url := url watchPage; html := html watchPage; resourceKey := Some "" |}
    (optionsFor ModeAuto) start
  = (Returned {| text := None; source := None; metadata := None;
                 attemptedProviders := []; notes := None |}, start).
Proof.
  apply (fetchTranscript_blank_resource_key (E := silentEnv)
           {| url := url watchPage; html := html watchPage; resourceKey := Some "" |}
           (optionsFor ModeAuto) "" start).
  - discriminate.
  - reflexivity.
  - reflexivity.
Defined.

End YouTubeMore.

(** * Properties of the transcript resolution for a link *)

Module LinkPreviewFacts.
Import Js YouTube YouTubeFacts YouTubeMore LinkPreview.
Local Open Scope js_scope.

Section Resolve.
Context {E : Env}.
Variable isYouTubeUrl : string → bool.
Variables canHandlePodcast canHandleGeneric : ProviderContext → bool.
Variables fetchPodcast fetchGeneric :
  ProviderContext → ProviderFetchOptions → M (S := State E) ProviderResult.

Abbreviation resolve :=
  (resolveTranscriptForLink isYouTubeUrl canHandlePodcast canHandleGeneric
     fetchPodcast fetchGeneric).

(** A link the YouTube provider handles is resolved by this provider. *)
Lemma resolveTranscriptForLink_youtube (url : string) (html : option string)
    (deps : LinkPreviewDeps) (mode : option YoutubeTranscriptMode) (s : State E) :
  YOUTUBE_URL_PATTERN (trim E url) = true →
  resolve url html deps mode s
  = (let* providerResult :=
       YouTube.fetchTranscript (linkContext (E := E) isYouTubeUrl url html)
         (linkOptions deps mode) in
     ret (resolution providerResult)) s.
Proof.
  intros Hurl. unfold resolveTranscriptForLink, selectProvider, bind at 1. simpl.
  unfold canHandleYoutube. simpl. by rewrite Hurl.
Qed.
End Resolve.

Lemma linkOptions_cannot_run_ytdlp (deps : LinkPreviewDeps)
    (mode : option YoutubeTranscriptMode) :
  canRunYtDlp (linkOptions deps mode) = false.
Proof. done. Qed.

(** The calls of a resolution of a YouTube link are those of the YouTube
    provider with the link's context and options, and its result is the
    provider's. *)
Lemma resolveTranscriptForLink_run {E : Env} (isYouTubeUrl : string → bool)
    (canHandlePodcast canHandleGeneric : ProviderContext → bool)
    (fetchPodcast fetchGeneric :
       ProviderContext → ProviderFetchOptions → M (S := State E) ProviderResult)
    (url : string) (html : option string) (deps : LinkPreviewDeps)
    (mode : option YoutubeTranscriptMode) (s : State E) :
  YOUTUBE_URL_PATTERN (trim E url) = true →
  let run :=
    YouTube.fetchTranscript (linkContext (E := E) isYouTubeUrl url html)
      (linkOptions deps mode) s in
  resolveTranscriptForLink isYouTubeUrl canHandlePodcast canHandleGeneric
    fetchPodcast fetchGeneric url html deps mode s
  = (match run.1 with
     | Returned r => Returned (resolution r)
     | Threw t => Threw t
     | OutOfFuel => OutOfFuel
     end, run.2).
Proof.
  intros Hurl run. rewrite resolveTranscriptForLink_youtube by done.
  unfold bind. fold run. by destruct run as [[r| |] s1].
Qed.

(** X26.  Through the link resolver, mode [yt-dlp] cannot succeed: the
    options it hands to the YouTube provider carry no [ytDlpPath], so for
    a link this provider handles the call throws "Missing YT_DLP_PATH for
    --youtube yt-dlp" before any provider is called. *)
Theorem resolveTranscriptForLink_ytdlp_mode_throws {E : Env} (isYouTubeUrl : string → bool)
    (canHandlePodcast canHandleGeneric : ProviderContext → bool)
    (fetchPodcast fetchGeneric :
       ProviderContext → ProviderFetchOptions → M (S := State E) ProviderResult)
    (url : string) (html : option string) (deps : LinkPreviewDeps) (s : State E) :
  YOUTUBE_URL_PATTERN (trim E url) = true →
  resolveTranscriptForLink isYouTubeUrl canHandlePodcast canHandleGeneric
    fetchPodcast fetchGeneric url html deps (Some ModeYtDlp) s
  = (Threw (ThrownError {| message := "Missing YT_DLP_PATH for --youtube yt-dlp" |}), s).
Proof. intros Hurl. by rewrite resolveTranscriptForLink_run. Qed.

Lemma resolveTranscriptForLink_ytdlp_mode_throws_witness :
  resolveTranscriptForLink (E := silentEnv) (λ _, true) handlesNothing handlesNothing
    findsNothing findsNothing shoutedLink (Some "<html></html>")
    {| apifyApiToken := None |} (Some ModeYtDlp) start
  = (Threw (ThrownError {| message := "Missing YT_DLP_PATH for --youtube yt-dlp" |}), start).
Proof.
  apply (resolveTranscriptForLink_ytdlp_mode_throws (E := silentEnv) (λ _, true)
           handlesNothing handlesNothing findsNothing findsNothing shoutedLink
           (Some "<html></html>") {| apifyApiToken := None |} start).
  reflexivity.
Defined.

(** X27.  The link resolver never runs yt-dlp: in every mode, the calls
    made while resolving a link the YouTube provider handles are calls
    of the transcript endpoint, the caption tracks or Apify. *)
Theorem resolveTranscriptForLink_never_runs_ytdlp {E : Env} (isYouTubeUrl : string → bool)
    (canHandlePodcast canHandleGeneric : ProviderContext → bool)
    (fetchPodcast fetchGeneric :
       ProviderContext → ProviderFetchOptions → M (S := State E) ProviderResult)
    (url : string) (html : option string) (deps : LinkPreviewDeps)
    (mode : option YoutubeTranscriptMode) (s : State E) :
  YOUTUBE_URL_PATTERN (trim E url) = true →
  ∃ cs,
    calls (resolveTranscriptForLink isYouTubeUrl canHandlePodcast canHandleGeneric
             fetchPodcast fetchGeneric url html deps mode s).2 = calls s ++ cs
    ∧ Forall (λ c, callSource c ≠ SrcYtDlp) cs.
Proof.
  intros Hurl. rewrite resolveTranscriptForLink_run by done. simpl.
  destruct (fetchTranscript_ytdlp_configured
              (linkContext (E := E) isYouTubeUrl url html) (linkOptions deps mode) s)
    as (cs & Hcs & Hall).
  exists cs. split; [done|]. eapply Forall_impl; [exact Hall|]. simpl.
  intros c Hc Hsrc. specialize (Hc Hsrc). by rewrite linkOptions_cannot_run_ytdlp in Hc.
Qed.

Lemma resolveTranscriptForLink_never_runs_ytdlp_witness :
  ∃ cs,
    calls (resolveTranscriptForLink (E := silentEnv) (λ _, true) handlesNothing
             handlesNothing findsNothing findsNothing shoutedLink (Some "<html></html>")
             {| apifyApiToken := None |} None start).2 = calls start ++ cs
    ∧ Forall (λ c, callSource c ≠ SrcYtDlp) cs.
Proof.
  apply (resolveTranscriptForLink_never_runs_ytdlp (E := silentEnv) (λ _, true)
           handlesNothing handlesNothing findsNothing findsNothing shoutedLink
           (Some "<html></html>") {| apifyApiToken := None |} None start).
  reflexivity.
Defined.

(** X28.  What the diagnostics of a resolved YouTube link say.  The notes
    are always null.  When [textProvided] is true, the resolution has a
    non-empty text, its source is ['youtubei'], ['captionTracks'] or
    ['apify'], the diagnostics name the same provider, and this provider
    is the last of [attemptedProviders]. *)
Theorem resolveTranscriptForLink_diagnostics {E : Env} (isYouTubeUrl : string → bool)
    (canHandlePodcast canHandleGeneric : ProviderContext → bool)
    (fetchPodcast fetchGeneric :
       ProviderContext → ProviderFetchOptions → M (S := State E) ProviderResult)
    (url : string) (html : option string) (deps : LinkPreviewDeps)
    (mode : option YoutubeTranscriptMode) (s s' : State E) (res : TranscriptResolution) :
  YOUTUBE_URL_PATTERN (trim E url) = true →
  resolveTranscriptForLink isYouTubeUrl canHandlePodcast canHandleGeneric
    fetchPodcast fetchGeneric url html deps mode s = (Returned res, s') →
  notes (diagnostics res) = None
  ∧ (textProvided (diagnostics res) = true →
     ∃ t src,
       text res = Some t ∧ t ≠ ""
       ∧ source res = Some src ∧ provider (diagnostics res) = Some src
       ∧ src ∈ [SrcYoutubei; SrcCaptionTracks; SrcApify]
       ∧ last (attemptedProviders (diagnostics res)) = Some src).
Proof.
  intros Hurl. rewrite resolveTranscriptForLink_run by done.
  set (context := linkContext (E := E) isYouTubeUrl url html).
  set (options := linkOptions deps mode).
  destruct (fetchTranscript_ok context options s) as (cs & Hcs & _ & Hres).
  destruct (fetchTranscript_ytdlp_configured context options s) as (cs' & Hcs' & Hall).
  rewrite Hcs in Hcs'. apply app_inv_head in Hcs' as <-.
  destruct (YouTube.fetchTranscript context options s).1 as [r| |]; [|done|done].
  intros [= <- <-]. split; [done|]. simpl.
  destruct Hres as [Hattempted Hshape]. unfold resultShape in Hshape.
  destruct (YouTube.text r) as [t|]; [|done].
  intros Ht. destruct Hshape as (src & Hsource & Havailable & Hlast).
  exists t, src. split_and!; [done| |done|done| |done].
  - intros ->. done.
  - assert (Hin : src ∈ callSource <$> cs).
    { rewrite <- Hattempted. apply list_elem_of_filter. split; [done|].
      rewrite last_lookup in Hlast. by eapply list_elem_of_lookup_2. }
    apply list_elem_of_fmap in Hin as (c & -> & Hc).
    rewrite Forall_forall in Hall. specialize (Hall c Hc).
    destruct c; simpl in *.
    + apply list_elem_of_here.
    + apply list_elem_of_further, list_elem_of_here.
    + do 2 apply list_elem_of_further. apply list_elem_of_here.
    + by specialize (Hall eq_refl).
Qed.

Lemma resolveTranscriptForLink_diagnostics_witness :
  let res :=
    resolution {| YouTube.text := Some "hello"; YouTube.source := Some SrcYoutubei;
                  metadata := Some [("provider", Some "youtubei")];
                  YouTube.attemptedProviders := [SrcYoutubei]; YouTube.notes := None |} in
  notes (diagnostics res) = None
  ∧ (textProvided (diagnostics res) = true →
     ∃ t src,
       text res = Some t ∧ t ≠ ""
       ∧ source res = Some src ∧ provider (diagnostics res) = Some src
       ∧ src ∈ [SrcYoutubei; SrcCaptionTracks; SrcApify]
       ∧ last (attemptedProviders (diagnostics res)) = Some src).
Proof.
  intros res.
  apply (resolveTranscriptForLink_diagnostics (E := endpointEnv) (λ _, true)
           handlesNothing handlesNothing findsNothing findsNothing shoutedLink
           (Some "<html></html>") {| apifyApiToken := None |} None
           (fresh endpointEnv tt)
           (Build_State endpointEnv tt [CallTranscriptEndpoint shoutedLink]) res);
    reflexivity.
Defined.

(** X29.  [selectProvider] always finds a provider, without throwing:
    the YouTube provider for a URL that matches its pattern, else the
    podcast provider when it can handle the link, else the generic one,
    whose own [canHandle] is never asked. *)
Theorem selectProvider_order {E : Env}
    (canHandlePodcast canHandleGeneric : ProviderContext → bool)
    (fetchPodcast fetchGeneric :
       ProviderContext → ProviderFetchOptions → M (S := State E) ProviderResult)
    (context : ProviderContext) (s : State E) :
  ∃ selected,
    selectProvider canHandlePodcast canHandleGeneric fetchPodcast fetchGeneric context s
    = (Returned selected, s)
    ∧ selected ∈ PROVIDERS canHandlePodcast canHandleGeneric fetchPodcast fetchGeneric
    ∧ id selected
      = (if YOUTUBE_URL_PATTERN (url context) then "youtube"
         else if canHandlePodcast context then "podcast" else "generic").
Proof.
  unfold selectProvider, PROVIDERS, canHandleYoutube. simpl.
  destruct (YOUTUBE_URL_PATTERN (url context)); simpl.
  { eexists. split_and!; [done|apply list_elem_of_here|done]. }
  destruct (canHandlePodcast context); simpl.
  { eexists. split_and!; [done|apply list_elem_of_further, list_elem_of_here|done]. }
  eexists. split_and!; [done| |done]. do 2 apply list_elem_of_further. apply list_elem_of_here.
Qed.

End LinkPreviewFacts.

(** * Properties of the transcription start information *)

Module TranscriptionStartFacts.
Import Js Whisper TranscriptionStart.
Local Open Scope js_scope.

Lemma isWhisperCppReady_returns {E : Env} (w : World E) :
  ∃ ready w', isWhisperCppReady w = (Returned ready, w').
Proof.
  unfold isWhisperCppReady, bind, ask, perform.
  destruct (isWhisperCppEnabled E w); simpl; [|by eexists _, _].
  destruct (isWhisperCliAvailable E w) as [[|] w1]; simpl; [|by eexists _, _].
  destruct (resolveWhisperCppModelPath E w1) as [model w2]. by eexists _, _.
Qed.

(** X30.  [resolveTranscriptionStartInfo] always returns, and its three
    answers agree: the hint is ['unknown'] exactly when no provider is
    available, exactly when the model id is null; and a hint at a remote
    provider comes with the model id of this provider and with its key. *)
Theorem resolveTranscriptionStartInfo_consistent {E : Env} (EnvVars : Type)
    (processEnv : World E → EnvVars) (resolvePreferredOnnxModel : EnvVars → option string)
    (isOnnxCliConfigured : string → EnvVars → bool) (env : option EnvVars)
    (openaiApiKey falApiKey : option string) (w : World E) :
  ∃ info w',
    resolveTranscriptionStartInfo EnvVars processEnv resolvePreferredOnnxModel
      isOnnxCliConfigured env openaiApiKey falApiKey w = (Returned info, w')
    ∧ (providerHint info = HintUnknown ↔ hasAnyProvider (availability info) = false)
    ∧ (modelId info = None ↔ providerHint info = HintUnknown)
    ∧ match providerHint info with
      | HintOpenaiThenFal =>
          modelId info = Some "whisper-1->fal-ai/wizper"
          ∧ truthy openaiApiKey = true ∧ truthy falApiKey = true
      | HintOpenai =>
          modelId info = Some "whisper-1"
          ∧ truthy openaiApiKey = true ∧ truthy falApiKey = false
      | HintFal =>
          modelId info = Some "fal-ai/wizper"
          ∧ truthy openaiApiKey = false ∧ truthy falApiKey = true
      | HintOnnx => onnxReady (availability info) = true
      | HintCpp =>
          onnxReady (availability info) = false
          ∧ hasLocalWhisper (availability info) = true
      | HintUnknown => truthy openaiApiKey = false ∧ truthy falApiKey = false
      end.
Proof.
  unfold resolveTranscriptionStartInfo, resolveTranscriptionAvailability.
  unfold bind at 1 2, ask. unfold bind at 1.
  destruct (isWhisperCppReady_returns w) as (ready & w1 & ->).
  unfold ret at 1. unfold hintFor. simpl.
  set (model := resolvePreferredOnnxModel (default (processEnv w) env)).
  destruct (ifTruthy model _ false) eqn:Honnx; simpl.
  { unfold bind, ret. eexists _, _. split; [done|]. simpl. split_and!; try done.
    unfold ifTruthy. destruct model as [m|]; [|done]. by destruct (String.eqb m ""). }
  destruct ready; simpl.
  { unfold bind at 1, resolveWhisperCppModelNameForDisplay, bind, perform.
    destruct (resolveWhisperCppModelPath E w1) as [path w2]. simpl.
    eexists _, _. split; [done|]. simpl. by split_and!. }
  destruct (truthy openaiApiKey), (truthy falApiKey); simpl;
    unfold bind, ret; eexists _, _; (split; [done|]); simpl; by split_and!.
Qed.

End TranscriptionStartFacts.
